(** * The flake output checker and the lock-graph walkers of [src/nix/flake.cc]

    A shallow embedding of [CmdFlakeCheck::run], [enumerateOutputs],
    [CmdFlakeListInputs::run] and [CmdFlakeArchive::run], followed by the
    properties of the checker and of the two recursive lock-graph traversals. *)

From Stdlib Require Import String Ascii List ZArith Lia.
From stdpp Require Import base option list gmap sets strings relations.

Local Open Scope string_scope.
Local Open Scope list_scope.

(* ===================================================================== *)
(** * Errors and results *)
(* ===================================================================== *)

(** [nix::Error]: the message and the prefix accumulated by [addPrefix]
    while the exception unwinds. *)
Record Error := mkError { prefix_ : string; err : string }.

(** [e.addPrefix(fs)]: the new context goes in front of the old ones. *)
Definition addPrefix (fs : string) (e : Error) : Error :=
  mkError (fs +:+ prefix_ e) (err e).

(** Outcome of a call: it returns, it throws a [nix::Error], or the process
    stops there (a failed [assert], a null pointer dereferenced). *)
Inductive Result (A : Type) : Type :=
| Ok (a : A)
| Throw (e : Error)
| Crash.
Arguments Ok {A} a.
Arguments Throw {A} e.
Arguments Crash {A}.

(* ===================================================================== *)
(** * Strings *)
(* ===================================================================== *)

(** The line feed that ends each context of an error. *)
Definition nl : string := String "010" EmptyString.

(** [s.find(c)]: position of the first [c], [None] for [std::string::npos]. *)
Fixpoint string_find (c : ascii) (s : string) : option nat :=
  match s with
  | EmptyString => None
  | String a s' => if Ascii.eqb a c then Some 0 else S <$> string_find c s'
  end.

(** A string contains the character [c]. *)
Fixpoint contains_char (c : ascii) (s : string) : Prop :=
  match s with
  | EmptyString => False
  | String a s' => a = c \/ contains_char c s'
  end.

(* ===================================================================== *)
(** * Values of the evaluator *)
(* ===================================================================== *)

(** Source position of an attribute ([nix::Pos]). *)
Record Pos := mkPos { file : string; line : nat; column : nat }.

(** Expressions, as far as the checker looks into them: [ExprLambda] with its
    [arg], [matchAttrs], [formals->ellipsis] and [body], and everything else. *)
Inductive Expr : Type :=
| ExprLambda (arg : string) (matchAttrs : bool) (ellipsis : bool) (body : Expr)
| ExprOther.

(** A value in weak head normal form, or a thunk whose evaluation throws.
    Forcing is deterministic and idempotent, so a thunk that evaluates to a
    value is represented by that value. *)
Inductive Value : Type :=
| VThunkFails (e : Error)
| VInt (n : Z)
| VString (s : string) (context : list string)
| VAttrs (attrs : list Attr)
| VLambda (arg : string) (matchAttrs : bool) (ellipsis : bool) (body : Expr)
| VOther
with Attr : Type :=
| mkAttr (name : string) (value : Value) (pos : Pos).

Definition attr_name (a : Attr) : string := let 'mkAttr n _ _ := a in n.
Definition attr_value (a : Attr) : Value := let 'mkAttr _ v _ := a in v.
Definition attr_pos (a : Attr) : Pos := let 'mkAttr _ _ p := a in p.

(** Store paths ([nix::StorePath]) are identified with their printed form. *)
Definition StorePath : Type := string.

(** [StorePathWithOutputs], built from a path alone by [emplace_back(drvPath)]. *)
Record StorePathWithOutputs := mkSPWO { path : StorePath; outputs : list string }.

Record DrvInfo := mkDrvInfo { queryDrvPath : string }.

Record App := mkApp { context : list string; program : string }.

(* ===================================================================== *)
(** * The collaborators of the checker *)
(* ===================================================================== *)

(** What the checker uses of the evaluator ([eval.hh], [get-drvs.hh],
    [attr-path.hh], [installables.hh]); none of it is defined in
    [flake.cc], so it is taken as a parameter. *)
Class EvalState := {
  (** [operator <<] on [Pos] *)
  showPos : Pos -> string;
  (** [showType(v)], used by the type errors of [forceAttrs] *)
  showType : Value -> string;
  (** [state->isDerivation(v)] *)
  isDerivation : Value -> Result bool;
  (** [getDerivation(state, v, false)] *)
  getDerivation : Value -> Result (option DrvInfo);
  (** the constructor [App(state, v)] *)
  App_of : Value -> Result App;
  (** [decodeContext(i)]: the path and the output name *)
  decodeContext : string -> string * string;
  (** [findAlongAttrPath(state, path, bindings, v).first] *)
  findAlongAttrPath : string -> Value -> Result Value
}.

(** What the checker uses of the store ([store-api.hh], [path.hh]). *)
Class Store := {
  (** [store->parseStorePath(s)] *)
  parseStorePath : string -> Result StorePath;
  (** [store->printStorePath(p)] *)
  printStorePath : StorePath -> string;
  (** [drvPath.isDerivation()] *)
  StorePath_isDerivation : StorePath -> bool;
  (** [store->buildPaths(drvPaths)] *)
  buildPaths : list StorePathWithOutputs -> Result unit
}.

(** The settings and the [util.hh] macros that [flake.cc] reads. *)
Class Settings := {
  (** [settings.thisSystem.get()] *)
  thisSystem : string;
  ANSI_BOLD : string;
  ANSI_NORMAL : string;
  treeConn : string;
  treeLast : string;
  treeLine : string;
  treeNull : string
}.

(* ===================================================================== *)
(** * State and effects of [CmdFlakeCheck::run] *)
(* ===================================================================== *)

(** What the run does to the world, in order. *)
Inductive Event : Type :=
| SetReadOnlyMode (b : bool)        (* settings.readOnlyMode = b *)
| StartActivity (s : string)        (* Activity act(logger, ..., s) *)
| Warn (s : string)                 (* warn(s) *)
| BuildPaths (ps : list StorePathWithOutputs). (* store->buildPaths(ps) *)

(** The variables the lambdas of [run] capture by reference, and the trace. *)
Record CheckState := mkCheckState {
  readOnlyMode : bool;
  drvPaths : list StorePathWithOutputs;
  trace : list Event
}.

Definition M (A : Type) : Type := CheckState -> CheckState * Result A.

Definition ret {A} (a : A) : M A := fun s => (s, Ok a).

Definition bind {A B} (m : M A) (k : A -> M B) : M B :=
  fun s =>
    match m s with
    | (s', Ok a) => k a s'
    | (s', Throw e) => (s', Throw e)
    | (s', Crash) => (s', Crash)
    end.

Declare Scope check_scope.
Delimit Scope check_scope with check.
Notation "'let*' x := m 'in' k" := (bind m (fun x => k))
  (at level 10, x pattern, m at level 100, k at level 200,
   format "'[v' 'let*'  x  :=  m  'in' '/' k ']'") : check_scope.
Notation "m ;;; k" := (bind m (fun _ => k))
  (at level 100, k at level 200, right associativity) : check_scope.
Local Open Scope check_scope.

(** [throw Error(msg)] *)
Definition throw {A} (msg : string) : M A := fun s => (s, Throw (mkError EmptyString msg)).

(** A call to a collaborator, which returns or throws. *)
Definition call {A} (r : Result A) : M A := fun s => (s, r).

(** [try { m } catch (Error & e) { e.addPrefix(fs); throw; }] *)
Definition try_addPrefix {A} (fs : string) (m : M A) : M A :=
  fun s =>
    match m s with
    | (s', Throw e) => (s', Throw (addPrefix fs e))
    | r => r
    end.

(** [for (auto & a : l) f(a);] *)
Definition for_each {A} (f : A -> M unit) : list A -> M unit :=
  fix go (l : list A) : M unit :=
    match l with
    | [] => ret tt
    | a :: l' => f a ;;; go l'
    end.

Definition emit (ev : Event) : M unit :=
  fun s => (mkCheckState (readOnlyMode s) (drvPaths s) (trace s ++ [ev]), Ok tt).

(** [drvPaths.emplace_back(drvPath)] *)
Definition drvPaths_emplace_back (drvPath : StorePath) : M unit :=
  fun s => (mkCheckState (readOnlyMode s) (drvPaths s ++ [mkSPWO drvPath []]) (trace s),
            Ok tt).

Definition set_readOnlyMode (b : bool) : M unit :=
  fun s => (mkCheckState b (drvPaths s) (trace s ++ [SetReadOnlyMode b]), Ok tt).

Definition get_drvPaths : M (list StorePathWithOutputs) :=
  fun s => (s, Ok (drvPaths s)).

(* ===================================================================== *)
(** * Forcing *)
(* ===================================================================== *)

Section Checker.
Context `{EvalState} `{Store} `{Settings}.

(** [state->forceValue(v, pos)]: the only way it fails is the thunk's own
    evaluation error. *)
Definition forceValue (v : Value) (pos : Pos) : M unit :=
  match v with
  | VThunkFails e => call (Throw e)
  | _ => ret tt
  end.

(** [state->forceAttrs(v, pos)]: forces, then requires an attribute set. *)
Definition forceAttrs (v : Value) (pos : Pos) : M unit :=
  forceValue v pos ;;;
  match v with
  | VAttrs _ => ret tt
  | _ => throw ("value is " +:+ showType v +:+ " while a set was expected, at "
                +:+ showPos pos)
  end.

(** [*v.attrs] of a value known to be an attribute set. *)
Definition attrs_of (v : Value) : list Attr :=
  match v with
  | VAttrs attrs => attrs
  | _ => []
  end.

(* ===================================================================== *)
(** * The checkers of [CmdFlakeCheck::run] *)
(* ===================================================================== *)

Definition checkSystemName (system : string) (pos : Pos) : M unit :=
  match string_find "-"%char system with
  | None => throw ("'" +:+ system +:+ "' is not a valid system type, at " +:+ showPos pos)
  | Some _ => ret tt
  end.

Definition checkDerivation (attrPath : string) (v : Value) (pos : Pos) : M StorePath :=
  try_addPrefix
    ("while checking the derivation '" +:+ ANSI_BOLD +:+ attrPath +:+ ANSI_NORMAL
     +:+ "' at " +:+ showPos pos +:+ ":" +:+ nl)
    (let* drvInfo := call (getDerivation v) in
     match drvInfo with
     | None => throw ("flake attribute '" +:+ attrPath +:+ "' is not a derivation")
     | Some d => call (parseStorePath (queryDrvPath d))
     end).

Definition checkApp (attrPath : string) (v : Value) (pos : Pos) : M unit :=
  try_addPrefix
    ("while checking the app definition '" +:+ ANSI_BOLD +:+ attrPath +:+ ANSI_NORMAL
     +:+ "' at " +:+ showPos pos +:+ ":" +:+ nl)
    (let* app := call (App_of v) in
     for_each (fun i =>
       let '(drvPathS, outputName) := decodeContext i in
       let* drvPath := call (parseStorePath drvPathS) in
       if negb (String.eqb outputName EmptyString) && StorePath_isDerivation drvPath
       then drvPaths_emplace_back drvPath
       else ret tt) (context app)).

Definition checkOverlay (attrPath : string) (v : Value) (pos : Pos) : M unit :=
  try_addPrefix
    ("while checking the overlay '" +:+ ANSI_BOLD +:+ attrPath +:+ ANSI_NORMAL
     +:+ "' at " +:+ showPos pos +:+ ":" +:+ nl)
    (forceValue v pos ;;;
     match v with
     | VLambda arg matchAttrs _ body =>
         if matchAttrs || negb (String.eqb arg "final")
         then throw "overlay does not take an argument named 'final'"
         else
           match body with
           | ExprLambda arg' matchAttrs' _ _ =>
               if matchAttrs' || negb (String.eqb arg' "prev")
               then throw "overlay does not take an argument named 'prev'"
               else ret tt
           | ExprOther => throw "overlay does not take an argument named 'prev'"
           end
     | _ => throw "overlay does not take an argument named 'final'"
     end).

Definition checkModule (attrPath : string) (v : Value) (pos : Pos) : M unit :=
  try_addPrefix
    ("while checking the NixOS module '" +:+ ANSI_BOLD +:+ attrPath +:+ ANSI_NORMAL
     +:+ "' at " +:+ showPos pos +:+ ":" +:+ nl)
    (forceValue v pos ;;;
     match v with
     | VLambda _ matchAttrs ellipsis _ =>
         if negb matchAttrs || negb ellipsis
         then throw "module must match an open attribute set ('{ config, ... }')"
         else ret tt
     | VAttrs attrs =>
         for_each (fun attr =>
           try_addPrefix
             ("while evaluating the option '" +:+ ANSI_BOLD +:+ attr_name attr
              +:+ ANSI_NORMAL +:+ "' at " +:+ showPos (attr_pos attr) +:+ ":"
              +:+ nl)
             (forceValue (attr_value attr) (attr_pos attr))) attrs
     | _ => throw "module must be a function or an attribute set"
     end).

Fixpoint checkHydraJobs (attrPath : string) (v : Value) (pos : Pos) {struct v} : M unit :=
  try_addPrefix
    ("while checking the Hydra jobset '" +:+ ANSI_BOLD +:+ attrPath +:+ ANSI_NORMAL
     +:+ "' at " +:+ showPos pos +:+ ":" +:+ nl)
    (forceAttrs v pos ;;;
     let* drv := call (isDerivation v) in
     if (drv : bool) then throw "jobset should not be a derivation at top-level"
     else
       match v with
       | VAttrs attrs =>
           for_each (fun attr =>
             match attr with
             | mkAttr name value pos' =>
                 forceAttrs value pos' ;;;
                 let* drv' := call (isDerivation value) in
                 if (drv' : bool) then ret tt
                 else checkHydraJobs (attrPath +:+ "." +:+ name) value pos'
             end) attrs
       | _ => ret tt
       end).

(** The body of the loop of [checkHydraJobs]. *)
Definition checkHydraJobs_attr (attrPath : string) (attr : Attr) : M unit :=
  forceAttrs (attr_value attr) (attr_pos attr) ;;;
  let* drv' := call (isDerivation (attr_value attr)) in
  if (drv' : bool) then ret tt
  else checkHydraJobs (attrPath +:+ "." +:+ attr_name attr)
         (attr_value attr) (attr_pos attr).

Definition checkNixOSConfiguration (attrPath : string) (v : Value) (pos : Pos) : M unit :=
  try_addPrefix
    ("while checking the NixOS configuration '" +:+ ANSI_BOLD +:+ attrPath
     +:+ ANSI_NORMAL +:+ "' at " +:+ showPos pos +:+ ":" +:+ nl)
    (emit (StartActivity ("checking NixOS configuration '" +:+ attrPath +:+ "'")) ;;;
     let* vToplevel := call (findAlongAttrPath "config.system.build.toplevel" v) in
     forceAttrs vToplevel pos ;;;
     let* drv := call (isDerivation vToplevel) in
     if (drv : bool) then ret tt
     else throw "attribute 'config.system.build.toplevel' is not a derivation").

(** [fmt("%s.%s", a, b)] and [fmt("%s.%s.%s", a, b, c)] *)
Definition fmt2 (a b : string) : string := a +:+ "." +:+ b.
Definition fmt3 (a b c : string) : string := a +:+ "." +:+ b +:+ "." +:+ c.

(** The body of the inner loop of the [checks] branch. *)
Definition checks_entry (name : string) (attr attr2 : Attr) : M unit :=
  let* drvPath := checkDerivation (fmt3 name (attr_name attr) (attr_name attr2))
                    (attr_value attr2) (attr_pos attr2) in
  if String.eqb (attr_name attr) thisSystem
  then drvPaths_emplace_back drvPath
  else ret tt.

(** The branches of the callback that [run] hands to [enumerateOutputs],
    one per output name, in the order of the [if]/[else if] chain. *)
Definition check_checks (name : string) (vOutput : Value) (pos : Pos) : M unit :=
  forceAttrs vOutput pos ;;;
  for_each (fun attr =>
    checkSystemName (attr_name attr) (attr_pos attr) ;;;
    forceAttrs (attr_value attr) (attr_pos attr) ;;;
    for_each (checks_entry name attr) (attrs_of (attr_value attr)))
    (attrs_of vOutput).

Definition check_packages (name : string) (vOutput : Value) (pos : Pos) : M unit :=
  forceAttrs vOutput pos ;;;
  for_each (fun attr =>
    checkSystemName (attr_name attr) (attr_pos attr) ;;;
    forceAttrs (attr_value attr) (attr_pos attr) ;;;
    for_each (fun attr2 =>
      let* _ := checkDerivation (fmt3 name (attr_name attr) (attr_name attr2))
                  (attr_value attr2) (attr_pos attr2) in
      ret tt) (attrs_of (attr_value attr)))
    (attrs_of vOutput).

Definition check_apps (name : string) (vOutput : Value) (pos : Pos) : M unit :=
  forceAttrs vOutput pos ;;;
  for_each (fun attr =>
    checkSystemName (attr_name attr) (attr_pos attr) ;;;
    forceAttrs (attr_value attr) (attr_pos attr) ;;;
    for_each (fun attr2 =>
      checkApp (fmt3 name (attr_name attr) (attr_name attr2))
        (attr_value attr2) (attr_pos attr2)) (attrs_of (attr_value attr)))
    (attrs_of vOutput).

Definition check_defaultPackage (name : string) (vOutput : Value) (pos : Pos) : M unit :=
  forceAttrs vOutput pos ;;;
  for_each (fun attr =>
    checkSystemName (attr_name attr) (attr_pos attr) ;;;
    let* _ := checkDerivation (fmt2 name (attr_name attr))
                (attr_value attr) (attr_pos attr) in
    ret tt)
    (attrs_of vOutput).

Definition check_defaultApp (name : string) (vOutput : Value) (pos : Pos) : M unit :=
  forceAttrs vOutput pos ;;;
  for_each (fun attr =>
    checkSystemName (attr_name attr) (attr_pos attr) ;;;
    checkApp (fmt2 name (attr_name attr)) (attr_value attr) (attr_pos attr))
    (attrs_of vOutput).

Definition check_legacyPackages (name : string) (vOutput : Value) (pos : Pos) : M unit :=
  forceAttrs vOutput pos ;;;
  for_each (fun attr => checkSystemName (attr_name attr) (attr_pos attr))
    (attrs_of vOutput).

(** [overlays], [nixosModules], [nixosConfigurations]: one check per attribute. *)
Definition check_each (check : string -> Value -> Pos -> M unit)
    (name : string) (vOutput : Value) (pos : Pos) : M unit :=
  forceAttrs vOutput pos ;;;
  for_each (fun attr =>
    check (fmt2 name (attr_name attr)) (attr_value attr) (attr_pos attr))
    (attrs_of vOutput).

(** The callback of [run]: the lambda passed to [enumerateOutputs]. *)
Definition checkFlakeOutput (name : string) (vOutput : Value) (pos : Pos) : M unit :=
  emit (StartActivity ("checking flake output '" +:+ name +:+ "'")) ;;;
  try_addPrefix
    ("while checking flake output '" +:+ ANSI_BOLD +:+ name +:+ ANSI_NORMAL +:+ "':"
     +:+ nl)
    (forceValue vOutput pos ;;;
     if String.eqb name "checks" then check_checks name vOutput pos
     else if String.eqb name "packages" then check_packages name vOutput pos
     else if String.eqb name "apps" then check_apps name vOutput pos
     else if String.eqb name "defaultPackage" || String.eqb name "devShell"
       then check_defaultPackage name vOutput pos
     else if String.eqb name "defaultApp" then check_defaultApp name vOutput pos
     else if String.eqb name "legacyPackages" then check_legacyPackages name vOutput pos
     else if String.eqb name "overlay" then checkOverlay name vOutput pos
     else if String.eqb name "overlays" then check_each checkOverlay name vOutput pos
     else if String.eqb name "nixosModule" then checkModule name vOutput pos
     else if String.eqb name "nixosModules" then check_each checkModule name vOutput pos
     else if String.eqb name "nixosConfigurations"
       then check_each checkNixOSConfiguration name vOutput pos
     else if String.eqb name "hydraJobs" then checkHydraJobs name vOutput pos
     else emit (Warn ("unknown flake output '" +:+ name +:+ "'"))).

(* ===================================================================== *)
(** * [enumerateOutputs] and [CmdFlakeCheck::run] *)
(* ===================================================================== *)

(** [state.forceAttrs(v)], the overload without a position. *)
Definition forceAttrs0 (v : Value) : M unit :=
  match v with
  | VThunkFails e => call (Throw e)
  | VAttrs _ => ret tt
  | _ => throw ("value is " +:+ showType v +:+ " while a set was expected")
  end.

(** [attrs->get(name)] *)
Definition Bindings_get (name : string) (attrs : list Attr) : option Attr :=
  List.find (fun a => String.eqb (attr_name a) name) attrs.

Definition enumerateOutputs (vFlake : Value)
    (callback : string -> Value -> Pos -> M unit) : M unit :=
  forceAttrs0 vFlake ;;;
  match Bindings_get "outputs" (attrs_of vFlake) with
  | None => call Crash                               (* assert(aOutputs) *)
  | Some aOutputs =>
      forceAttrs0 (attr_value aOutputs) ;;;
      for_each (fun attr => callback (attr_name attr) (attr_value attr) (attr_pos attr))
        (attrs_of (attr_value aOutputs))
  end.

(** [v.empty()] *)
Definition vector_empty {A} (v : list A) : bool :=
  match v with
  | [] => true
  | _ :: _ => false
  end.

(** The declaration [std::vector<StorePathWithOutputs> drvPaths;] *)
Definition drvPaths_declare : M unit :=
  fun s => (mkCheckState (readOnlyMode s) [] (trace s), Ok tt).

(** [CmdFlakeCheck::run], given the value [vFlake] that [lockFlake] and
    [callFlake] produce. *)
Definition run (build : bool) (vFlake : Value) : M unit :=
  set_readOnlyMode (negb build) ;;;
  drvPaths_declare ;;;
  emit (StartActivity "evaluating flake") ;;;
  enumerateOutputs vFlake checkFlakeOutput ;;;
  let* paths := get_drvPaths in
  if build && negb (vector_empty paths)
  then
    emit (StartActivity "running flake checks") ;;;
    emit (BuildPaths paths) ;;;
    call (buildPaths paths)
  else ret tt.

End Checker.

(* ===================================================================== *)
(** * The lock graph *)
(* ===================================================================== *)

(** A [std::shared_ptr<Node>] is the identity of the node it points to: two
    parents that share a child hold the same identity. *)
Definition NodeId : Type := nat.

Definition FlakeId : Type := string.

(** A flake reference, identified with its printed form. *)
Definition FlakeRef : Type := string.

(** What [LockedNode] adds to [Node]. *)
Record LockedNode := mkLockedNode { lockedRef : FlakeRef; originalRef : FlakeRef }.

(** Modelled from the spec: the declaration of [Node::inputs] is in
    [flake/lockfile.hh], which is not part of the sources at hand; the
    specification describes it as a mapping from input name to a shared child
    reference that keeps insertion order. [inputs] lists the entries in the
    order in which [for (auto & input : node.inputs)] meets them. [locked] is
    [Some] exactly when the object is a [LockedNode], which is what
    [std::dynamic_pointer_cast<const LockedNode>] tests. *)
Record Node := mkNode {
  inputs : list (FlakeId * NodeId);
  locked : option LockedNode
}.

(** The objects of the lock file, by identity. Cycles can be written down. *)
Abbreviation LockGraph := (gmap NodeId Node).

(** [std::dynamic_pointer_cast<const LockedNode>(p)]: [None] is the null
    pointer. *)
Definition as_LockedNode (g : LockGraph) (p : NodeId) : option LockedNode :=
  g !! p ≫= locked.

(** [u] has an input that points to [v]. *)
Definition edge (g : LockGraph) (u v : NodeId) : Prop :=
  ∃ n name, g !! u = Some n ∧ (name, v) ∈ inputs n.

(** No node that [root] reaches lies on a cycle. *)
Definition acyclic_from (g : LockGraph) (root : NodeId) : Prop :=
  ∀ u, rtc (edge g) root u → ¬ tc (edge g) u u.

(** [root] reaches a node that lies on a cycle. *)
Definition reaches_cycle (g : LockGraph) (root : NodeId) : Prop :=
  ∃ u, rtc (edge g) root u ∧ tc (edge g) u u.

(** Every input of every node points to a [LockedNode] of the graph, as in a
    lock file, where only the root is a plain [Node]. *)
Definition inputs_locked (g : LockGraph) : Prop :=
  ∀ u v, edge g u v → is_Some (as_LockedNode g v).

(** What the walkers use of the fetchers ([fetchers.hh], [lockfile.hh]). *)
Class Fetchers := {
  (** [lockedRef.input->fetchTree(store)] *)
  fetchTree : FlakeRef -> Result unit;
  (** [lockedInput->computeStorePath(store)] *)
  computeStorePath : LockedNode -> StorePath
}.

(* ===================================================================== *)
(** * [CmdFlakeListInputs::run]: the tree printer *)
(* ===================================================================== *)

(** One [logger->stdout("%s" ANSI_BOLD "%s" ANSI_NORMAL ": %s", ...)]: its
    three arguments. *)
Record Line := mkLine { line_prefix : string; line_name : FlakeId; line_ref : FlakeRef }.

Section Walkers.
Context `{Store} `{Settings} `{Fetchers}.

Definition render (l : Line) : string :=
  line_prefix l +:+ ANSI_BOLD +:+ line_name l +:+ ANSI_NORMAL +:+ ": " +:+ line_ref l.

(** The loop of the lambda [recurse] over [enumerate(node.inputs)]; [rec] is
    the recursive call, [size] is [node.inputs.size()], [out] the lines
    printed so far. A null [LockedNode] pointer is dereferenced without a
    test. *)
Definition recurse_inputs (g : LockGraph)
    (rec : NodeId -> string -> list Line -> option (list Line * Result unit))
    (prefix : string) (size : nat)
  : nat -> list (FlakeId * NodeId) -> list Line -> option (list Line * Result unit) :=
  fix loop (i : nat) (l : list (FlakeId * NodeId)) (out : list Line) :=
    match l with
    | [] => Some (out, Ok tt)
    | input :: l' =>
        let last := Nat.eqb (i + 1) size in
        match as_LockedNode g input.2 with
        | None => Some (out, Crash)
        | Some lockedInput =>
            let out1 :=
              out ++ [mkLine (prefix +:+ (if last then treeLast else treeConn))
                        input.1 (lockedRef lockedInput)] in
            match rec input.2 (prefix +:+ (if last then treeNull else treeLine)) out1 with
            | None => None
            | Some (out2, Ok _) => loop (S i) l' out2
            | Some (out2, r) => Some (out2, r)
            end
        end
    end.

(** The lambda [recurse]. [fuel] bounds the depth of the recursion; [None]
    means that the bound was reached. *)
Fixpoint recurse (fuel : nat) (g : LockGraph) (node : NodeId) (prefix : string)
    (out : list Line) : option (list Line * Result unit) :=
  match fuel with
  | 0 => None
  | S fuel' =>
      match g !! node with
      | None => Some (out, Crash)
      | Some n =>
          recurse_inputs g (recurse fuel' g) prefix (length (inputs n)) 0 (inputs n) out
      end
  end.

(* ===================================================================== *)
(** * [CmdFlakeArchive::run]: fetch, collect and serialise *)
(* ===================================================================== *)

(** The document a [JSONObject] writes. *)
Inductive JSON : Type :=
| JString (s : string)
| JObject (members : list Member)
with Member : Type :=
| mkMember (key : string) (val : JSON).

Inductive ArchiveEvent : Type :=
| FetchTree (r : FlakeRef)               (* lockedRef.input->fetchTree(store) *)
| CopyPaths (dst : string) (srcs : gset StorePath). (* copyPaths(store, dstStore, sources) *)

(** Modelled from the spec: the declaration of [StorePathSet] is in
    [path.hh], which is not part of the sources at hand; the specification
    describes the result of the traversal as a deduplicating set keyed by
    store path, which is what [sources.insert] is given here. [effects] lists
    the calls to the fetcher and to [copyPaths], in order. *)
Record ArchiveState := mkArchiveState {
  sources : gset StorePath;
  effects : list ArchiveEvent
}.

(** The loop of the lambda [traverse] over [node.inputs]. [jsonObj2] tells
    whether the optional [JSONObject] is present; [acc] holds the members
    written to it so far. *)
Definition traverse_inputs (dryRun : bool) (g : LockGraph)
    (rec : NodeId -> bool -> ArchiveState ->
           option (ArchiveState * Result (list Member)))
    (jsonObj2 : bool)
  : list (FlakeId * NodeId) -> list Member -> ArchiveState ->
    option (ArchiveState * Result (list Member)) :=
  fix loop (l : list (FlakeId * NodeId)) (acc : list Member) (st : ArchiveState) :=
    match l with
    | [] => Some (st, Ok acc)
    | input :: l' =>
        match as_LockedNode g input.2 with
        | None => Some (st, Crash)                       (* assert(lockedInput) *)
        | Some lockedInput =>
            let fetched :=
              if dryRun then (st, Ok tt)
              else (mkArchiveState (sources st)
                      (effects st ++ [FetchTree (lockedRef lockedInput)]),
                    fetchTree (lockedRef lockedInput)) in
            match fetched with
            | (st1, Throw e) => Some (st1, Throw e)
            | (st1, Crash) => Some (st1, Crash)
            | (st1, Ok _) =>
                let storePath := computeStorePath lockedInput in
                let st2 := mkArchiveState ({[storePath]} ∪ sources st1) (effects st1) in
                match rec input.2 jsonObj2 st2 with
                | None => None
                | Some (st3, Ok members) =>
                    let jsonObj3 :=
                      JObject (mkMember "path" (JString (printStorePath storePath)) :: members) in
                    loop l' (if jsonObj2 then acc ++ [mkMember input.1 jsonObj3] else acc) st3
                | Some (st3, r) => Some (st3, r)
                end
            end
        end
    end.

(** The lambda [traverse]; the result holds the members it adds to
    [jsonObj], none when [jsonObj] is absent. *)
Fixpoint traverse (fuel : nat) (dryRun : bool) (g : LockGraph) (node : NodeId)
    (jsonObj : bool) (st : ArchiveState)
  : option (ArchiveState * Result (list Member)) :=
  match fuel with
  | 0 => None
  | S fuel' =>
      match g !! node with
      | None => Some (st, Crash)
      | Some n =>
          match traverse_inputs dryRun g (traverse fuel' dryRun g) jsonObj (inputs n) [] st with
          | None => None
          | Some (st', Ok members) =>
              Some (st', Ok (if jsonObj then [mkMember "inputs" (JObject members)] else []))
          | Some (st', r) => Some (st', r)
          end
      end
  end.

(** [CmdFlakeArchive::run], given the store path of the flake's own source
    and the lock graph that [lockFlake] produces. The result is the JSON
    document written to [std::cout], if any. *)
Definition archive_run (fuel : nat) (json dryRun : bool) (dstUri : string)
    (flakeStorePath : StorePath) (g : LockGraph) (root : NodeId)
  : option (ArchiveState * Result (option JSON)) :=
  let st0 := mkArchiveState {[flakeStorePath]} [] in
  match traverse fuel dryRun g root json st0 with
  | None => None
  | Some (st, Ok members) =>
      let doc :=
        if json
        then Some (JObject (mkMember "path" (JString (printStorePath flakeStorePath)) :: members))
        else None in
      if negb dryRun && negb (String.eqb dstUri EmptyString)
      then Some (mkArchiveState (sources st) (effects st ++ [CopyPaths dstUri (sources st)]),
                 Ok doc)
      else Some (st, Ok doc)
  | Some (st, Throw e) => Some (st, Throw e)
  | Some (st, Crash) => Some (st, Crash)
  end.

(** [CmdFlakeListInputs::run] without [--json]: the lines after the first. *)
Definition list_inputs_run (fuel : nat) (g : LockGraph) (root : NodeId)
  : option (list Line * Result unit) :=
  recurse fuel g root EmptyString [].

End Walkers.

(* ===================================================================== *)
(** * The order of visit, read off the two outputs *)
(* ===================================================================== *)

(** The input names of the printed tree, top to bottom. *)
Definition printed_names (out : list Line) : list FlakeId := map line_name out.

(** The input names of an archive document, in document order: the keys of
    every ["inputs"] object, each followed by the names below it. *)
Fixpoint document_names (j : JSON) : list FlakeId :=
  match j with
  | JString _ => []
  | JObject ms =>
      flat_map (fun m =>
        match m with
        | mkMember k v =>
            if String.eqb k "inputs"
            then
              match v with
              | JObject kids =>
                  flat_map (fun kid =>
                    match kid with
                    | mkMember name node => name :: document_names node
                    end) kids
              | JString _ => []
              end
            else []
        end) ms
  end.

(** The loop of [inputs_preorder] over the inputs of a node; [rec] lists
    the names below a child. *)
Definition preorder_inputs (rec : NodeId -> option (list FlakeId))
  : list (FlakeId * NodeId) -> option (list FlakeId) :=
  fix loop (l : list (FlakeId * NodeId)) : option (list FlakeId) :=
    match l with
    | [] => Some []
    | input :: l' =>
        match rec input.2, loop l' with
        | Some below, Some rest => Some (input.1 :: below ++ rest)
        | _, _ => None
        end
    end.

(** The input names of the lock graph in depth-first order, the inputs of
    each node in the order of its [inputs]. *)
Fixpoint inputs_preorder (fuel : nat) (g : LockGraph) (node : NodeId)
  : option (list FlakeId) :=
  match fuel with
  | 0 => None
  | S fuel' =>
      match g !! node with
      | None => None
      | Some n => preorder_inputs (inputs_preorder fuel' g) (inputs n)
      end
  end.

(** The input names in a list of members of an ["inputs"] object. *)
Definition members_names (kids : list Member) : list FlakeId :=
  flat_map (fun kid =>
    match kid with
    | mkMember name node => name :: document_names node
    end) kids.

(** A chain of edges that starts at [u]; [l] lists the nodes it leaves, in
    order. *)
Inductive walk (g : LockGraph) : NodeId -> list NodeId -> Prop :=
| walk_nil u : walk g u []
| walk_cons u v l : edge g u v -> walk g v l -> walk g u (u :: l).

(** A fetch never fails: nothing is fetched, or the fetcher always succeeds. *)
Definition fetches_succeed `{Fetchers} (dryRun : bool) : Prop :=
  dryRun = true ∨ ∀ r, fetchTree r = Ok tt.

(* ===================================================================== *)
(** * Sample collaborators *)
(* ===================================================================== *)

(** Concrete collaborators on which the model runs: an evaluator that
    recognises derivations by [type = "derivation"], a store that accepts the
    paths below [/nix/store/], and the settings of an [x86_64-linux] host. *)
Module Sample.

Definition string_of_attr (name : string) (attrs : list Attr) : option string :=
  match List.find (fun a => String.eqb (attr_name a) name) attrs with
  | Some (mkAttr _ (VString s _) _) => Some s
  | _ => None
  end.

Definition sample_isDerivation (v : Value) : Result bool :=
  match v with
  | VAttrs attrs =>
      match List.find (fun a => String.eqb (attr_name a) "type") attrs with
      | Some (mkAttr _ (VThunkFails e) _) => Throw e
      | Some (mkAttr _ (VString s _) _) => Ok (String.eqb s "derivation")
      | _ => Ok false
      end
  | _ => Ok false
  end.

Definition sample_getDerivation (v : Value) : Result (option DrvInfo) :=
  match v with
  | VThunkFails e => Throw e
  | VAttrs attrs =>
      match sample_isDerivation v with
      | Ok true =>
          Ok (Some (mkDrvInfo (default EmptyString (string_of_attr "drvPath" attrs))))
      | Ok false => Ok None
      | Throw e => Throw e
      | Crash => Crash
      end
  | _ => Ok None
  end.

Definition sample_App_of (v : Value) : Result App :=
  match v with
  | VThunkFails e => Throw e
  | VAttrs attrs =>
      match List.find (fun a => String.eqb (attr_name a) "program") attrs with
      | Some (mkAttr _ (VString s ctx) _) => Ok (mkApp ctx s)
      | _ => Throw (mkError EmptyString "app lacks a program")
      end
  | _ => Throw (mkError EmptyString "app is not an attribute set")
  end.

(** [!out!/nix/store/...drv] names an output of a derivation. *)
Definition sample_decodeContext (s : string) : string * string :=
  match s with
  | String "!" rest =>
      match index 0 "!" rest with
      | Some i => (substring (S i) (String.length rest - S i) rest, substring 0 i rest)
      | None => (s, EmptyString)
      end
  | _ => (s, EmptyString)
  end.

Fixpoint ends_with_drv (s : string) : bool :=
  match s with
  | EmptyString => false
  | String _ s' => String.eqb s ".drv" || ends_with_drv s'
  end.

#[export] Instance sample_eval : EvalState := {|
  showPos p := file p;
  showType v := match v with VAttrs _ => "a set" | VLambda _ _ _ _ => "a function"
                             | VString _ _ => "a string" | VInt _ => "an integer"
                             | _ => "a value" end;
  isDerivation := sample_isDerivation;
  getDerivation := sample_getDerivation;
  App_of := sample_App_of;
  decodeContext := sample_decodeContext;
  findAlongAttrPath _ v := Ok v
|}.

#[export] Instance sample_store : Store := {|
  parseStorePath s :=
    if String.prefix "/nix/store/" s then Ok s
    else Throw (mkError EmptyString ("path '" +:+ s +:+ "' is not in the Nix store"));
  printStorePath p := p;
  StorePath_isDerivation := ends_with_drv;
  buildPaths _ := Ok tt
|}.

#[export] Instance sample_settings : Settings := {|
  thisSystem := "x86_64-linux";
  ANSI_BOLD := String "027" "[1m";
  ANSI_NORMAL := String "027" "[0m";
  treeConn := "+---";
  treeLast := "`---";
  treeLine := "|   ";
  treeNull := "    "
|}.

#[export] Instance sample_fetchers : Fetchers := {|
  fetchTree _ := Ok tt;
  computeStorePath n := "/nix/store/" +:+ lockedRef n
|}.

Definition here : Pos := mkPos "flake.nix" 1 1.

(** A derivation value with the given [drvPath]. *)
Definition drv (p : string) : Value :=
  VAttrs [mkAttr "type" (VString "derivation" []) here;
          mkAttr "drvPath" (VString p []) here].

Definition hello : Value := drv "/nix/store/hello.drv".

Definition s0 : CheckState := mkCheckState false [] [].

(** [{ outputs = { overlay = 0; packages = { }; }; }], the outputs met in
    this order. *)
Definition flake_bad_overlay : Value :=
  VAttrs [mkAttr "outputs"
            (VAttrs [mkAttr "overlay" (VInt 0) here;
                     mkAttr "packages" (VAttrs []) here]) here].

(** [{ outputs = { nixosModule = 0; overlay = 0; }; }], two outputs that both
    fail their check, met in the order given by [overlay_first]. *)
Definition flake_two_bad (overlay_first : bool) : Value :=
  VAttrs [mkAttr "outputs"
            (VAttrs (if overlay_first
                     then [mkAttr "overlay" (VInt 0) here; mkAttr "nixosModule" (VInt 0) here]
                     else [mkAttr "nixosModule" (VInt 0) here; mkAttr "overlay" (VInt 0) here]))
            here].

(** [{ outputs = { checks.x86_64-linux.hello = hello; }; }] *)
Definition flake_one_check : Value :=
  VAttrs [mkAttr "outputs"
            (VAttrs [mkAttr "checks"
                       (VAttrs [mkAttr "x86_64-linux"
                                  (VAttrs [mkAttr "hello" hello here]) here]) here]) here].

(** [checks = { x86_64-linux.hello = hello; aarch64-linux.hello = hello; }] *)
Definition two_systems : list Attr :=
  [mkAttr "x86_64-linux" (VAttrs [mkAttr "hello" hello here]) here;
   mkAttr "aarch64-linux" (VAttrs [mkAttr "hello" hello here]) here].

(** The root with the inputs [a] and [b], in this order. *)
Definition three_nodes : LockGraph :=
  {[ 0 := mkNode [("a", 1); ("b", 2)] None;
     1 := mkNode [] (Some (mkLockedNode "x" "x"));
     2 := mkNode [] (Some (mkLockedNode "y" "y")) ]}.

(** A diamond: the inputs [a] and [b] of the root both have the input [c],
    the same node. *)
Definition diamond : LockGraph :=
  {[ 0 := mkNode [("a", 1); ("b", 2)] None;
     1 := mkNode [("c", 3)] (Some (mkLockedNode "x" "x"));
     2 := mkNode [("c", 3)] (Some (mkLockedNode "y" "y"));
     3 := mkNode [] (Some (mkLockedNode "z" "z")) ]}.

(** The input [a] of the root has itself as its input [self]. *)
Definition looping : LockGraph :=
  {[ 0 := mkNode [("a", 1)] None;
     1 := mkNode [("self", 1)] (Some (mkLockedNode "x" "x")) ]}.

End Sample.

(* ===================================================================== *)
(** * Vocabulary of the statements *)
(* ===================================================================== *)

(** The output names whose first-level keys are systems. *)
Definition system_keyed : list string :=
  ["packages"; "apps"; "checks"; "defaultPackage"; "devShell"; "defaultApp";
   "legacyPackages"].

(** The output names whose branch of the callback appends to [drvPaths]. *)
Definition collecting : list string := ["checks"; "apps"; "defaultApp"].

(** Every run of [m] relates the state before to the state after, whether it
    returns or throws. *)
Definition preserves (R : relation CheckState) {A} (m : M A) : Prop :=
  ∀ s s' r, m s = (s', r) → R s s'.

(** The artifacts collected so far are left alone. *)
Definition same_drvPaths : relation CheckState :=
  fun s s' => drvPaths s' = drvPaths s.

(** Events of the logger. *)
Definition is_log (ev : Event) : Prop :=
  match ev with
  | StartActivity _ | Warn _ => True
  | SetReadOnlyMode _ | BuildPaths _ => False
  end.

(** The settings are left alone and nothing but log events are added. *)
Definition logs_only : relation CheckState :=
  fun s s' =>
    readOnlyMode s' = readOnlyMode s ∧
    ∃ evs, trace s' = trace s ++ evs ∧ Forall is_log evs.

(** The state after [emit ev]. *)
Definition logged (ev : Event) (s : CheckState) : CheckState :=
  mkCheckState (readOnlyMode s) (drvPaths s) (trace s ++ [ev]).

(** The state after [drvPaths.emplace_back(p)]. *)
Definition collected (ps : list StorePath) (s : CheckState) : CheckState :=
  mkCheckState (readOnlyMode s) (drvPaths s ++ map (fun p => mkSPWO p []) ps) (trace s).

Section Vocabulary.
Context `{EvalState} `{Store} `{Settings}.

(** The store path that [checkDerivation] returns for a derivation-shaped
    value: [getDerivation] finds a derivation and its [drvPath] parses. *)
Definition drvPath_of (v : Value) : option StorePath :=
  match getDerivation v with
  | Ok (Some d) =>
      match parseStorePath (queryDrvPath d) with
      | Ok p => Some p
      | _ => None
      end
  | _ => None
  end.

(** A [checks] output all of whose keys are systems and all of whose
    second-level values are derivation-shaped. *)
Definition derivations_by_system (attrs : list Attr) : Prop :=
  Forall (fun attr =>
    contains_char "-" (attr_name attr) ∧
    ∃ attrs2, attr_value attr = VAttrs attrs2 ∧
              Forall (fun attr2 => is_Some (drvPath_of (attr_value attr2))) attrs2) attrs.

(** The derivations of a [checks] output that sit under the current system,
    one entry for each [checks.<thisSystem>.<name>], in order. *)
Definition this_system_checks (attrs : list Attr) : list StorePath :=
  flat_map (fun attr =>
    if String.eqb (attr_name attr) thisSystem
    then omap (fun attr2 => drvPath_of (attr_value attr2)) (attrs_of (attr_value attr))
    else []) attrs.

End Vocabulary.

(** The state in which [run] starts to evaluate the flake: the read-only
    mode is set, [drvPaths] is empty. *)
Definition evaluating (build : bool) (s : CheckState) : CheckState :=
  logged (StartActivity "evaluating flake")
    (mkCheckState (negb build) [] (trace s ++ [SetReadOnlyMode (negb build)])).

(** The [buildPaths] calls in a trace, with their arguments. *)
Definition build_calls (evs : list Event) : list (list StorePathWithOutputs) :=
  flat_map (fun ev => match ev with BuildPaths ps => [ps] | _ => [] end) evs.


(* ===================================================================== *)
(** * Further vocabulary: the checker *)
(* ===================================================================== *)

(** The output names that the callback of [run] has a branch for. *)
Definition known_outputs : list string :=
  ["checks"; "packages"; "apps"; "defaultPackage"; "devShell"; "defaultApp";
   "legacyPackages"; "overlay"; "overlays"; "nixosModule"; "nixosModules";
   "nixosConfigurations"; "hydraJobs"].

Section Contexts.
Context `{EvalState} `{Settings}.

(** The context that the callback of [run] puts in front of an error. *)
Definition output_context (name : string) : string :=
  "while checking flake output '" +:+ ANSI_BOLD +:+ name +:+ ANSI_NORMAL +:+ "':" +:+ nl.

(** The contexts that the checkers put in front of an error. *)
Definition derivation_context (attrPath : string) (pos : Pos) : string :=
  "while checking the derivation '" +:+ ANSI_BOLD +:+ attrPath +:+ ANSI_NORMAL
  +:+ "' at " +:+ showPos pos +:+ ":" +:+ nl.

Definition overlay_context (attrPath : string) (pos : Pos) : string :=
  "while checking the overlay '" +:+ ANSI_BOLD +:+ attrPath +:+ ANSI_NORMAL
  +:+ "' at " +:+ showPos pos +:+ ":" +:+ nl.

Definition module_context (attrPath : string) (pos : Pos) : string :=
  "while checking the NixOS module '" +:+ ANSI_BOLD +:+ attrPath +:+ ANSI_NORMAL
  +:+ "' at " +:+ showPos pos +:+ ":" +:+ nl.

Definition option_context (name : string) (pos : Pos) : string :=
  "while evaluating the option '" +:+ ANSI_BOLD +:+ name +:+ ANSI_NORMAL
  +:+ "' at " +:+ showPos pos +:+ ":" +:+ nl.

Definition configuration_context (attrPath : string) (pos : Pos) : string :=
  "while checking the NixOS configuration '" +:+ ANSI_BOLD +:+ attrPath +:+ ANSI_NORMAL
  +:+ "' at " +:+ showPos pos +:+ ":" +:+ nl.

Definition jobset_context (attrPath : string) (pos : Pos) : string :=
  "while checking the Hydra jobset '" +:+ ANSI_BOLD +:+ attrPath +:+ ANSI_NORMAL
  +:+ "' at " +:+ showPos pos +:+ ":" +:+ nl.

(** The message of the type error of [forceAttrs]. *)
Definition not_a_set (v : Value) (pos : Pos) : string :=
  "value is " +:+ showType v +:+ " while a set was expected, at " +:+ showPos pos.

End Contexts.

(** A value whose evaluation does not throw. *)
Definition forces (v : Value) : Prop := ∀ e, v ≠ VThunkFails e.

(** The shape [final: prev: ...] that [checkOverlay] asks for. *)
Definition overlay_shaped (v : Value) : Prop :=
  ∃ ellipsis ellipsis' body,
    v = VLambda "final" false ellipsis (ExprLambda "prev" false ellipsis' body).

(** What [checkModule] asks for: a function of an open attribute set
    pattern, or an attribute set all of whose members evaluate. *)
Definition module_shaped (v : Value) : Prop :=
  (∃ arg body, v = VLambda arg true true body)
  ∨ (∃ attrs, v = VAttrs attrs ∧ Forall (fun attr => forces (attr_value attr)) attrs).

Section MoreVocabulary.
Context `{EvalState} `{Store} `{Settings}.

(** The entries of the context of an app that [checkApp] collects: those
    that name an output of a derivation. *)
Definition context_drvPaths (ctx : list string) : list StorePath :=
  omap (fun i =>
    match parseStorePath (decodeContext i).1 with
    | Ok drvPath =>
        if negb (String.eqb (decodeContext i).2 EmptyString) && StorePath_isDerivation drvPath
        then Some drvPath
        else None
    | _ => None
    end) ctx.

(** The store path of every entry of a context parses. *)
Definition context_parses (ctx : list string) : Prop :=
  Forall (fun i => ∃ p, parseStorePath (decodeContext i).1 = Ok p) ctx.

(** Two lists of attributes with the same names at the same positions. *)
Definition same_keys (attrs attrs' : list Attr) : Prop :=
  Forall2 (fun a a' => attr_name a = attr_name a' ∧ attr_pos a = attr_pos a') attrs attrs'.

End MoreVocabulary.

(* ===================================================================== *)
(** * Further vocabulary: the walkers *)
(* ===================================================================== *)

(** The references handed to [fetchTree], in order. *)
Definition fetched (effs : list ArchiveEvent) : list FlakeRef :=
  flat_map (fun ev => match ev with FetchTree r => [r] | CopyPaths _ _ => [] end) effs.

(** The references shown by the printed lines, top to bottom. *)
Definition printed_refs (out : list Line) : list FlakeRef := map line_ref out.

(** A line is indented by [prefix]. *)
Definition indented (prefix : string) (l : Line) : Prop :=
  ∃ rest, line_prefix l = prefix +:+ rest.

(* ===================================================================== *)
(** * [CmdFlakeShow::run]: the lambda [visit] *)
(* ===================================================================== *)

(** The exceptions that the handler of [visit] tells apart: it catches
    [EvalError] and lets every other [Error] through. *)
Inductive Exception : Type :=
| EvalError (e : Error)
| OtherError (e : Error).

Inductive Outcome (A : Type) : Type :=
| Done (a : A)
| Raise (x : Exception).
Arguments Done {A} a.
Arguments Raise {A} x.

(** The collaborator [eval_cache::AttrCursor] ([eval-cache.hh]) is not
    defined in [flake.cc]: a cursor is given here by what each operation
    that [visit] uses returns on it. [getAttrs] pairs every name that
    [visitor.getAttrs()] returns with what [visitor.getAttr(name)] gives for
    it (a cursor, or an exception), in the order of [getAttrs()]; [getName] is
    [visitor.getAttr(state->sName)->getString()]; [maybeGetType] is
    [visitor.maybeGetAttr("type")], with what [getString()] returns on it
    when it is there. *)
#[warnings="-register-all"]
Inductive AttrCursor : Type :=
| mkCursor (getAttrs : Outcome (list (string * Outcome AttrCursor)))
           (cursor_isDerivation : Outcome bool)
           (getName : Outcome string)
           (maybeGetType : Outcome (option (Outcome string))).

(** The other colours of [util.hh] that [visit] uses. *)
Class Colours := {
  ANSI_GREEN : string;
  ANSI_YELLOW : string
}.

(** What [visit] writes: the lines of [logger->stdout] and the activities
    it starts. *)
Record ShowState := mkShowState {
  show_stdout : list string;
  show_activities : list string
}.

Definition show_line (l : string) (st : ShowState) : ShowState :=
  mkShowState (show_stdout st ++ [l]) (show_activities st).

Definition show_activity (a : string) (st : ShowState) : ShowState :=
  mkShowState (show_stdout st) (show_activities st ++ [a]).

(** [concatStringsSep(sep, ss)] *)
Fixpoint concatStringsSep (sep : string) (ss : list string) : string :=
  match ss with
  | [] => EmptyString
  | [s] => s
  | s :: ss' => s +:+ sep +:+ concatStringsSep sep ss'
  end.

(** [attrPath[0] == name], which the source evaluates only after a test on
    [attrPath.size()]. *)
Definition at0 (attrPath : list string) (name : string) : bool :=
  match attrPath with
  | [] => false
  | a :: _ => String.eqb a name
  end.

Section Show.
Context `{Settings} `{Colours}.

(** The word that [showDerivation] puts in front of the name. *)
Definition derivation_kind (attrPath : list string) : string :=
  if Nat.eqb (List.length attrPath) 2 && at0 attrPath "devShell"
  then "development environment"
  else if Nat.eqb (List.length attrPath) 3 && at0 attrPath "checks" then "derivation"
  else if Nat.leb 1 (List.length attrPath) && at0 attrPath "hydraJobs" then "derivation"
  else "package".

(** The lambda [showDerivation] of [visit]. *)
Definition showDerivation (getName : Outcome string) (attrPath : list string)
    (headerPrefix : string) (st : ShowState) : ShowState * Outcome unit :=
  match getName with
  | Raise x => (st, Raise x)
  | Done name =>
      (show_line (headerPrefix +:+ ": " +:+ derivation_kind attrPath +:+ " '" +:+ name +:+ "'")
         st, Done tt)
  end.

(** The header that the lambda [recurse] of [visit] hands to the visit of
    an attribute. *)
Definition child_header (nextPrefix : string) (last : bool) (attr : string) : string :=
  ANSI_GREEN +:+ nextPrefix +:+ (if last then treeLast else treeConn) +:+ ANSI_NORMAL
  +:+ ANSI_BOLD +:+ attr +:+ ANSI_NORMAL.

(** The label of the last branch of [visit]. *)
Definition other_label (attrPath : list string) : string :=
  if Nat.eqb (List.length attrPath) 1 && at0 attrPath "overlay" then "Nixpkgs overlay"
  else if Nat.eqb (List.length attrPath) 2 && at0 attrPath "nixosConfigurations"
    then "NixOS configuration"
  else if Nat.eqb (List.length attrPath) 2 && at0 attrPath "nixosModules" then "NixOS module"
  else ANSI_YELLOW +:+ "unknown" +:+ ANSI_NORMAL.

(** The conditions of the branches of [visit], in the order of the source. *)
Definition recurses (attrPath : list string) : bool :=
  let size := List.length attrPath in
  Nat.eqb size 0
  || (Nat.eqb size 1
      && (at0 attrPath "defaultPackage" || at0 attrPath "devShell"
          || at0 attrPath "nixosConfigurations" || at0 attrPath "nixosModules"
          || at0 attrPath "defaultApp"))
  || ((Nat.eqb size 1 || Nat.eqb size 2)
      && (at0 attrPath "checks" || at0 attrPath "packages" || at0 attrPath "apps")).

Definition expects_derivation (attrPath : list string) : bool :=
  let size := List.length attrPath in
  (Nat.eqb size 2 && (at0 attrPath "defaultPackage" || at0 attrPath "devShell"))
  || (Nat.eqb size 3 && (at0 attrPath "checks" || at0 attrPath "packages")).

Definition below_hydraJobs (attrPath : list string) : bool :=
  Nat.ltb 0 (List.length attrPath) && at0 attrPath "hydraJobs".

Definition below_legacyPackages (attrPath : list string) : bool :=
  Nat.ltb 0 (List.length attrPath) && at0 attrPath "legacyPackages".

Definition expects_app (attrPath : list string) : bool :=
  let size := List.length attrPath in
  (Nat.eqb size 2 && at0 attrPath "defaultApp") || (Nat.eqb size 3 && at0 attrPath "apps").

(** The lambda [visit]. The recursion follows the cursors that [getAttrs]
    holds. *)
Fixpoint visit (showLegacy : bool) (visitor : AttrCursor) (attrPath : list string)
    (headerPrefix nextPrefix : string) (st : ShowState) {struct visitor}
  : ShowState * Outcome unit :=
  match visitor with
  | mkCursor getAttrs isDerivation' getName maybeGetType =>
      let recurse (st1 : ShowState) : ShowState * Outcome unit :=
        match getAttrs with
        | Raise x => (show_line headerPrefix st1, Raise x)
        | Done attrs =>
            (fix loop (i : nat) (l : list (string * Outcome AttrCursor)) (st2 : ShowState)
               : ShowState * Outcome unit :=
               match l with
               | [] => (st2, Done tt)
               | (attr, Raise x) :: _ => (st2, Raise x)
               | (attr, Done visitor2) :: l' =>
                   let last := Nat.eqb (i + 1) (List.length attrs) in
                   match visit showLegacy visitor2 (attrPath ++ [attr])
                           (child_header nextPrefix last attr)
                           (nextPrefix +:+ (if last then treeNull else treeLine)) st2 with
                   | (st3, Done _) => loop (S i) l' st3
                   | (st3, Raise x) => (st3, Raise x)
                   end
               end) 0 attrs (show_line headerPrefix st1)
        end in
      let st0 :=
        show_activity ("evaluating '" +:+ concatStringsSep "." attrPath +:+ "'") st in
      let tried : ShowState * Outcome unit :=
        if recurses attrPath then recurse st0
        else if expects_derivation attrPath then
          match isDerivation' with
          | Raise x => (st0, Raise x)
          | Done true => showDerivation getName attrPath headerPrefix st0
          | Done false => (st0, Raise (OtherError (mkError EmptyString "expected a derivation")))
          end
        else if below_hydraJobs attrPath then
          match isDerivation' with
          | Raise x => (st0, Raise x)
          | Done true => showDerivation getName attrPath headerPrefix st0
          | Done false => recurse st0
          end
        else if below_legacyPackages attrPath then
          if Nat.eqb (List.length attrPath) 1 then recurse st0
          else if negb showLegacy then
            (show_line (headerPrefix +:+ ": " +:+ ANSI_YELLOW +:+ "omitted" +:+ ANSI_NORMAL
                        +:+ " (use '--legacy' to show)") st0, Done tt)
          else
            match isDerivation' with
            | Raise x => (st0, Raise x)
            | Done true => showDerivation getName attrPath headerPrefix st0
            | Done false =>
                if Nat.leb (List.length attrPath) 2 then recurse st0 else (st0, Done tt)
            end
        else if expects_app attrPath then
          match maybeGetType with
          | Raise x => (st0, Raise x)
          | Done None =>
              (st0, Raise (EvalError (mkError EmptyString "not an app definition")))
          | Done (Some (Raise x)) => (st0, Raise x)
          | Done (Some (Done type)) =>
              if negb (String.eqb type "app")
              then (st0, Raise (EvalError (mkError EmptyString "not an app definition")))
              else (show_line (headerPrefix +:+ ": app") st0, Done tt)
          end
        else (show_line (headerPrefix +:+ ": " +:+ other_label attrPath) st0, Done tt) in
      match tried with
      | (st', Raise (EvalError e)) =>
          if negb (below_legacyPackages attrPath)
          then (st', Raise (EvalError e))
          else (st', Done tt)
      | (st', r) => (st', r)
      end
  end.

(** [CmdFlakeShow::run], given the root cursor of the evaluation cache and
    the locked reference of the flake. *)
Definition show_run (showLegacy : bool) (root : AttrCursor) (lockedRef' : FlakeRef)
  : ShowState * Outcome unit :=
  visit showLegacy root [] (ANSI_BOLD +:+ lockedRef' +:+ ANSI_NORMAL) EmptyString
    (mkShowState [] []).

End Show.

(** The output names at which [visit] goes below the top level or looks at
    the cursor. *)
Definition shown_outputs : list string :=
  ["defaultPackage"; "devShell"; "nixosConfigurations"; "nixosModules"; "defaultApp";
   "checks"; "packages"; "apps"; "hydraJobs"; "legacyPackages"].

(** One string starts with another. *)
Definition starts_with (prefix : string) (l : string) : Prop :=
  ∃ rest, l = prefix +:+ rest.

(** The cursors one step below a cursor. *)
Definition children_of (c : AttrCursor) : list AttrCursor :=
  match c with
  | mkCursor (Done l) _ _ _ =>
      omap (λ entry, match snd entry with Done c' => Some c' | Raise _ => None end) l
  | mkCursor (Raise _) _ _ _ => []
  end.

(** A cursor on which every operation fails with [x]. *)
Definition failing (x : Exception) : AttrCursor :=
  mkCursor (Raise x) (Raise x) (Raise x) (Raise x).

Section ShowUnfolded.
Context `{Settings} `{Colours}.

(** The paths at which [visit] calls an operation of the cursor: the
    branches of [visit] in the order of the source, the last one and the
    omitted contents of [legacyPackages] left out. *)
Definition looks_at (showLegacy : bool) (attrPath : list string) : bool :=
  if recurses attrPath then true
  else if expects_derivation attrPath then true
  else if below_hydraJobs attrPath then true
  else if below_legacyPackages attrPath
    then Nat.eqb (List.length attrPath) 1 || showLegacy
  else expects_app attrPath.

(** The loop of [recurse] and the body of [visit] over a given visit of the
    attributes: [visit] is the fixed point of [visit_body]. *)
Definition visit_attrs
    (visit' : AttrCursor → list string → string → string → ShowState → ShowState * Outcome unit)
    (attrPath : list string) (nextPrefix : string) (size : nat)
  : nat → list (string * Outcome AttrCursor) → ShowState → ShowState * Outcome unit :=
  fix loop (i : nat) (l : list (string * Outcome AttrCursor)) (st2 : ShowState) :=
    match l with
    | [] => (st2, Done tt)
    | (attr, Raise x) :: _ => (st2, Raise x)
    | (attr, Done visitor2) :: l' =>
        let last := Nat.eqb (i + 1) size in
        match visit' visitor2 (attrPath ++ [attr]) (child_header nextPrefix last attr)
                (nextPrefix +:+ (if last then treeNull else treeLine)) st2 with
        | (st3, Done _) => loop (S i) l' st3
        | (st3, Raise x) => (st3, Raise x)
        end
    end.

Definition visit_recurse
    (visit' : AttrCursor → list string → string → string → ShowState → ShowState * Outcome unit)
    (getAttrs : Outcome (list (string * Outcome AttrCursor)))
    (attrPath : list string) (headerPrefix nextPrefix : string) (st1 : ShowState)
  : ShowState * Outcome unit :=
  match getAttrs with
  | Raise x => (show_line headerPrefix st1, Raise x)
  | Done attrs =>
      visit_attrs visit' attrPath nextPrefix (List.length attrs) 0 attrs
        (show_line headerPrefix st1)
  end.

Definition visit_tried
    (visit' : AttrCursor → list string → string → string → ShowState → ShowState * Outcome unit)
    (showLegacy : bool) (visitor : AttrCursor) (attrPath : list string)
    (headerPrefix nextPrefix : string) (st0 : ShowState) : ShowState * Outcome unit :=
  match visitor with
  | mkCursor getAttrs isDerivation' getName maybeGetType =>
      let recurse := visit_recurse visit' getAttrs attrPath headerPrefix nextPrefix in
      if recurses attrPath then recurse st0
      else if expects_derivation attrPath then
        match isDerivation' with
        | Raise x => (st0, Raise x)
        | Done true => showDerivation getName attrPath headerPrefix st0
        | Done false => (st0, Raise (OtherError (mkError EmptyString "expected a derivation")))
        end
      else if below_hydraJobs attrPath then
        match isDerivation' with
        | Raise x => (st0, Raise x)
        | Done true => showDerivation getName attrPath headerPrefix st0
        | Done false => recurse st0
        end
      else if below_legacyPackages attrPath then
        if Nat.eqb (List.length attrPath) 1 then recurse st0
        else if negb showLegacy then
          (show_line (headerPrefix +:+ ": " +:+ ANSI_YELLOW +:+ "omitted" +:+ ANSI_NORMAL
                      +:+ " (use '--legacy' to show)") st0, Done tt)
        else
          match isDerivation' with
          | Raise x => (st0, Raise x)
          | Done true => showDerivation getName attrPath headerPrefix st0
          | Done false =>
              if Nat.leb (List.length attrPath) 2 then recurse st0 else (st0, Done tt)
          end
      else if expects_app attrPath then
        match maybeGetType with
        | Raise x => (st0, Raise x)
        | Done None =>
            (st0, Raise (EvalError (mkError EmptyString "not an app definition")))
        | Done (Some (Raise x)) => (st0, Raise x)
        | Done (Some (Done type)) =>
            if negb (String.eqb type "app")
            then (st0, Raise (EvalError (mkError EmptyString "not an app definition")))
            else (show_line (headerPrefix +:+ ": app") st0, Done tt)
        end
      else (show_line (headerPrefix +:+ ": " +:+ other_label attrPath) st0, Done tt)
  end.

(** The handler of [visit]. *)
Definition visit_catch (attrPath : list string) (tried : ShowState * Outcome unit)
  : ShowState * Outcome unit :=
  match tried with
  | (st', Raise (EvalError e)) =>
      if negb (below_legacyPackages attrPath)
      then (st', Raise (EvalError e))
      else (st', Done tt)
  | (st', r) => (st', r)
  end.

Definition visit_body
    (visit' : AttrCursor → list string → string → string → ShowState → ShowState * Outcome unit)
    (showLegacy : bool) (visitor : AttrCursor) (attrPath : list string)
    (headerPrefix nextPrefix : string) (st : ShowState) : ShowState * Outcome unit :=
  visit_catch attrPath
    (visit_tried visit' showLegacy visitor attrPath headerPrefix nextPrefix
       (show_activity ("evaluating '" +:+ concatStringsSep "." attrPath +:+ "'") st)).

End ShowUnfolded.

(** [st'] extends [st] by lines that start with [headerPrefix] or with the
    green [nextPrefix], at most [k] more lines than activities. *)
Definition show_grows `{Colours} (k : nat) (headerPrefix nextPrefix : string)
    (st st' : ShowState) : Prop :=
  ∃ new acts,
    show_stdout st' = show_stdout st ++ new
    ∧ show_activities st' = show_activities st ++ acts
    ∧ Forall (λ l, starts_with headerPrefix l ∨ starts_with (ANSI_GREEN +:+ nextPrefix) l) new
    ∧ (List.length new ≤ k + List.length acts)%nat.

(* ===================================================================== *)
(** * Further vocabulary: the callback of [run] *)
(* ===================================================================== *)

(** The activity that the callback starts for an output. *)
Definition output_activity (name : string) : Event :=
  StartActivity ("checking flake output '" +:+ name +:+ "'").

(** A string begins with the given characters. *)
Fixpoint begins_with (start s : string) : bool :=
  match start with
  | EmptyString => true
  | String a start' =>
      match s with
      | EmptyString => false
      | String b s' => Ascii.eqb a b && begins_with start' s'
      end
  end.

(** An event is the activity that the callback starts for some output. *)
Definition is_output_activity (ev : Event) : bool :=
  match ev with
  | StartActivity a => begins_with "checking flake output '" a
  | _ => false
  end.

(** What a part of the check may add to the trace: events of the logger
    other than the activity of an output. *)
Definition inner_event (ev : Event) : Prop :=
  is_log ev ∧ is_output_activity ev = false.

(** The trace grows by events that satisfy [P]. *)
Definition emits_only (P : Event → Prop) : relation CheckState :=
  fun s s' => ∃ evs, trace s' = trace s ++ evs ∧ Forall P evs.

(** [drvPaths] grows by store paths that satisfy [Q], each with no outputs
    named. *)
Definition collects_only (Q : StorePath → Prop) : relation CheckState :=
  fun s s' =>
    ∃ ps, drvPaths s' = drvPaths s ++ map (fun p => mkSPWO p []) ps ∧ Forall Q ps.

Section Callback.
Context `{EvalState} `{Store} `{Settings}.

(** The statements inside the [try] block of the callback, in the order of
    the [if]/[else if] chain; [checkFlakeOutput] is this block under the
    activity and the handler of the callback. *)
Definition checkFlakeOutput_try (name : string) (vOutput : Value) (pos : Pos) : M unit :=
  forceValue vOutput pos ;;;
  if String.eqb name "checks" then check_checks name vOutput pos
  else if String.eqb name "packages" then check_packages name vOutput pos
  else if String.eqb name "apps" then check_apps name vOutput pos
  else if String.eqb name "defaultPackage" || String.eqb name "devShell"
    then check_defaultPackage name vOutput pos
  else if String.eqb name "defaultApp" then check_defaultApp name vOutput pos
  else if String.eqb name "legacyPackages" then check_legacyPackages name vOutput pos
  else if String.eqb name "overlay" then checkOverlay name vOutput pos
  else if String.eqb name "overlays" then check_each checkOverlay name vOutput pos
  else if String.eqb name "nixosModule" then checkModule name vOutput pos
  else if String.eqb name "nixosModules" then check_each checkModule name vOutput pos
  else if String.eqb name "nixosConfigurations"
    then check_each checkNixOSConfiguration name vOutput pos
  else if String.eqb name "hydraJobs" then checkHydraJobs name vOutput pos
  else emit (Warn ("unknown flake output '" +:+ name +:+ "'")).

(** The attributes of [outputs] of a flake value, as [enumerateOutputs]
    goes through them. *)
Definition flake_outputs (vFlake : Value) : list Attr :=
  match Bindings_get "outputs" (attrs_of vFlake) with
  | Some aOutputs => attrs_of (attr_value aOutputs)
  | None => []
  end.

(** A store path that an app definition refers to: an entry of the context
    of its program that names an output of a derivation. *)
Definition app_reference (v : Value) (p : StorePath) : Prop :=
  ∃ app i, App_of v = Ok app ∧ i ∈ context app
           ∧ parseStorePath (decodeContext i).1 = Ok p
           ∧ (decodeContext i).2 ≠ EmptyString
           ∧ StorePath_isDerivation p = true.

(** The store path of a derivation [checks.<thisSystem>.<name>]. *)
Definition from_checks (v : Value) (p : StorePath) : Prop :=
  ∃ attr attr2, attr ∈ attrs_of v ∧ attr_name attr = thisSystem
                ∧ attr2 ∈ attrs_of (attr_value attr)
                ∧ drvPath_of (attr_value attr2) = Some p.

(** A reference of an app definition [apps.<system>.<name>]. *)
Definition from_apps (v : Value) (p : StorePath) : Prop :=
  ∃ attr attr2, attr ∈ attrs_of v ∧ attr2 ∈ attrs_of (attr_value attr)
                ∧ app_reference (attr_value attr2) p.

(** A reference of an app definition [defaultApp.<system>]. *)
Definition from_defaultApp (v : Value) (p : StorePath) : Prop :=
  ∃ attr, attr ∈ attrs_of v ∧ app_reference (attr_value attr) p.

(** What the check of the output [name] with the value [v] may collect. *)
Definition collectable (name : string) (v : Value) (p : StorePath) : Prop :=
  (name = "checks" ∧ from_checks v p)
  ∨ (name = "apps" ∧ from_apps v p)
  ∨ (name = "defaultApp" ∧ from_defaultApp v p).

(** An app definition that [checkApp] passes: [App] accepts it and every
    entry of its context parses as a store path. *)
Definition app_shaped (v : Value) : Prop :=
  ∃ app, App_of v = Ok app ∧ context_parses (context app).

(** What the branch of a system-keyed output asks of the value under a
    key, once the key has passed [checkSystemName]. *)
Definition well_formed_for (name : string) (v : Value) : Prop :=
  if String.eqb name "checks" || String.eqb name "packages" then
    ∃ attrs2, v = VAttrs attrs2
              ∧ Forall (fun attr2 => is_Some (drvPath_of (attr_value attr2))) attrs2
  else if String.eqb name "apps" then
    ∃ attrs2, v = VAttrs attrs2 ∧ Forall (fun attr2 => app_shaped (attr_value attr2)) attrs2
  else if String.eqb name "defaultPackage" || String.eqb name "devShell" then
    is_Some (drvPath_of v)
  else if String.eqb name "defaultApp" then app_shaped v
  else True.

(** The error of [checkSystemName]. *)
Definition not_a_system (system : string) (pos : Pos) : Error :=
  mkError EmptyString
    ("'" +:+ system +:+ "' is not a valid system type, at " +:+ showPos pos).

End Callback.

(* ===================================================================== *)
(** * Further sample data *)
(* ===================================================================== *)

Module SampleMore.
Import Sample.

#[export] Instance sample_colours : Colours := {|
  ANSI_GREEN := String "027" "[32;1m";
  ANSI_YELLOW := String "027" "[33;1m"
|}.

(** The cursor of a derivation with the given name. *)
Definition drv_cursor (name : string) : AttrCursor :=
  mkCursor (Done []) (Done true) (Done name) (Done None).

(** The cursor of an attribute set with the given attributes that is not a
    derivation. *)
Definition set_cursor (attrs : list (string * AttrCursor)) : AttrCursor :=
  mkCursor (Done (map (λ entry, (entry.1, Done entry.2)) attrs)) (Done false)
    (Raise (EvalError (mkError EmptyString "attribute 'name' missing")))
    (Done None).

(** [{ packages.x86_64-linux.hello = <derivation hello-2.10>; }] *)
Definition packages_cursor : AttrCursor :=
  set_cursor [("packages",
               set_cursor [("x86_64-linux",
                            set_cursor [("hello", drv_cursor "hello-2.10")])])].

(** An app definition [{ type = "app"; program = "/nix/store/hello/bin/hello"; }]
    whose program depends on the output [out] of [hello.drv] and on a plain
    store path. *)
Definition hello_app : Value :=
  VAttrs [mkAttr "type" (VString "app" []) here;
          mkAttr "program"
            (VString "/nix/store/hello/bin/hello"
               ["!out!/nix/store/hello.drv"; "/nix/store/source"]) here].

(** The input [a] of the root points to a node that is not locked. *)
Definition unlocked_input : LockGraph :=
  {[ 0 := mkNode [("a", 1)] None;
     1 := mkNode [] None ]}.

End SampleMore.
(* ===================================================================== *)
(** * The monad of the checker *)
(* ===================================================================== *)

Lemma Value_attrs_ind (P : Value → Prop) :
  (∀ e, P (VThunkFails e)) →
  (∀ n, P (VInt n)) →
  (∀ s c, P (VString s c)) →
  (∀ attrs, Forall (fun a => P (attr_value a)) attrs → P (VAttrs attrs)) →
  (∀ a m e b, P (VLambda a m e b)) →
  P VOther →
  ∀ v, P v.
Proof.
  intros Hf Hi Hs Ha Hl Ho.
  fix IH 1. intros [e|n|s c|attrs|a m e b|].
  - apply Hf.
  - apply Hi.
  - apply Hs.
  - apply Ha. induction attrs as [|[n v p] attrs IHl]; constructor.
    + simpl. apply IH.
    + exact IHl.
  - apply Hl.
  - exact Ho.
Qed.

Lemma for_each_app {A} (f : A → M unit) (l1 l2 : list A) (s : CheckState) :
  for_each f (l1 ++ l2) s = (for_each f l1 ;;; for_each f l2) s.
Proof.
  revert s. induction l1 as [|a l1 IH]; intros s; simpl; [reflexivity|].
  unfold bind in *. destruct (f a s) as [s1 [[]|e|]]; try reflexivity.
  apply IH.
Qed.

Lemma for_each_ext {A} (f g : A → M unit) (l : list A) (s : CheckState) :
  (∀ a s', f a s' = g a s') → for_each f l s = for_each g l s.
Proof.
  intros Hfg. revert s. induction l as [|a l IH]; intros s; simpl; [reflexivity|].
  unfold bind. rewrite Hfg. destruct (g a s) as [s1 [[]|e|]]; auto.
Qed.

Lemma for_each_throw_at {A} (f : A → M unit) pre x post s s1 s2 (r : Result unit) :
  for_each f pre s = (s1, Ok tt) →
  f x s1 = (s2, r) → r ≠ Ok tt →
  for_each f (pre ++ x :: post) s = (s2, r).
Proof.
  intros Hpre Hx Hr. rewrite for_each_app. unfold bind. rewrite Hpre. simpl.
  unfold bind. rewrite Hx. destruct r as [[]|e|]; congruence.
Qed.

Lemma for_each_ok {A} (f : A → M unit) (l : list A) (s : CheckState) :
  Forall (fun a => ∀ s', f a s' = (s', Ok tt)) l →
  for_each f l s = (s, Ok tt).
Proof.
  induction 1 as [|a l Ha _ IH]; simpl; [reflexivity|].
  unfold bind. rewrite Ha. exact IH.
Qed.

Section Preserves.
Context (R : relation CheckState) `{!PreOrder R}.

Lemma preserves_ret {A} (a : A) : preserves R (ret a).
Proof. intros s s' r [= <- _]. reflexivity. Qed.

Lemma preserves_throw {A} msg : preserves R (throw (A:=A) msg).
Proof. intros s s' r [= <- _]. reflexivity. Qed.

Lemma preserves_call {A} (x : Result A) : preserves R (call x).
Proof. intros s s' r [= <- _]. reflexivity. Qed.

Lemma preserves_bind {A B} (m : M A) (k : A → M B) :
  preserves R m → (∀ a, preserves R (k a)) → preserves R (bind m k).
Proof.
  intros Hm Hk s s' r. unfold bind.
  destruct (m s) as [s1 [a|e|]] eqn:E; intros Hr.
  - transitivity s1; [eapply Hm, E | eapply Hk, Hr].
  - injection Hr as <- _. eapply Hm, E.
  - injection Hr as <- _. eapply Hm, E.
Qed.

Lemma preserves_try {A} fs (m : M A) : preserves R m → preserves R (try_addPrefix fs m).
Proof.
  intros Hm s s' r. unfold try_addPrefix.
  destruct (m s) as [s1 [a|e|]] eqn:E; intros [= <- _]; eapply Hm, E.
Qed.

Lemma preserves_for_each {A} (f : A → M unit) (l : list A) :
  Forall (fun a => preserves R (f a)) l → preserves R (for_each f l).
Proof.
  induction 1 as [|a l Ha _ IH]; simpl.
  - apply preserves_ret.
  - apply preserves_bind; auto.
Qed.

Lemma preserves_for_each_all {A} (f : A → M unit) (l : list A) :
  (∀ a, preserves R (f a)) → preserves R (for_each f l).
Proof. intros Hf. apply preserves_for_each, Forall_forall. auto. Qed.

End Preserves.

Create HintDb preserves.

#[local] Hint Resolve preserves_ret preserves_throw preserves_call : preserves.
#[local] Hint Extern 1 (is_log _) => exact I : preserves.

#[local] Instance same_drvPaths_preorder : PreOrder same_drvPaths.
Proof.
  split; unfold same_drvPaths; [intros s; reflexivity|].
  intros s1 s2 s3 H12 H23. congruence.
Qed.

#[local] Instance logs_only_preorder : PreOrder logs_only.
Proof.
  split.
  - intros s. split; [reflexivity|]. exists []. rewrite app_nil_r. auto.
  - intros s1 s2 s3 [Hr1 (e1 & Ht1 & Hl1)] [Hr2 (e2 & Ht2 & Hl2)].
    split; [congruence|]. exists (e1 ++ e2).
    rewrite Ht2, Ht1, app_assoc. split; [reflexivity|]. apply Forall_app; auto.
Qed.

(** Breaks a goal [preserves R m] down along the structure of [m]; the
    checkers already dealt with are in the hint database. *)
Ltac preserve :=
  repeat first
    [ match goal with |- ∀ _, _ => intro end
    | assumption
    | solve [auto 2 with preserves nocore]
    | match goal with
      | |- preserves ?R (try_addPrefix _ _) => apply (preserves_try R)
      | |- preserves ?R (bind _ _) => apply (preserves_bind R)
      | |- preserves ?R (for_each _ _) => apply (preserves_for_each_all R)
      | |- preserves _ (match ?x with _ => _ end) => destruct x
      end ].

(* ===================================================================== *)
(** * What the checkers leave alone *)
(* ===================================================================== *)

Section CheckerInvariants.
Context `{EvalState} `{Store} `{Settings}.
Context (R : relation CheckState) `{!PreOrder R}.
Hypothesis R_emit : ∀ ev s, is_log ev → R s (logged ev s).

Lemma preserves_emit ev : is_log ev → preserves R (emit ev).
Proof. intros Hev s s' r [= <- _]. apply R_emit, Hev. Qed.
Hint Resolve preserves_emit : preserves.

Lemma preserves_forceValue v pos : preserves R (forceValue v pos).
Proof. unfold forceValue. preserve. Qed.
Hint Resolve preserves_forceValue : preserves.

Lemma preserves_forceAttrs v pos : preserves R (forceAttrs v pos).
Proof. unfold forceAttrs. preserve. Qed.
Hint Resolve preserves_forceAttrs : preserves.

Lemma preserves_forceAttrs0 v : preserves R (forceAttrs0 v).
Proof. unfold forceAttrs0. preserve. Qed.
Hint Resolve preserves_forceAttrs0 : preserves.

Lemma preserves_checkSystemName system pos : preserves R (checkSystemName system pos).
Proof. unfold checkSystemName. preserve. Qed.
Hint Resolve preserves_checkSystemName : preserves.

Lemma preserves_checkDerivation attrPath v pos : preserves R (checkDerivation attrPath v pos).
Proof. unfold checkDerivation. preserve. Qed.
Hint Resolve preserves_checkDerivation : preserves.

Lemma preserves_checkOverlay attrPath v pos : preserves R (checkOverlay attrPath v pos).
Proof. unfold checkOverlay. preserve. Qed.

Lemma preserves_checkModule attrPath v pos : preserves R (checkModule attrPath v pos).
Proof. unfold checkModule. preserve. Qed.

Lemma preserves_checkNixOSConfiguration attrPath v pos :
  preserves R (checkNixOSConfiguration attrPath v pos).
Proof. unfold checkNixOSConfiguration. preserve. Qed.

Lemma preserves_checkHydraJobs v : ∀ attrPath pos, preserves R (checkHydraJobs attrPath v pos).
Proof.
  induction v as [e|n|s c|attrs IH|a m e b|] using Value_attrs_ind;
    intros attrPath pos; simpl; apply (preserves_try R);
    (apply (preserves_bind R); [preserve|]); intros _;
    (apply (preserves_bind R); [preserve|]); intros [|]; try solve [preserve].
  apply (preserves_for_each R). eapply Forall_impl; [exact IH|].
  intros [name value pos'] IHv. simpl in IHv. preserve.
Qed.

Lemma preserves_check_packages name v pos : preserves R (check_packages name v pos).
Proof. unfold check_packages. preserve. Qed.

Lemma preserves_check_defaultPackage name v pos :
  preserves R (check_defaultPackage name v pos).
Proof. unfold check_defaultPackage. preserve. Qed.

Lemma preserves_check_legacyPackages name v pos :
  preserves R (check_legacyPackages name v pos).
Proof. unfold check_legacyPackages. preserve. Qed.

Lemma preserves_check_each check name v pos :
  (∀ attrPath v' pos', preserves R (check attrPath v' pos')) →
  preserves R (check_each check name v pos).
Proof. intros Hc. unfold check_each. preserve. Qed.

(** The three branches that collect need [R] to admit [emplace_back]. *)
Section Collecting.
Hypothesis R_collect : ∀ p s, R s (collected [p] s).

Lemma preserves_emplace_back p : preserves R (drvPaths_emplace_back p).
Proof. intros s s' r [= <- _]. apply (R_collect p s). Qed.
Hint Resolve preserves_emplace_back : preserves.

Lemma preserves_checkApp attrPath v pos : preserves R (checkApp attrPath v pos).
Proof. unfold checkApp. preserve. Qed.
Hint Resolve preserves_checkApp : preserves.

Lemma preserves_checks_entry name attr attr2 : preserves R (checks_entry name attr attr2).
Proof. unfold checks_entry. preserve. Qed.
Hint Resolve preserves_checks_entry : preserves.

Lemma preserves_check_checks name v pos : preserves R (check_checks name v pos).
Proof. unfold check_checks. preserve. Qed.

Lemma preserves_check_apps name v pos : preserves R (check_apps name v pos).
Proof. unfold check_apps. preserve. Qed.

Lemma preserves_check_defaultApp name v pos : preserves R (check_defaultApp name v pos).
Proof. unfold check_defaultApp. preserve. Qed.

End Collecting.

(** The callback as a whole: [emplace_back] is needed for the collecting
    names only. *)
Lemma preserves_checkFlakeOutput name v pos :
  (name ∈ collecting → ∀ p s, R s (collected [p] s)) →
  preserves R (checkFlakeOutput name v pos).
Proof.
  intros Hc. unfold checkFlakeOutput.
  apply (preserves_bind R); [apply preserves_emit; exact I|]. intros _.
  apply (preserves_try R). apply (preserves_bind R); [apply preserves_forceValue|]. intros _.
  destruct (String.eqb_spec name "checks") as [->|_].
  { apply preserves_check_checks, Hc. unfold collecting. repeat constructor. }
  destruct (String.eqb_spec name "packages") as [->|_].
  { apply preserves_check_packages. }
  destruct (String.eqb_spec name "apps") as [->|_].
  { apply preserves_check_apps, Hc. unfold collecting. repeat constructor. }
  destruct (String.eqb name "defaultPackage" || String.eqb name "devShell").
  { apply preserves_check_defaultPackage. }
  destruct (String.eqb_spec name "defaultApp") as [->|_].
  { apply preserves_check_defaultApp, Hc. unfold collecting. repeat constructor. }
  destruct (String.eqb name "legacyPackages").
  { apply preserves_check_legacyPackages. }
  destruct (String.eqb name "overlay").
  { apply preserves_checkOverlay. }
  destruct (String.eqb name "overlays").
  { apply preserves_check_each, preserves_checkOverlay. }
  destruct (String.eqb name "nixosModule").
  { apply preserves_checkModule. }
  destruct (String.eqb name "nixosModules").
  { apply preserves_check_each, preserves_checkModule. }
  destruct (String.eqb name "nixosConfigurations").
  { apply preserves_check_each, preserves_checkNixOSConfiguration. }
  destruct (String.eqb name "hydraJobs").
  { apply preserves_checkHydraJobs. }
  apply preserves_emit. exact I.
Qed.

Lemma preserves_enumerateOutputs vFlake :
  (∀ p s, R s (collected [p] s)) →
  preserves R (enumerateOutputs vFlake checkFlakeOutput).
Proof.
  intros Hc. unfold enumerateOutputs. preserve.
  apply preserves_checkFlakeOutput. auto.
Qed.

End CheckerInvariants.

(* ===================================================================== *)
(** * Claims about the checker *)
(* ===================================================================== *)

Section CheckerClaims.
Context `{EvalState} `{Store} `{Settings}.

Lemma string_find_is_Some c s : is_Some (string_find c s) ↔ contains_char c s.
Proof.
  induction s as [|a s IH]; simpl.
  - split; [intros [i Hi]; discriminate|tauto].
  - destruct (Ascii.eqb_spec a c) as [->|Hne].
    + split; [auto|]. intros _. exists 0. reflexivity.
    + rewrite <- IH. destruct (string_find c s); simpl.
      * split; [intros _; right; eauto|intros _; eauto].
      * split; [intros [i Hi]; discriminate|].
        intros [Heq|[i Hi]]; [congruence|discriminate].
Qed.

Lemma string_find_None c s : string_find c s = None ↔ ¬ contains_char c s.
Proof.
  rewrite <- string_find_is_Some. destruct (string_find c s).
  - split; [discriminate|]. intros Hn. exfalso. apply Hn. eauto.
  - split; [|reflexivity]. intros _ [i Hi]. discriminate.
Qed.

Lemma append_empty_r (s : string) : s +:+ EmptyString = s.
Proof.
  induction s as [|a s IH]; [reflexivity|].
  change (String a (s +:+ EmptyString) = String a s). f_equal. exact IH.
Qed.

Lemma addPrefix_plain fs msg : addPrefix fs (mkError EmptyString msg) = mkError fs msg.
Proof. unfold addPrefix. simpl. rewrite append_empty_r. reflexivity. Qed.

(** C4. [checkOverlay] on a function: a pattern-matching argument or an
    argument not named [final] fails with the message about [final]; an
    argument [final] with a body that is not a plain function of [prev]
    fails with the message about [prev]; the shape [final: prev: ...]
    passes. The check never changes the state, so the overlay outputs add
    nothing to [drvPaths]. *)
Theorem checkOverlay_shape (attrPath : string) (pos : Pos) (s : CheckState) :
  let ctx := "while checking the overlay '" +:+ ANSI_BOLD +:+ attrPath +:+ ANSI_NORMAL
             +:+ "' at " +:+ showPos pos +:+ ":" +:+ nl in
  (∀ arg matchAttrs ellipsis body,
     matchAttrs = true ∨ arg ≠ "final" →
     checkOverlay attrPath (VLambda arg matchAttrs ellipsis body) pos s
     = (s, Throw (addPrefix ctx
                    (mkError EmptyString "overlay does not take an argument named 'final'"))))
  ∧ (∀ ellipsis body,
       (∀ e b, body ≠ ExprLambda "prev" false e b) →
       checkOverlay attrPath (VLambda "final" false ellipsis body) pos s
       = (s, Throw (addPrefix ctx
                      (mkError EmptyString "overlay does not take an argument named 'prev'"))))
  ∧ (∀ e1 e2 b,
       checkOverlay attrPath (VLambda "final" false e1 (ExprLambda "prev" false e2 b)) pos s
       = (s, Ok tt))
  ∧ (∀ e1 e2 b,
       checkFlakeOutput "overlay"
         (VLambda "final" false e1 (ExprLambda "prev" false e2 b)) pos s
       = (logged (StartActivity "checking flake output 'overlay'") s, Ok tt))
  ∧ (∀ v s' r, checkOverlay attrPath v pos s = (s', r) → s' = s).
Proof.
  intros ctx. split; [|split; [|split; [|split]]].
  - intros arg matchAttrs ellipsis body Hbad.
    unfold checkOverlay, try_addPrefix, bind, forceValue, ret, throw. simpl.
    destruct matchAttrs; simpl; [reflexivity|].
    destruct Hbad as [Hm|Harg]; [discriminate|].
    apply String.eqb_neq in Harg. rewrite Harg. reflexivity.
  - intros ellipsis body Hbody.
    unfold checkOverlay, try_addPrefix, bind, forceValue, ret, throw. simpl.
    destruct body as [arg' matchAttrs' ellipsis' body'|]; [|reflexivity].
    destruct matchAttrs'; simpl; [reflexivity|].
    destruct (String.eqb_spec arg' "prev") as [->|Hne]; [|reflexivity].
    exfalso. eapply Hbody. reflexivity.
  - reflexivity.
  - reflexivity.
  - intros v s' r Hrun.
    exact (eq_sym (preserves_checkOverlay eq attrPath v pos s s' r Hrun)).
Qed.

(** Unfolds one run of the checker's monad. *)
Ltac run_check :=
  unfold try_addPrefix, bind, forceAttrs, forceValue, call, ret, throw, emit,
    drvPaths_emplace_back in *; simpl in *.

Lemma checkHydraJobs_stateless attrPath v pos s s' r :
  checkHydraJobs attrPath v pos s = (s', r) → s' = s.
Proof. intros Hrun. exact (eq_sym (preserves_checkHydraJobs eq v attrPath pos s s' r Hrun)). Qed.

(** The loop of [checkHydraJobs] runs [checkHydraJobs_attr] on each attribute. *)
Lemma checkHydraJobs_attrs attrPath attrs pos s :
  isDerivation (VAttrs attrs) = Ok false →
  checkHydraJobs attrPath (VAttrs attrs) pos s
  = try_addPrefix
      ("while checking the Hydra jobset '" +:+ ANSI_BOLD +:+ attrPath +:+ ANSI_NORMAL
       +:+ "' at " +:+ showPos pos +:+ ":" +:+ nl)
      (for_each (checkHydraJobs_attr attrPath) attrs) s.
Proof.
  intros Hnd. simpl. unfold try_addPrefix, bind at 1 2, forceAttrs, bind at 1, forceValue,
    ret, call. simpl. rewrite Hnd.
  erewrite for_each_ext; [reflexivity|]. intros [name value pos'] s'. reflexivity.
Qed.

(** C5. [checkHydraJobs]: a derivation at the top level is the fatal error
    "jobset should not be a derivation at top-level"; the same derivation one
    level down, under a job name, passes; an attribute set that is not a
    derivation is checked in turn as a jobset, under the longer attribute
    path; and no run of the check changes the state, so [hydraJobs] adds
    nothing to [drvPaths]. *)
Theorem checkHydraJobs_shape (attrPath : string) (pos : Pos) (s : CheckState) :
  let ctx := "while checking the Hydra jobset '" +:+ ANSI_BOLD +:+ attrPath +:+ ANSI_NORMAL
             +:+ "' at " +:+ showPos pos +:+ ":" +:+ nl in
  (∀ attrs,
     isDerivation (VAttrs attrs) = Ok true →
     checkHydraJobs attrPath (VAttrs attrs) pos s
     = (s, Throw (addPrefix ctx
                    (mkError EmptyString "jobset should not be a derivation at top-level"))))
  ∧ (∀ job attrs pos',
       isDerivation (VAttrs [mkAttr job (VAttrs attrs) pos']) = Ok false →
       isDerivation (VAttrs attrs) = Ok true →
       checkHydraJobs attrPath (VAttrs [mkAttr job (VAttrs attrs) pos']) pos s = (s, Ok tt)
       ∧ checkFlakeOutput "hydraJobs" (VAttrs [mkAttr job (VAttrs attrs) pos']) pos s
         = (logged (StartActivity "checking flake output 'hydraJobs'") s, Ok tt))
  ∧ (∀ attrs,
       isDerivation (VAttrs attrs) = Ok false →
       checkHydraJobs attrPath (VAttrs attrs) pos s
       = try_addPrefix ctx (for_each (checkHydraJobs_attr attrPath) attrs) s)
  ∧ (∀ name attrs pos' s1,
       isDerivation (VAttrs attrs) = Ok false →
       checkHydraJobs_attr attrPath (mkAttr name (VAttrs attrs) pos') s1
       = checkHydraJobs (attrPath +:+ "." +:+ name) (VAttrs attrs) pos' s1)
  ∧ (∀ v s' r, checkHydraJobs attrPath v pos s = (s', r) → s' = s).
Proof.
  intros ctx. split; [|split; [|split; [|split]]].
  - intros attrs Hdrv. simpl. run_check. rewrite Hdrv. reflexivity.
  - intros job attrs pos' Hset Hdrv.
    assert (∀ path s1,
              checkHydraJobs path (VAttrs [mkAttr job (VAttrs attrs) pos']) pos s1
              = (s1, Ok tt)) as Hpass.
    { intros path s1. rewrite checkHydraJobs_attrs by exact Hset.
      unfold checkHydraJobs_attr. run_check. rewrite Hdrv. reflexivity. }
    split; [apply Hpass|].
    change (checkFlakeOutput "hydraJobs" (VAttrs [mkAttr job (VAttrs attrs) pos']) pos s)
      with (try_addPrefix
              ("while checking flake output '" +:+ ANSI_BOLD +:+ "hydraJobs" +:+ ANSI_NORMAL
               +:+ "':" +:+ nl)
              (fun s1 => checkHydraJobs "hydraJobs"
                           (VAttrs [mkAttr job (VAttrs attrs) pos']) pos s1)
              (logged (StartActivity "checking flake output 'hydraJobs'") s)).
    unfold try_addPrefix. rewrite Hpass. reflexivity.
  - intros attrs Hset. apply checkHydraJobs_attrs, Hset.
  - intros name attrs pos' s1 Hset. unfold checkHydraJobs_attr. run_check.
    rewrite Hset. reflexivity.
  - intros v s' r. apply checkHydraJobs_stateless.
Qed.

Lemma try_addPrefix_Ok {A} fs (m : M A) s s' a :
  try_addPrefix fs m s = (s', Ok a) ↔ m s = (s', Ok a).
Proof.
  unfold try_addPrefix. destruct (m s) as [s1 [a1|e|]]; split; congruence.
Qed.

Lemma try_addPrefix_Throw {A} fs (m : M A) s s' e :
  m s = (s', Throw e) → try_addPrefix fs m s = (s', Throw (addPrefix fs e)).
Proof. unfold try_addPrefix. intros ->. reflexivity. Qed.

Lemma checkSystemName_spec system pos s :
  (¬ contains_char "-" system →
   checkSystemName system pos s
   = (s, Throw (mkError EmptyString ("'" +:+ system +:+ "' is not a valid system type, at "
                            +:+ showPos pos))))
  ∧ (contains_char "-" system → checkSystemName system pos s = (s, Ok tt)).
Proof.
  unfold checkSystemName. split.
  - intros Hno. apply string_find_None in Hno. rewrite Hno. reflexivity.
  - intros Hyes. apply string_find_is_Some in Hyes as [i Hi]. rewrite Hi. reflexivity.
Qed.

(** Every branch for a system-keyed output is a loop whose body starts with
    [checkSystemName] on the key. *)
Lemma system_keyed_loop name :
  name ∈ system_keyed →
  ∃ rest : Attr → M unit,
    ∀ attrs pos s,
      checkFlakeOutput name (VAttrs attrs) pos s
      = try_addPrefix
          ("while checking flake output '" +:+ ANSI_BOLD +:+ name +:+ ANSI_NORMAL +:+ "':"
           +:+ nl)
          (for_each (fun attr =>
             checkSystemName (attr_name attr) (attr_pos attr) ;;; rest attr) attrs)
          (logged (StartActivity ("checking flake output '" +:+ name +:+ "'")) s).
Proof.
  unfold system_keyed. intros Hin.
  rewrite !elem_of_cons, elem_of_nil in Hin.
  destruct Hin as [->|[->|[->|[->|[->|[->|[->|[]]]]]]]].
  - eexists (fun attr => _). intros attrs pos s. reflexivity.
  - eexists (fun attr => _). intros attrs pos s. reflexivity.
  - eexists (fun attr => _). intros attrs pos s. reflexivity.
  - eexists (fun attr => _). intros attrs pos s. reflexivity.
  - eexists (fun attr => _). intros attrs pos s. reflexivity.
  - eexists (fun attr => _). intros attrs pos s. reflexivity.
  - exists (fun _ => ret tt). intros attrs pos s.
    change (checkFlakeOutput "legacyPackages" (VAttrs attrs) pos s)
      with (try_addPrefix
              ("while checking flake output '" +:+ ANSI_BOLD +:+ "legacyPackages"
               +:+ ANSI_NORMAL +:+ "':" +:+ nl)
              (for_each (fun attr => checkSystemName (attr_name attr) (attr_pos attr)) attrs)
              (logged (StartActivity "checking flake output 'legacyPackages'") s)).
    unfold try_addPrefix. erewrite for_each_ext; [reflexivity|].
    intros a s'. unfold bind, ret. simpl.
    destruct (checkSystemName (attr_name a) (attr_pos a) s') as [s1 [[]|e|]]; reflexivity.
Qed.

Lemma collected_nil s : collected [] s = s.
Proof. destruct s. unfold collected. simpl. rewrite app_nil_r. reflexivity. Qed.

Lemma collected_app ps qs s : collected (ps ++ qs) s = collected qs (collected ps s).
Proof. unfold collected. simpl. rewrite map_app, app_assoc. reflexivity. Qed.

Lemma checkDerivation_Ok attrPath v pos p s :
  drvPath_of v = Some p → checkDerivation attrPath v pos s = (s, Ok p).
Proof.
  unfold drvPath_of, checkDerivation, try_addPrefix, bind, call.
  destruct (getDerivation v) as [[d|]|e|]; try discriminate.
  destruct (parseStorePath (queryDrvPath d)) as [q|e|]; try discriminate.
  intros [= ->]. reflexivity.
Qed.

Lemma checks_entry_spec name attr attr2 p s :
  drvPath_of (attr_value attr2) = Some p →
  checks_entry name attr attr2 s
  = (if String.eqb (attr_name attr) thisSystem then collected [p] s else s, Ok tt).
Proof.
  intros Hdrv. unfold checks_entry, bind.
  rewrite (checkDerivation_Ok _ _ _ p s Hdrv).
  destruct (String.eqb (attr_name attr) thisSystem); reflexivity.
Qed.

Lemma checks_inner_loop name attr attrs2 s :
  Forall (fun attr2 => is_Some (drvPath_of (attr_value attr2))) attrs2 →
  for_each (checks_entry name attr) attrs2 s
  = (collected (if String.eqb (attr_name attr) thisSystem
                then omap (fun attr2 => drvPath_of (attr_value attr2)) attrs2
                else []) s, Ok tt).
Proof.
  intros Hall. revert s. induction Hall as [|attr2 attrs2 [p Hp] _ IH]; intros s.
  - simpl. destruct (String.eqb _ _); rewrite collected_nil; reflexivity.
  - simpl. unfold bind. rewrite (checks_entry_spec _ _ _ p s Hp), IH. rewrite Hp.
    destruct (String.eqb (attr_name attr) thisSystem); [|reflexivity].
    f_equal. symmetry. apply (collected_app [p]).
Qed.

Lemma checks_outer_loop name attrs s :
  derivations_by_system attrs →
  for_each (fun attr =>
    checkSystemName (attr_name attr) (attr_pos attr) ;;;
    forceAttrs (attr_value attr) (attr_pos attr) ;;;
    for_each (checks_entry name attr) (attrs_of (attr_value attr))) attrs s
  = (collected (this_system_checks attrs) s, Ok tt).
Proof.
  intros Hall. revert s.
  induction Hall as [|attr attrs (Hsys & attrs2 & Hval & Hdrvs) _ IH]; intros s.
  - simpl. rewrite collected_nil. reflexivity.
  - simpl. unfold bind at 1 2.
    rewrite (proj2 (checkSystemName_spec (attr_name attr) (attr_pos attr) s) Hsys).
    rewrite Hval. unfold bind at 1. unfold forceAttrs, bind at 1, forceValue, ret.
    simpl. rewrite (checks_inner_loop name attr attrs2 s Hdrvs).
    rewrite IH. rewrite collected_app. reflexivity.
Qed.

(** C1. A derivation-shaped [checks.<sys>.<name>] passes [checkDerivation]
    whatever [<sys>] is; it is appended to [drvPaths], once, when [<sys>] is
    the current system, and [drvPaths] is left as it is otherwise. Over a
    whole [checks] output of derivations under system names, the check
    passes and [drvPaths] grows by the entries of the current system, one
    for one. *)
Theorem checks_collect_this_system (name : string) (s : CheckState) :
  (∀ attr attr2 drvPath,
     drvPath_of (attr_value attr2) = Some drvPath →
     checkDerivation (fmt3 name (attr_name attr) (attr_name attr2))
       (attr_value attr2) (attr_pos attr2) s = (s, Ok drvPath)
     ∧ (attr_name attr = thisSystem →
        checks_entry name attr attr2 s = (collected [drvPath] s, Ok tt))
     ∧ (attr_name attr ≠ thisSystem →
        checks_entry name attr attr2 s = (s, Ok tt)))
  ∧ (∀ attrs pos,
       derivations_by_system attrs →
       checkFlakeOutput "checks" (VAttrs attrs) pos s
       = (collected (this_system_checks attrs)
            (logged (StartActivity "checking flake output 'checks'") s), Ok tt)).
Proof.
  split.
  - intros attr attr2 drvPath Hdrv. split; [|split].
    + apply checkDerivation_Ok, Hdrv.
    + intros Hsys. rewrite (checks_entry_spec _ _ _ drvPath s Hdrv).
      apply String.eqb_eq in Hsys. rewrite Hsys. reflexivity.
    + intros Hsys. rewrite (checks_entry_spec _ _ _ drvPath s Hdrv).
      apply String.eqb_neq in Hsys. rewrite Hsys. reflexivity.
  - intros attrs pos Hall.
    change (checkFlakeOutput "checks" (VAttrs attrs) pos s)
      with (try_addPrefix
              ("while checking flake output '" +:+ ANSI_BOLD +:+ "checks" +:+ ANSI_NORMAL
               +:+ "':" +:+ nl)
              (for_each (fun attr =>
                 checkSystemName (attr_name attr) (attr_pos attr) ;;;
                 forceAttrs (attr_value attr) (attr_pos attr) ;;;
                 for_each (checks_entry "checks" attr) (attrs_of (attr_value attr))) attrs)
              (logged (StartActivity "checking flake output 'checks'") s)).
    apply try_addPrefix_Ok. apply checks_outer_loop, Hall.
Qed.

Lemma same_drvPaths_logged ev s : is_log ev → same_drvPaths s (logged ev s).
Proof. intros _. reflexivity. Qed.

Lemma checkDerivation_inv attrPath v pos s s' r :
  checkDerivation attrPath v pos s = (s', r) →
  s' = s ∧ ∀ p, r = Ok p → drvPath_of v = Some p.
Proof.
  unfold drvPath_of, checkDerivation, try_addPrefix, bind, call, throw.
  destruct (getDerivation v) as [[d|]|e|]; try (intros [= <- <-]; split; [reflexivity|];
    intros p; discriminate).
  destruct (parseStorePath (queryDrvPath d)) as [q|e|]; intros [= <- <-];
    (split; [reflexivity|]); intros p; [congruence|discriminate..].
Qed.

(** What one [checkApp] appends: the context entries that name an output of
    a derivation. *)
Lemma checkApp_loop_inv (ctx : list string) s s' r :
  for_each (fun i =>
    let '(drvPathS, outputName) := decodeContext i in
    let* drvPath := call (parseStorePath drvPathS) in
    if negb (String.eqb outputName EmptyString) && StorePath_isDerivation drvPath
    then drvPaths_emplace_back drvPath
    else ret tt) ctx s = (s', r) →
  ∃ ps, s' = collected ps s ∧
        Forall (fun p => ∃ i, i ∈ ctx ∧ parseStorePath (decodeContext i).1 = Ok p ∧
                              (decodeContext i).2 ≠ EmptyString ∧
                              StorePath_isDerivation p = true) ps.
Proof.
  revert s. induction ctx as [|i ctx IH]; intros s; simpl.
  - intros [= <- _]. exists []. rewrite collected_nil. auto.
  - unfold bind at 1. destruct (decodeContext i) as [drvPathS outputName] eqn:Hdec.
    unfold bind at 1, call.
    destruct (parseStorePath drvPathS) as [p|e|] eqn:Hparse;
      try (intros [= <- _]; exists []; rewrite collected_nil; auto).
    destruct (negb (String.eqb outputName EmptyString) && StorePath_isDerivation p) eqn:Hsel.
    + unfold drvPaths_emplace_back. fold (collected [p] s). intros Hrest.
      apply IH in Hrest as (ps & -> & Hps). exists (p :: ps). split.
      * symmetry. apply (collected_app [p]).
      * apply andb_true_iff in Hsel as [Hout Hdrv]. constructor.
        -- exists i. rewrite Hdec. simpl. repeat split; auto.
           ++ constructor.
           ++ apply String.eqb_neq. apply negb_true_iff, Hout.
        -- eapply Forall_impl; [exact Hps|]. intros q (j & Hj & Hq).
           exists j. split; [constructor; exact Hj|exact Hq].
    + unfold ret. intros Hrest. apply IH in Hrest as (ps & -> & Hps). exists ps.
      split; [reflexivity|].
      eapply Forall_impl; [exact Hps|]. intros q (j & Hj & Hq).
      exists j. split; [constructor; exact Hj|exact Hq].
Qed.

(** [run], once the flake is an attribute set with an [outputs] attribute
    that is an attribute set: the loop over the outputs, from the state
    [evaluating], then the build. *)
Lemma run_unfold build vFlake s :
  run build vFlake s
  = match enumerateOutputs vFlake checkFlakeOutput (evaluating build s) with
    | (s1, Ok _) =>
        if build && negb (vector_empty (drvPaths s1))
        then (logged (BuildPaths (drvPaths s1))
                (logged (StartActivity "running flake checks") s1),
              buildPaths (drvPaths s1))
        else (s1, Ok tt)
    | (s1, Throw e) => (s1, Throw e)
    | (s1, Crash) => (s1, Crash)
    end.
Proof.
  unfold run, bind, set_readOnlyMode, drvPaths_declare, emit, get_drvPaths, call, ret,
    evaluating, logged.
  simpl.
  match goal with
  | |- context [enumerateOutputs ?v ?cb ?s0] =>
      destruct (enumerateOutputs v cb s0) as [s1 [[]|e|]]
  end; try reflexivity.
  destruct (build && negb (vector_empty (drvPaths s1))); reflexivity.
Qed.

Lemma enumerateOutputs_attrs flakeAttrs aOutputs outputs s :
  Bindings_get "outputs" flakeAttrs = Some aOutputs →
  attr_value aOutputs = VAttrs outputs →
  enumerateOutputs (VAttrs flakeAttrs) checkFlakeOutput s
  = for_each (fun attr =>
      checkFlakeOutput (attr_name attr) (attr_value attr) (attr_pos attr)) outputs s.
Proof.
  intros Hget Hval. unfold enumerateOutputs, bind, forceAttrs0, ret. simpl.
  rewrite Hget, Hval. reflexivity.
Qed.

Lemma logs_only_logged ev s : is_log ev → logs_only s (logged ev s).
Proof.
  intros Hev. split; [reflexivity|]. exists [ev]. split; [reflexivity|]. auto.
Qed.

Lemma logs_only_collected p s : logs_only s (collected [p] s).
Proof.
  split; [reflexivity|]. exists []. simpl. rewrite app_nil_r. auto.
Qed.

Lemma build_calls_log evs : Forall is_log evs → build_calls evs = [].
Proof.
  induction 1 as [|ev evs Hev _ IH]; [reflexivity|].
  unfold build_calls in *. simpl. rewrite IH. destruct ev; simpl in *; tauto.
Qed.

Lemma build_calls_app evs1 evs2 :
  build_calls (evs1 ++ evs2) = build_calls evs1 ++ build_calls evs2.
Proof. unfold build_calls. apply flat_map_app. Qed.

(** The evaluation only logs. *)
Lemma evaluation_logs_only build vFlake s s1 r :
  enumerateOutputs vFlake checkFlakeOutput (evaluating build s) = (s1, r) →
  readOnlyMode s1 = negb build ∧
  ∃ evs, trace s1 = trace s ++ SetReadOnlyMode (negb build) :: evs ∧ Forall is_log evs.
Proof.
  intros Hrun.
  destruct (preserves_enumerateOutputs logs_only logs_only_logged vFlake
              logs_only_collected _ _ _ Hrun) as [Hmode (evs & Htrace & Hlog)].
  split; [exact Hmode|].
  exists (StartActivity "evaluating flake" :: evs). split.
  - rewrite Htrace. simpl. rewrite <- !app_assoc. reflexivity.
  - constructor; [exact I|exact Hlog].
Qed.

(** C9. [run] sets [settings.readOnlyMode] to [!build] before anything else
    and leaves it so. Without [build] it never calls [buildPaths], whatever
    was collected. With [build], once the evaluation has passed with a
    non-empty [drvPaths], it calls [buildPaths] once, on [drvPaths], and
    returns what that call returns. *)
Theorem build_flag (vFlake : Value) (s : CheckState) :
  (∀ build s' r,
     run build vFlake s = (s', r) →
     readOnlyMode s' = negb build ∧
     ∃ evs, trace s' = trace s ++ SetReadOnlyMode (negb build) :: evs ∧
            Forall (fun ev => ∀ b, ev ≠ SetReadOnlyMode b) evs ∧
            (build = false → build_calls evs = []))
  ∧ (∀ s1,
       enumerateOutputs vFlake checkFlakeOutput (evaluating true s) = (s1, Ok tt) →
       drvPaths s1 ≠ [] →
       run true vFlake s
       = (logged (BuildPaths (drvPaths s1))
            (logged (StartActivity "running flake checks") s1),
          buildPaths (drvPaths s1))
       ∧ ∃ evs, trace s1 = trace s ++ SetReadOnlyMode false :: evs ∧
                build_calls (evs ++ [StartActivity "running flake checks";
                                     BuildPaths (drvPaths s1)]) = [drvPaths s1]).
Proof.
  split.
  - intros build s' r. rewrite run_unfold.
    destruct (enumerateOutputs vFlake checkFlakeOutput (evaluating build s))
      as [s1 r1] eqn:Heval.
    apply evaluation_logs_only in Heval as [Hmode (evs & Htrace & Hlog)].
    assert (Forall (fun ev => ∀ b, ev ≠ SetReadOnlyMode b) evs) as Hnoset.
    { eapply Forall_impl; [exact Hlog|].
      intros ev Hev b' ->. exact Hev. }
    destruct r1 as [[]|e|].
    2,3: intros [= <- _]; split; [exact Hmode|]; exists evs;
         split; [exact Htrace|]; split; [exact Hnoset|];
         intros _; apply build_calls_log, Hlog.
    destruct build; simpl.
    + destruct (vector_empty (drvPaths s1)); simpl; intros [= <- _].
      * split; [exact Hmode|]. exists evs. split; [exact Htrace|].
        split; [exact Hnoset|]. discriminate.
      * split; [exact Hmode|].
        exists (evs ++ [StartActivity "running flake checks"; BuildPaths (drvPaths s1)]).
        simpl. rewrite Htrace. split; [|split; [|discriminate]].
        -- rewrite <- !app_assoc. reflexivity.
        -- apply Forall_app. split; [exact Hnoset|].
           repeat constructor; intros b; discriminate.
    + intros [= <- _]. split; [exact Hmode|]. exists evs. split; [exact Htrace|].
      split; [exact Hnoset|]. intros _. apply build_calls_log, Hlog.
  - intros s1 Heval Hne. rewrite run_unfold, Heval. split.
    + destruct (drvPaths s1); [contradiction|reflexivity].
    + apply evaluation_logs_only in Heval as [_ (evs & Htrace & Hlog)].
      exists evs. split; [exact Htrace|].
      rewrite build_calls_app, (build_calls_log _ Hlog). reflexivity.
Qed.
End CheckerClaims.

(* ===================================================================== *)
(** * The lock graph: chains of edges *)
(* ===================================================================== *)

Section Chains.
Context (g : LockGraph).

Lemma edge_dom u v : edge g u v → u ∈ dom g.
Proof. intros (n & name & Hu & _). apply elem_of_dom. eauto. Qed.

Lemma walk_reaches u l x : walk g u l → x ∈ l → rtc (edge g) u x.
Proof.
  induction 1 as [u|u v l Huv _ IH]; intros Hx.
  - inversion Hx.
  - apply elem_of_cons in Hx as [->|Hx]; [reflexivity|].
    eapply rtc_l; [exact Huv|auto].
Qed.

Lemma walk_dom u l x : walk g u l → x ∈ l → x ∈ dom g.
Proof.
  induction 1 as [u|u v l Huv _ IH]; intros Hx.
  - inversion Hx.
  - apply elem_of_cons in Hx as [->|Hx]; [eapply edge_dom, Huv|auto].
Qed.

(** On the acyclic part of the graph a chain never leaves a node twice. *)
Lemma walk_NoDup root u l :
  acyclic_from g root → rtc (edge g) root u → walk g u l → NoDup l.
Proof.
  intros Hacyc Hroot Hwalk. induction Hwalk as [u|u v l Huv Hwalk IH].
  - constructor.
  - constructor.
    + intros Hin. apply (Hacyc u Hroot).
      eapply tc_rtc_r; [apply tc_once, Huv|].
      eapply walk_reaches; eauto.
    + apply IH. eapply rtc_r; eauto.
Qed.

(** So its length is at most the number of nodes. *)
Lemma walk_length root u l :
  acyclic_from g root → rtc (edge g) root u → walk g u l → (List.length l ≤ size g)%nat.
Proof.
  intros Hacyc Hroot Hwalk.
  rewrite <- size_dom. unfold size, set_size. simpl.
  apply submseteq_length, NoDup_submseteq.
  - eapply walk_NoDup; eauto.
  - intros x Hx. apply elem_of_elements. eapply walk_dom; eauto.
Qed.

(** A recursion that, when it runs out of fuel at a node, has run out of
    fuel at one of its inputs, runs out of fuel along a chain. *)
Lemma out_of_fuel_walk (P : nat → NodeId → Prop) :
  (∀ f u, P (S f) u → ∃ v, edge g u v ∧ P f v) →
  ∀ f u, P f u → ∃ l, walk g u l ∧ List.length l = f.
Proof.
  intros Hstep f. induction f as [|f IH]; intros u Hu.
  - exists []. split; [constructor|reflexivity].
  - destruct (Hstep f u Hu) as (v & Huv & Hv).
    destruct (IH v Hv) as (l & Hl & Hlen).
    exists (u :: l). split; [econstructor; eauto|simpl; congruence].
Qed.

Lemma out_of_fuel_bound (P : nat → NodeId → Prop) root :
  (∀ f u, P (S f) u → ∃ v, edge g u v ∧ P f v) →
  acyclic_from g root →
  ∀ f, P f root → (f ≤ size g)%nat.
Proof.
  intros Hstep Hacyc f Hf.
  destruct (out_of_fuel_walk P Hstep f root Hf) as (l & Hl & <-).
  eapply walk_length; eauto. reflexivity.
Qed.

Lemma tc_first_edge u w : tc (edge g) u w → ∃ v, edge g u v ∧ rtc (edge g) v w.
Proof.
  intros Htc. inversion Htc as [? ? Hedge|? v ? Hedge Hrest]; subst.
  - exists w. split; [exact Hedge|reflexivity].
  - exists v. split; [exact Hedge|apply tc_rtc, Hrest].
Qed.

(** A node that reaches a cycle has an input that reaches a cycle. *)
Lemma reaches_cycle_step u :
  reaches_cycle g u → ∃ v, edge g u v ∧ reaches_cycle g v.
Proof.
  intros (w & Huw & Hcyc). inversion Huw as [|? v ? Huv Hvw]; subst.
  - inversion Hcyc as [? ? Hedge|? v ? Hedge Htc]; subst.
    + exists w. split; [exact Hedge|]. exists w. split; [reflexivity|exact Hcyc].
    + exists v. split; [exact Hedge|]. exists w. split; [apply tc_rtc, Htc|exact Hcyc].
  - exists v. split; [exact Huv|]. exists w. split; [exact Hvw|exact Hcyc].
Qed.

(** A recursion that returns at a node only if it has returned, with less
    fuel, at each of its inputs, never returns where a cycle is in reach. *)
Lemma never_returns (D : nat → NodeId → Prop) :
  (∀ u, ¬ D 0 u) →
  (∀ f u v, D (S f) u → edge g u v → D f v) →
  ∀ f u, reaches_cycle g u → ¬ D f u.
Proof.
  intros H0 Hstep f. induction f as [|f IH]; intros u Hu; [apply H0|].
  intros HD. destruct (reaches_cycle_step u Hu) as (v & Huv & Hv).
  exact (IH v Hv (Hstep f u v HD Huv)).
Qed.

End Chains.

(* ===================================================================== *)
(** * The tree printer *)
(* ===================================================================== *)

Section PrinterFacts.
Context `{Settings} (g : LockGraph).

(** One turn of the loop of [recurse] that goes on to the next input. *)
Lemma recurse_inputs_cons_Ok rec prefix size i input l out out' :
  recurse_inputs g rec prefix size i (input :: l) out = Some (out', Ok tt) →
  ∃ lockedInput out2,
    as_LockedNode g input.2 = Some lockedInput ∧
    rec input.2 (prefix +:+ (if Nat.eqb (i + 1) size then treeNull else treeLine))
      (out ++ [mkLine (prefix +:+ (if Nat.eqb (i + 1) size then treeLast else treeConn))
                 input.1 (lockedRef lockedInput)])
    = Some (out2, Ok tt) ∧
    recurse_inputs g rec prefix size (S i) l out2 = Some (out', Ok tt).
Proof.
  simpl. destruct (as_LockedNode g input.2) as [lockedInput|]; [|discriminate].
  match goal with |- context [rec ?c ?p ?o] => destruct (rec c p o) as [[out2 [[]|e|]]|] eqn:E end;
    try discriminate.
  intros Hrest. eauto.
Qed.

Lemma recurse_inputs_None rec prefix size i l out :
  recurse_inputs g rec prefix size i l out = None →
  ∃ input p o, input ∈ l ∧ rec input.2 p o = None.
Proof.
  revert i out. induction l as [|input l IH]; intros i out; simpl; [discriminate|].
  destruct (as_LockedNode g input.2) as [lockedInput|]; [|discriminate].
  match goal with |- context [rec ?c ?p ?o] => destruct (rec c p o) as [[out2 [[]|e|]]|] eqn:E end;
    try discriminate.
  - intros Hrest. destruct (IH _ _ Hrest) as (input' & p & o & Hin & Hnone).
    exists input', p, o. split; [constructor; exact Hin|exact Hnone].
  - intros _. eexists input, _, _. split; [constructor|exact E].
Qed.

Lemma recurse_None_step f u prefix out :
  recurse (S f) g u prefix out = None →
  ∃ v, edge g u v ∧ ∃ p o, recurse f g v p o = None.
Proof.
  simpl. destruct (g !! u) as [n|] eqn:Hu; [|discriminate].
  intros Hnone. apply recurse_inputs_None in Hnone as ([name v] & p & o & Hin & Hnone).
  exists v. split; [exists n, name; auto|eauto].
Qed.

(** Without cycles the printer returns, with any fuel above the number of
    nodes. *)
Lemma recurse_returns root fuel prefix out :
  acyclic_from g root → (size g < fuel)%nat →
  recurse fuel g root prefix out ≠ None.
Proof.
  intros Hacyc Hfuel Hnone.
  pose (P := fun f u => ∃ p o, recurse f g u p o = None).
  assert (fuel ≤ size g)%nat; [|lia].
  apply (out_of_fuel_bound g P root); [|exact Hacyc|].
  - intros f u (p & o & Hpo). apply recurse_None_step in Hpo. exact Hpo.
  - exists prefix, out. exact Hnone.
Qed.

Lemma recurse_inputs_Ok_inputs rec prefix size i l out out' :
  recurse_inputs g rec prefix size i l out = Some (out', Ok tt) →
  ∀ input, input ∈ l → ∃ p o o', rec input.2 p o = Some (o', Ok tt).
Proof.
  revert i out. induction l as [|input l IH]; intros i out Hrun input' Hin.
  - inversion Hin.
  - apply recurse_inputs_cons_Ok in Hrun as (lk & out2 & _ & Hrec & Hrest).
    apply elem_of_cons in Hin as [->|Hin]; [eauto|].
    eapply IH; eauto.
Qed.

Lemma recurse_Ok_step f u v prefix out out' :
  recurse (S f) g u prefix out = Some (out', Ok tt) → edge g u v →
  ∃ p o o', recurse f g v p o = Some (o', Ok tt).
Proof.
  simpl. intros Hrun (n & name & Hu & Hin). rewrite Hu in Hrun.
  exact (recurse_inputs_Ok_inputs _ _ _ _ _ _ _ Hrun (name, v) Hin).
Qed.

(** With a cycle in reach the printer never returns. *)
Lemma recurse_never_Ok root fuel prefix out out' :
  reaches_cycle g root → recurse fuel g root prefix out ≠ Some (out', Ok tt).
Proof.
  intros Hcyc Hrun.
  pose (D := fun f u => ∃ p o o', recurse f g u p o = Some (o', Ok tt)).
  apply (never_returns g D) with (f := fuel) (u := root); [| |exact Hcyc|].
  - intros u (p & o & o' & Hpo). discriminate.
  - intros f u v (p & o & o' & Hpo) Huv. eapply recurse_Ok_step; eauto.
  - exists prefix, out, out'. exact Hrun.
Qed.

Lemma recurse_inputs_locked_Ok rec prefix size i l out out' r :
  (∀ input, input ∈ l → is_Some (as_LockedNode g input.2)) →
  (∀ input p o o' r', input ∈ l → rec input.2 p o = Some (o', r') → r' = Ok tt) →
  recurse_inputs g rec prefix size i l out = Some (out', r) → r = Ok tt.
Proof.
  revert i out. induction l as [|input l IH]; intros i out Hlocked Hrec; simpl.
  - intros [= _ <-]. reflexivity.
  - destruct (Hlocked input) as [lk Hlk]; [constructor|]. rewrite Hlk.
    match goal with |- context [rec ?c ?p ?o] => destruct (rec c p o) as [[out2 r2]|] eqn:E end;
      [|discriminate].
    assert (r2 = Ok tt) as -> by (eapply Hrec; [constructor|exact E]).
    apply IH.
    + intros input' Hin. apply Hlocked. constructor. exact Hin.
    + intros input' p o o' r' Hin. apply Hrec. constructor. exact Hin.
Qed.

(** In a lock graph the printer does not stop on a null pointer. *)
Lemma recurse_locked_Ok fuel u prefix out out' r :
  inputs_locked g → u ∈ dom g →
  recurse fuel g u prefix out = Some (out', r) → r = Ok tt.
Proof.
  intros Hlocked. revert u prefix out out' r.
  induction fuel as [|f IH]; intros u prefix out out' r Hu; simpl; [discriminate|].
  apply elem_of_dom in Hu as [n Hn]. rewrite Hn. intros Hrun.
  eapply recurse_inputs_locked_Ok; [| |exact Hrun].
  - intros [name v] Hin. apply (Hlocked u v). exists n, name. auto.
  - intros [name v] p o o' r' Hin. apply IH.
    destruct (Hlocked u v) as [lk Hlk]; [exists n, name; auto|].
    unfold as_LockedNode in Hlk. apply elem_of_dom. simpl in *.
    destruct (g !! v); [eauto|discriminate].
Qed.

(** The names are printed in the order of [inputs_preorder]. *)
Lemma recurse_inputs_names rec prec prefix size i l out out' :
  (∀ c p o o', rec c p o = Some (o', Ok tt) →
     ∃ names, prec c = Some names ∧ printed_names o' = printed_names o ++ names) →
  recurse_inputs g rec prefix size i l out = Some (out', Ok tt) →
  ∃ names, preorder_inputs prec l = Some names ∧
           printed_names out' = printed_names out ++ names.
Proof.
  intros Hrec. revert i out. induction l as [|input l IH]; intros i out Hrun.
  - injection Hrun as <-. exists []. rewrite app_nil_r. auto.
  - apply recurse_inputs_cons_Ok in Hrun as (lk & out2 & _ & Hchild & Hrest).
    apply Hrec in Hchild as (below & Hbelow & Hout2).
    apply IH in Hrest as (rest & Hrest & Hout').
    exists (input.1 :: below ++ rest). simpl. rewrite Hbelow, Hrest. split; [reflexivity|].
    rewrite Hout', Hout2. unfold printed_names. rewrite map_app. simpl.
    rewrite <- !app_assoc. reflexivity.
Qed.

Lemma recurse_names fuel u prefix out out' :
  recurse fuel g u prefix out = Some (out', Ok tt) →
  ∃ names, inputs_preorder fuel g u = Some names ∧
           printed_names out' = printed_names out ++ names.
Proof.
  revert u prefix out out'. induction fuel as [|f IH]; intros u prefix out out'; simpl;
    [discriminate|].
  destruct (g !! u) as [n|]; [|discriminate].
  apply recurse_inputs_names. intros c p o o'. apply IH.
Qed.

End PrinterFacts.

(* ===================================================================== *)
(** * The archive traversal *)
(* ===================================================================== *)

Section ArchiveFacts.
Context `{Store} `{Fetchers} (dryRun : bool) (g : LockGraph).

(** One turn of the loop of [traverse] that goes on to the next input. *)
Lemma traverse_inputs_cons_Ok rec json input l acc st st' ms :
  traverse_inputs dryRun g rec json (input :: l) acc st = Some (st', Ok ms) →
  ∃ lockedInput st1 st3 members,
    as_LockedNode g input.2 = Some lockedInput ∧
    sources st1 = sources st ∧
    rec input.2 json
      (mkArchiveState ({[computeStorePath lockedInput]} ∪ sources st1) (effects st1))
    = Some (st3, Ok members) ∧
    traverse_inputs dryRun g rec json l
      (if json
       then acc ++ [mkMember input.1
                      (JObject (mkMember "path"
                                  (JString (printStorePath (computeStorePath lockedInput)))
                                :: members))]
       else acc) st3
    = Some (st', Ok ms).
Proof.
  simpl. destruct (as_LockedNode g input.2) as [lockedInput|]; [|discriminate].
  destruct (if dryRun then _ else _) as [st1 [[]|e|]] eqn:Hfetch; try discriminate.
  assert (sources st1 = sources st) as Hsrc.
  { destruct dryRun; [injection Hfetch as <-|injection Hfetch as <- _]; reflexivity. }
  match goal with
  | |- context [rec ?c ?j ?s] => destruct (rec c j s) as [[st3 [members|e|]]|] eqn:E
  end; try discriminate.
  intros Hrest. exists lockedInput, st1, st3, members. auto.
Qed.

Lemma traverse_inputs_None rec json l acc st :
  traverse_inputs dryRun g rec json l acc st = None →
  ∃ input j s, input ∈ l ∧ rec input.2 j s = None.
Proof.
  revert acc st. induction l as [|input l IH]; intros acc st; simpl; [discriminate|].
  destruct (as_LockedNode g input.2) as [lockedInput|]; [|discriminate].
  destruct (if dryRun then _ else _) as [st1 [[]|e|]]; try discriminate.
  match goal with
  | |- context [rec ?c ?j ?s] => destruct (rec c j s) as [[st3 [members|e|]]|] eqn:E
  end; try discriminate.
  - intros Hrest. destruct (IH _ _ Hrest) as (input' & j & s & Hin & Hnone).
    exists input', j, s. split; [constructor; exact Hin|exact Hnone].
  - intros _. eexists input, _, _. split; [constructor|exact E].
Qed.

Lemma traverse_None_step f u json st :
  traverse (S f) dryRun g u json st = None →
  ∃ v, edge g u v ∧ ∃ j s, traverse f dryRun g v j s = None.
Proof.
  simpl. destruct (g !! u) as [n|] eqn:Hu; [|discriminate].
  destruct (traverse_inputs _ _ _ _ _ _ _) as [[st' [ms|e|]]|] eqn:Hloop; try discriminate.
  intros _. apply traverse_inputs_None in Hloop as ([name v] & j & s & Hin & Hnone).
  exists v. split; [exists n, name; auto|eauto].
Qed.

(** Without cycles the traversal returns, with any fuel above the number of
    nodes. *)
Lemma traverse_returns root fuel json st :
  acyclic_from g root → (size g < fuel)%nat →
  traverse fuel dryRun g root json st ≠ None.
Proof.
  intros Hacyc Hfuel Hnone.
  pose (P := fun f u => ∃ j s, traverse f dryRun g u j s = None).
  assert (fuel ≤ size g)%nat; [|lia].
  apply (out_of_fuel_bound g P root); [|exact Hacyc|].
  - intros f u (j & s & Hjs). apply traverse_None_step in Hjs. exact Hjs.
  - exists json, st. exact Hnone.
Qed.

Lemma traverse_inputs_Ok_inputs rec json l acc st st' ms :
  traverse_inputs dryRun g rec json l acc st = Some (st', Ok ms) →
  ∀ input, input ∈ l → ∃ j s s' ms', rec input.2 j s = Some (s', Ok ms').
Proof.
  revert acc st. induction l as [|input l IH]; intros acc st Hrun input' Hin.
  - inversion Hin.
  - apply traverse_inputs_cons_Ok in Hrun as (lk & st1 & st3 & members & _ & _ & Hrec & Hrest).
    apply elem_of_cons in Hin as [->|Hin]; [eauto|].
    eapply IH; eauto.
Qed.

Lemma traverse_Ok_step f u v json st st' ms :
  traverse (S f) dryRun g u json st = Some (st', Ok ms) → edge g u v →
  ∃ j s s' ms', traverse f dryRun g v j s = Some (s', Ok ms').
Proof.
  simpl. intros Hrun (n & name & Hu & Hin). rewrite Hu in Hrun.
  destruct (traverse_inputs _ _ _ _ _ _ _) as [[st1 [ms1|e|]]|] eqn:Hloop; try discriminate.
  exact (traverse_inputs_Ok_inputs _ _ _ _ _ _ _ Hloop (name, v) Hin).
Qed.

(** With a cycle in reach the traversal never returns. *)
Lemma traverse_never_Ok root fuel json st st' ms :
  reaches_cycle g root → traverse fuel dryRun g root json st ≠ Some (st', Ok ms).
Proof.
  intros Hcyc Hrun.
  pose (D := fun f u => ∃ j s s' ms', traverse f dryRun g u j s = Some (s', Ok ms')).
  apply (never_returns g D) with (f := fuel) (u := root); [| |exact Hcyc|].
  - intros u (j & s & s' & ms' & Hjs). discriminate.
  - intros f u v (j & s & s' & ms' & Hjs) Huv. eapply traverse_Ok_step; eauto.
  - exists json, st, st', ms. exact Hrun.
Qed.

Lemma traverse_inputs_locked_Ok rec json l acc st st' r :
  fetches_succeed dryRun →
  (∀ input, input ∈ l → is_Some (as_LockedNode g input.2)) →
  (∀ input j s s' r', input ∈ l → rec input.2 j s = Some (s', r') → ∃ ms, r' = Ok ms) →
  traverse_inputs dryRun g rec json l acc st = Some (st', r) → ∃ ms, r = Ok ms.
Proof.
  intros Hfetch. revert acc st. induction l as [|input l IH]; intros acc st Hlocked Hrec; simpl.
  - intros [= _ <-]. eauto.
  - destruct (Hlocked input) as [lk Hlk]; [constructor|]. rewrite Hlk.
    destruct (if dryRun then _ else _) as [st1 rf] eqn:Hf.
    assert (rf = Ok tt) as ->.
    { destruct Hfetch as [->|Hall]; [congruence|].
      destruct dryRun; [congruence|]. rewrite Hall in Hf. congruence. }
    match goal with
    | |- context [rec ?c ?j ?s] => destruct (rec c j s) as [[st3 r3]|] eqn:E
    end; [|discriminate].
    destruct (Hrec input _ _ _ _ ltac:(constructor) E) as [members ->].
    apply IH.
    + intros input' Hin. apply Hlocked. constructor. exact Hin.
    + intros input' j s s' r' Hin. apply Hrec. constructor. exact Hin.
Qed.

(** In a lock graph whose fetches succeed the traversal neither throws nor
    fails its assertion. *)
Lemma traverse_locked_Ok fuel u json st st' r :
  fetches_succeed dryRun → inputs_locked g → u ∈ dom g →
  traverse fuel dryRun g u json st = Some (st', r) → ∃ ms, r = Ok ms.
Proof.
  intros Hfetch Hlocked. revert u json st st' r.
  induction fuel as [|f IH]; intros u json st st' r Hu; simpl; [discriminate|].
  apply elem_of_dom in Hu as [n Hn]. rewrite Hn.
  destruct (traverse_inputs _ _ _ _ _ _ _) as [[st1 r1]|] eqn:Hloop; [|discriminate].
  eapply traverse_inputs_locked_Ok in Hloop as [ms ->]; [| exact Hfetch | |].
  - intros [= _ <-]. eauto.
  - intros [name v] Hin. apply (Hlocked u v). exists n, name. auto.
  - intros [name v] j s s' r' Hin. apply IH.
    destruct (Hlocked u v) as [lk Hlk]; [exists n, name; auto|].
    unfold as_LockedNode in Hlk. apply elem_of_dom. simpl in *.
    destruct (g !! v); [eauto|discriminate].
Qed.

Lemma document_names_path p members :
  document_names (JObject (mkMember "path" (JString p) :: members))
  = document_names (JObject members).
Proof. reflexivity. Qed.

Lemma document_names_inputs kids :
  document_names (JObject [mkMember "inputs" (JObject kids)]) = members_names kids.
Proof. simpl. rewrite app_nil_r. reflexivity. Qed.

Lemma members_names_app kids1 kids2 :
  members_names (kids1 ++ kids2) = members_names kids1 ++ members_names kids2.
Proof. unfold members_names. apply flat_map_app. Qed.

(** The names are written in the order of [inputs_preorder]. *)
Lemma traverse_inputs_names rec prec l acc st st' kids :
  (∀ c s s' ms, rec c true s = Some (s', Ok ms) →
     prec c = Some (document_names (JObject ms))) →
  traverse_inputs dryRun g rec true l acc st = Some (st', Ok kids) →
  ∃ names, preorder_inputs prec l = Some names ∧
           members_names kids = members_names acc ++ names.
Proof.
  intros Hrec. revert acc st. induction l as [|input l IH]; intros acc st Hrun.
  - injection Hrun as _ <-. exists []. rewrite app_nil_r. auto.
  - apply traverse_inputs_cons_Ok in Hrun as (lk & st1 & st3 & ms & _ & _ & Hchild & Hrest).
    apply Hrec in Hchild. apply IH in Hrest as (rest & Hrest & Hkids).
    exists (input.1 :: document_names (JObject ms) ++ rest). simpl.
    rewrite Hchild, Hrest. split; [reflexivity|].
    rewrite Hkids, members_names_app. simpl.
    rewrite app_nil_r, <- !app_assoc. reflexivity.
Qed.

Lemma traverse_names fuel u st st' ms :
  traverse fuel dryRun g u true st = Some (st', Ok ms) →
  inputs_preorder fuel g u = Some (document_names (JObject ms)).
Proof.
  revert u st st' ms. induction fuel as [|f IH]; intros u st st' ms Hrun;
    simpl in Hrun; [discriminate|].
  change (inputs_preorder (S f) g u)
    with (match g !! u with
          | None => None
          | Some n => preorder_inputs (inputs_preorder f g) (inputs n)
          end).
  destruct (g !! u) as [n|]; [|discriminate].
  destruct (traverse_inputs _ _ _ _ _ _ _) as [[st1 [kids|e|]]|] eqn:Hloop; try discriminate.
  injection Hrun as _ <-. rewrite document_names_inputs.
  eapply traverse_inputs_names in Hloop as (names & Hnames & ->); [exact Hnames|].
  intros c s s' ms'. apply IH.
Qed.

(** The traversal only adds to [sources], and adds the store path of every
    node below the one it starts from. *)
Lemma traverse_inputs_sources rec json l acc st st' ms :
  (∀ c j s s' ms', rec c j s = Some (s', Ok ms') →
     sources s ⊆ sources s' ∧
     ∀ v lv, tc (edge g) c v → as_LockedNode g v = Some lv →
             computeStorePath lv ∈ sources s') →
  traverse_inputs dryRun g rec json l acc st = Some (st', Ok ms) →
  sources st ⊆ sources st' ∧
  ∀ input v lv, input ∈ l → rtc (edge g) input.2 v → as_LockedNode g v = Some lv →
                computeStorePath lv ∈ sources st'.
Proof.
  intros Hrec. revert acc st. induction l as [|input l IH]; intros acc st Hrun.
  - injection Hrun as <- _. split; [reflexivity|]. intros input v lv Hin. inversion Hin.
  - apply traverse_inputs_cons_Ok in Hrun
      as (lk & st1 & st3 & members & Hlk & Hsrc & Hchild & Hrest).
    apply Hrec in Hchild as [Hsub Hbelow]. apply IH in Hrest as [Hsub' Hrest].
    simpl in Hsub. split.
    { intros p Hp. apply Hsub', Hsub, elem_of_union. right. rewrite Hsrc. exact Hp. }
    intros input' v lv Hin Hreach Hlv.
    apply elem_of_cons in Hin as [->|Hin]; [|eauto].
    apply Hsub'. apply rtc_tc in Hreach as [<-|Hreach].
    + assert (lv = lk) as -> by congruence.
      apply Hsub, elem_of_union. left. apply elem_of_singleton. reflexivity.
    + eauto.
Qed.

Lemma traverse_sources fuel u json st st' ms :
  traverse fuel dryRun g u json st = Some (st', Ok ms) →
  sources st ⊆ sources st' ∧
  ∀ v lv, tc (edge g) u v → as_LockedNode g v = Some lv →
          computeStorePath lv ∈ sources st'.
Proof.
  revert u json st st' ms. induction fuel as [|f IH]; intros u json st st' ms; simpl;
    [discriminate|].
  destruct (g !! u) as [n|] eqn:Hu; [|discriminate].
  destruct (traverse_inputs _ _ _ _ _ _ _) as [[st1 [kids|e|]]|] eqn:Hloop; try discriminate.
  intros [= <- _].
  apply traverse_inputs_sources in Hloop as [Hsub Hbelow]; [|intros c j s s' ms'; apply IH].
  split; [exact Hsub|]. intros v lv Hreach Hlv.
  apply tc_first_edge in Hreach as (c & (n' & name & Hu' & Hin) & Hcv).
  rewrite Hu in Hu'. injection Hu' as <-.
  exact (Hbelow (name, c) v lv Hin Hcv Hlv).
Qed.

End ArchiveFacts.

(* ===================================================================== *)
(** * Claims about the lock-graph walkers *)
(* ===================================================================== *)

Section WalkerClaims.
Context `{Store} `{Settings} `{Fetchers}.

Lemma reaches_cycle_dom g root : reaches_cycle g root → root ∈ dom g.
Proof.
  intros Hcyc. destruct (reaches_cycle_step g root Hcyc) as (v & Huv & _).
  eapply edge_dom, Huv.
Qed.

(** C8. On a lock graph without a cycle in reach of the root, both
    recursions return once the fuel exceeds the number of nodes, and they
    return normally when every input is a locked node and no fetch fails.
    With a cycle in reach of the root neither recursion ever returns
    normally, and on such a lock graph every bound on the depth of the
    recursion is reached: nothing in the recursion stops at a node already
    seen. *)
Theorem lock_walkers_termination (g : LockGraph) (root : NodeId) (dryRun json : bool)
    (prefix : string) (out : list Line) (st : ArchiveState) :
  (acyclic_from g root →
   ∀ fuel, (size g < fuel)%nat →
     recurse fuel g root prefix out ≠ None
     ∧ traverse fuel dryRun g root json st ≠ None)
  ∧ (acyclic_from g root → inputs_locked g → fetches_succeed dryRun → root ∈ dom g →
     ∀ fuel, (size g < fuel)%nat →
       (∃ out', recurse fuel g root prefix out = Some (out', Ok tt))
       ∧ (∃ st' ms, traverse fuel dryRun g root json st = Some (st', Ok ms)))
  ∧ (reaches_cycle g root →
     ∀ fuel,
       (∀ out', recurse fuel g root prefix out ≠ Some (out', Ok tt))
       ∧ (∀ st' ms, traverse fuel dryRun g root json st ≠ Some (st', Ok ms)))
  ∧ (reaches_cycle g root → inputs_locked g → fetches_succeed dryRun →
     ∀ fuel,
       recurse fuel g root prefix out = None
       ∧ traverse fuel dryRun g root json st = None).
Proof.
  split; [|split; [|split]].
  - intros Hacyc fuel Hfuel. split.
    + apply recurse_returns; assumption.
    + apply traverse_returns; assumption.
  - intros Hacyc Hlocked Hfetch Hroot fuel Hfuel. split.
    + destruct (recurse fuel g root prefix out) as [[out' r]|] eqn:Hrun.
      * apply recurse_locked_Ok in Hrun as ->; eauto.
      * exfalso. revert Hrun. apply recurse_returns; assumption.
    + destruct (traverse fuel dryRun g root json st) as [[st' r]|] eqn:Hrun.
      * destruct (traverse_locked_Ok dryRun g _ _ _ _ _ _ Hfetch Hlocked Hroot Hrun)
          as [ms ->]. eauto.
      * exfalso. revert Hrun. apply traverse_returns; assumption.
  - intros Hcyc fuel. split.
    + intros out'. apply recurse_never_Ok, Hcyc.
    + intros st' ms. apply traverse_never_Ok, Hcyc.
  - intros Hcyc Hlocked Hfetch fuel.
    pose proof (reaches_cycle_dom g root Hcyc) as Hroot. split.
    + destruct (recurse fuel g root prefix out) as [[out' r]|] eqn:Hrun; [|reflexivity].
      pose proof Hrun as Hr. apply recurse_locked_Ok in Hr as ->; [|assumption..].
      exfalso. revert Hrun. apply recurse_never_Ok, Hcyc.
    + destruct (traverse fuel dryRun g root json st) as [[st' r]|] eqn:Hrun; [|reflexivity].
      destruct (traverse_locked_Ok dryRun g _ _ _ _ _ _ Hfetch Hlocked Hroot Hrun)
        as [ms ->].
      exfalso. revert Hrun. apply traverse_never_Ok, Hcyc.
Qed.

(** What [archive_run] returns, in terms of [traverse]. *)
Lemma archive_run_Ok fuel json dryRun dstUri flakeStorePath g root st doc :
  archive_run fuel json dryRun dstUri flakeStorePath g root = Some (st, Ok doc) →
  ∃ st1 ms,
    traverse fuel dryRun g root json (mkArchiveState {[flakeStorePath]} [])
    = Some (st1, Ok ms) ∧
    sources st = sources st1 ∧
    doc = (if json
           then Some (JObject (mkMember "path" (JString (printStorePath flakeStorePath))
                               :: ms))
           else None).
Proof.
  unfold archive_run.
  destruct (traverse fuel dryRun g root json _) as [[st1 [ms|e|]]|]; try discriminate.
  destruct (negb dryRun && negb (String.eqb dstUri EmptyString)); intros [= <- <-];
    exists st1, ms; auto.
Qed.

Lemma once_in_elements (X : gset StorePath) (p : StorePath) :
  p ∈ X → List.length (filter (fun q => q = p) (elements X)) = 1.
Proof.
  intros Hin. apply elem_of_elements in Hin.
  pose proof (NoDup_elements X) as Hnodup.
  induction Hnodup as [|q l Hq Hnodup IH]; [inversion Hin|].
  rewrite filter_cons. destruct (decide (q = p)) as [->|Hne].
  - simpl. f_equal. clear IH Hin. induction l as [|r l IHl]; [reflexivity|].
    rewrite filter_cons. destruct (decide (r = p)) as [->|_].
    + exfalso. apply Hq. constructor.
    + apply IHl.
      * intros Hin. apply Hq. constructor. exact Hin.
      * inversion Hnodup. assumption.
  - apply IH. apply elem_of_cons in Hin as [->|Hin]; [contradiction|exact Hin].
Qed.

Lemma archive_run_returns fuel json dryRun dstUri flakeStorePath g root :
  acyclic_from g root → inputs_locked g → fetches_succeed dryRun → root ∈ dom g →
  (size g < fuel)%nat →
  ∃ st doc, archive_run fuel json dryRun dstUri flakeStorePath g root = Some (st, Ok doc).
Proof.
  intros Hacyc Hlocked Hfetch Hroot Hfuel. unfold archive_run.
  destruct (traverse fuel dryRun g root json _) as [[st1 r]|] eqn:Hrun.
  - destruct (traverse_locked_Ok dryRun g _ _ _ _ _ _ Hfetch Hlocked Hroot Hrun) as [ms ->].
    destruct (negb dryRun && negb (String.eqb dstUri EmptyString)); eauto.
  - exfalso. revert Hrun. apply traverse_returns; assumption.
Qed.

(** C6. After [archive_run], the store path of a node that two distinct
    nodes in reach of the root both have as an input is in [sources], a set,
    so it is there once. On a lock graph without cycles whose fetches
    succeed, [archive_run] does return. *)
Theorem shared_input_collected_once (fuel : nat) (json dryRun : bool) (dstUri : string)
    (flakeStorePath : StorePath) (g : LockGraph) (root : NodeId) :
  (∀ p1 p2 c lockedInput st doc,
     archive_run fuel json dryRun dstUri flakeStorePath g root = Some (st, Ok doc) →
     rtc (edge g) root p1 → rtc (edge g) root p2 → p1 ≠ p2 →
     edge g p1 c → edge g p2 c →
     as_LockedNode g c = Some lockedInput →
     computeStorePath lockedInput ∈ sources st
     ∧ List.length (filter (fun p => p = computeStorePath lockedInput)
                      (elements (sources st))) = 1)
  ∧ (acyclic_from g root → inputs_locked g → fetches_succeed dryRun → root ∈ dom g →
     (size g < fuel)%nat →
     ∃ st doc, archive_run fuel json dryRun dstUri flakeStorePath g root = Some (st, Ok doc)).
Proof.
  split; [|apply archive_run_returns].
  intros p1 p2 c lockedInput st doc Hrun Hp1 _ _ Hc1 _ Hlocked.
  apply archive_run_Ok in Hrun as (st1 & ms & Htrav & Hsrc & _).
  apply traverse_sources in Htrav as [_ Hbelow].
  assert (computeStorePath lockedInput ∈ sources st) as Hin.
  { rewrite Hsrc. apply (Hbelow c lockedInput); [|exact Hlocked].
    eapply tc_rtc_l; [exact Hp1|apply tc_once, Hc1]. }
  split; [exact Hin|apply once_in_elements, Hin].
Qed.

Lemma preorder_inputs_app rec l1 l2 names :
  preorder_inputs rec (l1 ++ l2) = Some names →
  ∃ n1 n2, preorder_inputs rec l1 = Some n1 ∧ preorder_inputs rec l2 = Some n2 ∧
           names = n1 ++ n2.
Proof.
  revert names. induction l1 as [|input l1 IH]; intros names Hrun.
  - exists [], names. auto.
  - simpl in Hrun. destruct (rec input.2) as [below|] eqn:Hbelow; [|discriminate].
    destruct (preorder_inputs rec (l1 ++ l2)) as [rest|]; [|discriminate].
    injection Hrun as <-. destruct (IH rest eq_refl) as (n1 & n2 & Hn1 & Hn2 & ->).
    exists (input.1 :: below ++ n1), n2. split; [|split; [exact Hn2|]].
    + simpl. rewrite Hbelow, Hn1. reflexivity.
    + simpl. rewrite <- app_assoc. reflexivity.
Qed.

Lemma preorder_inputs_cons rec input l names :
  preorder_inputs rec (input :: l) = Some names →
  ∃ below rest, preorder_inputs rec l = Some rest ∧ names = input.1 :: below ++ rest.
Proof.
  simpl. destruct (rec input.2) as [below|]; [|discriminate].
  destruct (preorder_inputs rec l) as [rest|]; [|discriminate].
  intros [= <-]. eauto.
Qed.

(** Of two inputs of a node, the one that comes first in [inputs] comes
    first in the preorder. *)
Lemma inputs_preorder_before fuel g root n pre a ca mid b cb post names :
  g !! root = Some n →
  inputs n = pre ++ (a, ca) :: mid ++ (b, cb) :: post →
  inputs_preorder fuel g root = Some names →
  ∃ l1 l2 l3, names = l1 ++ a :: l2 ++ b :: l3.
Proof.
  intros Hroot Hinputs. destruct fuel as [|f]; simpl; [discriminate|].
  rewrite Hroot, Hinputs. intros Hnames.
  apply preorder_inputs_app in Hnames as (l1 & na & _ & Hna & ->).
  apply preorder_inputs_cons in Hna as (below_a & ra & Hra & ->).
  apply preorder_inputs_app in Hra as (nmid & nb & _ & Hnb & ->).
  apply preorder_inputs_cons in Hnb as (below_b & l3 & _ & ->).
  exists l1, (below_a ++ nmid), (below_b ++ l3). simpl.
  rewrite <- !app_assoc. reflexivity.
Qed.

(** C7. When the tree printer and the archive traversal with [--json] both
    return on a lock graph, the input names in the printed lines, top to
    bottom, are the input names in the document, in document order, and
    both are the depth-first order in which each node's inputs are taken as
    [inputs] lists them: of two inputs of the root, the one that comes
    first in [inputs] comes first in both. On a lock graph without cycles
    whose fetches succeed, both do return. *)
Theorem same_visit_order (fuel : nat) (dryRun : bool) (dstUri : string)
    (flakeStorePath : StorePath) (g : LockGraph) (root : NodeId) :
  (∀ out st doc,
     list_inputs_run fuel g root = Some (out, Ok tt) →
     archive_run fuel true dryRun dstUri flakeStorePath g root = Some (st, Ok (Some doc)) →
     printed_names out = document_names doc
     ∧ inputs_preorder fuel g root = Some (printed_names out)
     ∧ ∀ n pre a ca mid b cb post,
         g !! root = Some n →
         inputs n = pre ++ (a, ca) :: mid ++ (b, cb) :: post →
         ∃ l1 l2 l3, printed_names out = l1 ++ a :: l2 ++ b :: l3
                     ∧ document_names doc = l1 ++ a :: l2 ++ b :: l3)
  ∧ (acyclic_from g root → inputs_locked g → fetches_succeed dryRun → root ∈ dom g →
     (size g < fuel)%nat →
     ∃ out st doc,
       list_inputs_run fuel g root = Some (out, Ok tt)
       ∧ archive_run fuel true dryRun dstUri flakeStorePath g root
         = Some (st, Ok (Some doc))).
Proof.
  split.
  - intros out st doc Hprint Harchive.
    apply recurse_names in Hprint as (names & Hnames & Hout). simpl in Hout. subst names.
    apply archive_run_Ok in Harchive as (st1 & ms & Htrav & _ & [= ->]).
    apply traverse_names in Htrav. rewrite document_names_path.
    assert (printed_names out = document_names (JObject ms)) as Heq by congruence.
    split; [exact Heq|]. split; [exact Hnames|].
    intros n pre a ca mid b cb post Hroot Hinputs.
    destruct (inputs_preorder_before _ _ _ _ _ _ _ _ _ _ _ _ Hroot Hinputs Hnames)
      as (l1 & l2 & l3 & Hsplit).
    exists l1, l2, l3. split; [exact Hsplit|]. rewrite <- Heq. exact Hsplit.
  - intros Hacyc Hlocked Hfetch Hroot Hfuel.
    destruct (archive_run_returns fuel true dryRun dstUri flakeStorePath g root
                Hacyc Hlocked Hfetch Hroot Hfuel) as (st & doc & Harchive).
    pose proof Harchive as Hdoc.
    apply archive_run_Ok in Hdoc as (st1 & ms & _ & _ & ->).
    unfold list_inputs_run.
    destruct (recurse fuel g root EmptyString []) as [[out r]|] eqn:Hrun.
    + apply recurse_locked_Ok in Hrun as ->; [|assumption..]. eauto.
    + exfalso. revert Hrun. apply recurse_returns; assumption.
Qed.

(** A graph whose edges go down along a rank has no cycle. *)
Lemma acyclic_by_rank (g : LockGraph) (rank : NodeId → nat) (root : NodeId) :
  (∀ u v, edge g u v → (rank v < rank u)%nat) → acyclic_from g root.
Proof.
  intros Hrank u _ Hcyc.
  assert (∀ x y, tc (edge g) x y → (rank y < rank x)%nat) as Htc.
  { induction 1 as [x y Hxy|x y z Hxy _ IH]; [auto|].
    specialize (Hrank x y Hxy). lia. }
  specialize (Htc u u Hcyc). lia.
Qed.
End WalkerClaims.

(* ===================================================================== *)
(** * More about the checker *)
(* ===================================================================== *)

Section CheckerMore.
Context `{EvalState} `{Store} `{Settings}.

(** A loop whose body leaves the state alone ends in the state it started
    in, and passes exactly when every turn passes. *)
Lemma for_each_stateless {A} (f : A → M unit) (l : list A) s s' r :
  (∀ a s1 s2 r1, f a s1 = (s2, r1) → s2 = s1) →
  for_each f l s = (s', r) → s' = s.
Proof.
  intros Hf. revert s. induction l as [|a l IH]; intros s; simpl.
  - intros [= <- _]. reflexivity.
  - unfold bind. destruct (f a s) as [s1 r1] eqn:Ha. apply Hf in Ha as ->.
    destruct r1 as [[]|e|]; [apply IH|intros [= <- _]; reflexivity..].
Qed.

Lemma for_each_stateless_Ok {A} (f : A → M unit) (l : list A) s :
  (∀ a s1 s2 r1, f a s1 = (s2, r1) → s2 = s1) →
  for_each f l s = (s, Ok tt) ↔ Forall (fun a => f a s = (s, Ok tt)) l.
Proof.
  intros Hf. induction l as [|a l IH]; simpl.
  - split; [constructor|reflexivity].
  - unfold bind. destruct (f a s) as [s1 r1] eqn:Ha.
    pose proof (Hf _ _ _ _ Ha) as ->. split.
    + destruct r1 as [[]|e|]; try discriminate.
      intros Hrest. constructor; [exact Ha|apply IH, Hrest].
    + intros Hall. inversion Hall as [|? ? Hhead Htail]; subst.
      rewrite Ha in Hhead. injection Hhead as ->. apply IH, Htail.
Qed.

(** The first turn that does not pass decides the outcome of such a loop. *)
Lemma for_each_stateless_first {A} (f : A → M unit) (pre post : list A) a s r :
  (∀ a s1 s2 r1, f a s1 = (s2, r1) → s2 = s1) →
  Forall (fun b => f b s = (s, Ok tt)) pre →
  f a s = (s, r) → r ≠ Ok tt →
  for_each f (pre ++ a :: post) s = (s, r).
Proof.
  intros Hf Hpre Ha Hr. eapply for_each_throw_at; [|exact Ha|exact Hr].
  apply for_each_stateless_Ok; assumption.
Qed.

Lemma forceValue_spec v pos s :
  forceValue v pos s
  = match v with
    | VThunkFails e => (s, Throw e)
    | _ => (s, Ok tt)
    end.
Proof. destruct v; reflexivity. Qed.

Lemma forceAttrs_spec v pos s :
  forceAttrs v pos s
  = match v with
    | VThunkFails e => (s, Throw e)
    | VAttrs _ => (s, Ok tt)
    | _ => (s, Throw (mkError EmptyString (not_a_set v pos)))
    end.
Proof. destruct v; reflexivity. Qed.

Lemma checkOverlay_stateless attrPath v pos s s' r :
  checkOverlay attrPath v pos s = (s', r) → s' = s.
Proof. intros Hrun. exact (eq_sym (preserves_checkOverlay eq attrPath v pos s s' r Hrun)). Qed.

Lemma checkModule_stateless attrPath v pos s s' r :
  checkModule attrPath v pos s = (s', r) → s' = s.
Proof. intros Hrun. exact (eq_sym (preserves_checkModule eq attrPath v pos s s' r Hrun)). Qed.

Lemma checkDerivation_stateless attrPath v pos s s' r :
  checkDerivation attrPath v pos s = (s', r) → s' = s.
Proof.
  intros Hrun. exact (eq_sym (preserves_checkDerivation eq attrPath v pos s s' r Hrun)).
Qed.

Lemma checkSystemName_stateless system pos s s' r :
  checkSystemName system pos s = (s', r) → s' = s.
Proof.
  intros Hrun. exact (eq_sym (preserves_checkSystemName eq system pos s s' r Hrun)).
Qed.

Lemma checkOverlay_Ok attrPath v pos s :
  checkOverlay attrPath v pos s = (s, Ok tt) ↔ overlay_shaped v.
Proof.
  unfold checkOverlay, try_addPrefix, bind, overlay_shaped. rewrite forceValue_spec.
  destruct v as [e|n|str c|attrs|arg m ell body|]; simpl;
    try (split; [discriminate|intros (? & ? & ? & ?); discriminate]).
  destruct m; simpl; [split; [discriminate|intros (? & ? & ? & ?); discriminate]|].
  destruct (String.eqb_spec arg "final") as [->|Harg]; simpl.
  2: { split; [discriminate|]. intros (? & ? & ? & [= ? ? ?]). contradiction. }
  destruct body as [arg' m' ell' body'|]; simpl.
  2: { split; [discriminate|]. intros (? & ? & ? & ?). discriminate. }
  destruct m'; simpl; [split; [discriminate|intros (? & ? & ? & ?); discriminate]|].
  destruct (String.eqb_spec arg' "prev") as [->|Harg']; simpl.
  - split; [|reflexivity]. intros _. eauto.
  - split; [discriminate|]. intros (? & ? & ? & [= ? ? ?]). contradiction.
Qed.

(** The loop of [checkModule] over the members of an attribute set. *)
Lemma checkModule_members attrs s :
  for_each (fun attr =>
    try_addPrefix (option_context (attr_name attr) (attr_pos attr))
      (forceValue (attr_value attr) (attr_pos attr))) attrs s = (s, Ok tt)
  ↔ Forall (fun attr => forces (attr_value attr)) attrs.
Proof.
  rewrite for_each_stateless_Ok.
  - apply Forall_iff. intros attr. unfold try_addPrefix. rewrite forceValue_spec.
    unfold forces. destruct (attr_value attr); split; try discriminate; try reflexivity.
    intros Hf. exfalso. eapply Hf. reflexivity.
  - intros a s1 s2 r1. unfold try_addPrefix. rewrite forceValue_spec.
    destruct (attr_value a); intros [= <- _]; reflexivity.
Qed.

Lemma checkModule_Ok attrPath v pos s :
  checkModule attrPath v pos s = (s, Ok tt) ↔ module_shaped v.
Proof.
  unfold module_shaped.
  destruct v as [e|n|str c|attrs|arg m ell body|].
  1,2,3,6: split; [discriminate|intros [(? & ? & ?)|(? & ? & _)]; discriminate].
  - transitivity (Forall (fun attr => forces (attr_value attr)) attrs).
    + rewrite <- (checkModule_members attrs s).
      unfold checkModule, try_addPrefix, bind. rewrite forceValue_spec.
      fold (option_context). unfold option_context.
      destruct (for_each _ attrs s) as [s1 [[]|e|]] eqn:Hloop.
      * split; intros [= ->]; reflexivity.
      * split; discriminate.
      * split; discriminate.
    + split; [intros Hall; right; eauto|].
      intros [(? & ? & ?)|(attrs' & [= <-] & Hall)]; [discriminate|exact Hall].
  - unfold checkModule, try_addPrefix, bind. rewrite forceValue_spec.
    destruct m, ell; simpl.
    + split; [intros _; left; eauto|reflexivity].
    + split; [discriminate|intros [(? & ? & ?)|(? & ? & _)]; discriminate].
    + split; [discriminate|intros [(? & ? & ?)|(? & ? & _)]; discriminate].
    + split; [discriminate|intros [(? & ? & ?)|(? & ? & _)]; discriminate].
Qed.


(** X1. [checkModule] never changes the state and passes exactly on a
    function of an open attribute set pattern and on an attribute set all
    of whose members evaluate. A function of another kind, a value that is
    neither, and a member that fails each give their own error; the error of
    a member keeps its message and gets the context of the option and the
    context of the module in front. *)
Theorem checkModule_accepts (attrPath : string) (v : Value) (pos : Pos) (s : CheckState) :
  (∀ s' r, checkModule attrPath v pos s = (s', r) → s' = s)
  ∧ (checkModule attrPath v pos s = (s, Ok tt) ↔ module_shaped v)
  ∧ (∀ arg m ell body,
       v = VLambda arg m ell body → m && ell = false →
       checkModule attrPath v pos s
       = (s, Throw (addPrefix (module_context attrPath pos)
                      (mkError EmptyString
                         "module must match an open attribute set ('{ config, ... }')"))))
  ∧ (forces v → (∀ attrs, v ≠ VAttrs attrs) → (∀ arg m ell body, v ≠ VLambda arg m ell body) →
     checkModule attrPath v pos s
     = (s, Throw (addPrefix (module_context attrPath pos)
                    (mkError EmptyString "module must be a function or an attribute set"))))
  ∧ (∀ pre n e p post,
       v = VAttrs (pre ++ mkAttr n (VThunkFails e) p :: post) →
       Forall (fun attr => forces (attr_value attr)) pre →
       checkModule attrPath v pos s
       = (s, Throw (addPrefix (module_context attrPath pos)
                      (addPrefix (option_context n p) e)))).
Proof.
  split; [|split; [|split; [|split]]].
  - intros s' r. apply checkModule_stateless.
  - apply checkModule_Ok.
  - intros arg m ell body -> Hclosed.
    unfold checkModule, try_addPrefix, bind. rewrite forceValue_spec.
    destruct m, ell; try discriminate; reflexivity.
  - intros Hforces Hattrs Hlambda.
    destruct v as [e|n|str c|attrs|arg m ell body|]; try reflexivity.
    + exfalso. eapply Hforces. reflexivity.
    + exfalso. eapply Hattrs. reflexivity.
    + exfalso. eapply Hlambda. reflexivity.
  - intros pre n e p post -> Hpre.
    unfold checkModule, try_addPrefix at 1, bind. rewrite forceValue_spec.
    match goal with
    | |- context [for_each ?f ?l s] =>
        assert (for_each f l s = (s, Throw (addPrefix (option_context n p) e))) as Hloop
    end; [|rewrite Hloop; reflexivity].
    apply for_each_stateless_first; [| |reflexivity|discriminate].
    + intros a s1 s2 r1. unfold try_addPrefix. rewrite forceValue_spec.
      destruct (attr_value a); intros [= <- _]; reflexivity.
    + eapply Forall_impl; [exact Hpre|]. intros a Ha. simpl in Ha. unfold try_addPrefix.
      rewrite forceValue_spec. destruct (attr_value a); try reflexivity.
      exfalso. eapply Ha. reflexivity.
Qed.

(** X2. [checkNixOSConfiguration] logs its activity, changes nothing else,
    and passes exactly when [config.system.build.toplevel] is found, is an
    attribute set and is a derivation; an attribute set that is not a
    derivation is the error about [config.system.build.toplevel]. *)
Theorem checkNixOSConfiguration_accepts (attrPath : string) (v : Value) (pos : Pos)
    (s : CheckState) :
  let s1 := logged (StartActivity ("checking NixOS configuration '" +:+ attrPath +:+ "'")) s in
  (∀ s' r, checkNixOSConfiguration attrPath v pos s = (s', r) → s' = s1)
  ∧ (checkNixOSConfiguration attrPath v pos s = (s1, Ok tt)
     ↔ ∃ attrs, findAlongAttrPath "config.system.build.toplevel" v = Ok (VAttrs attrs)
                ∧ isDerivation (VAttrs attrs) = Ok true)
  ∧ (∀ attrs,
       findAlongAttrPath "config.system.build.toplevel" v = Ok (VAttrs attrs) →
       isDerivation (VAttrs attrs) = Ok false →
       checkNixOSConfiguration attrPath v pos s
       = (s1, Throw (addPrefix (configuration_context attrPath pos)
                       (mkError EmptyString
                          "attribute 'config.system.build.toplevel' is not a derivation")))).
Proof.
  intros s1.
  assert (checkNixOSConfiguration attrPath v pos s
          = match findAlongAttrPath "config.system.build.toplevel" v with
            | Ok (VAttrs attrs) =>
                match isDerivation (VAttrs attrs) with
                | Ok true => (s1, Ok tt)
                | Ok false =>
                    (s1, Throw (addPrefix (configuration_context attrPath pos)
                                  (mkError EmptyString
                                     "attribute 'config.system.build.toplevel' is not a derivation")))
                | Throw e => (s1, Throw (addPrefix (configuration_context attrPath pos) e))
                | Crash => (s1, Crash)
                end
            | Ok (VThunkFails e) =>
                (s1, Throw (addPrefix (configuration_context attrPath pos) e))
            | Ok vt =>
                (s1, Throw (addPrefix (configuration_context attrPath pos)
                              (mkError EmptyString (not_a_set vt pos))))
            | Throw e => (s1, Throw (addPrefix (configuration_context attrPath pos) e))
            | Crash => (s1, Crash)
            end) as Hrun.
  { unfold checkNixOSConfiguration, try_addPrefix, bind, emit, call. simpl. fold s1.
    destruct (findAlongAttrPath "config.system.build.toplevel" v) as [vt|e|];
      try reflexivity.
    rewrite forceAttrs_spec. destruct vt; try reflexivity.
    destruct (isDerivation (VAttrs attrs)) as [[|]|e|]; reflexivity. }
  rewrite Hrun. clear Hrun.
  destruct (findAlongAttrPath "config.system.build.toplevel" v) as [vt|e|].
  2,3: split; [intros s' r [= <- _]; reflexivity|];
       split; [split; [discriminate|intros (? & ? & _); discriminate]|];
       intros attrs; discriminate.
  destruct vt as [e|n|str c|attrs|arg m ell body|].
  1,2,3,5,6: split; [intros s' r [= <- _]; reflexivity|];
       split; [split; [discriminate|intros (? & ? & _); discriminate]|];
       intros attrs; discriminate.
  destruct (isDerivation (VAttrs attrs)) as [[|]|e|] eqn:Hdrv.
  - split; [intros s' r [= <- _]; reflexivity|]. split.
    + split; [intros _; eauto|reflexivity].
    + intros attrs' [= <-]. rewrite Hdrv. discriminate.
  - split; [intros s' r [= <- _]; reflexivity|]. split.
    + split; [discriminate|]. intros (attrs' & [= <-] & Hd). congruence.
    + intros attrs' [= <-] _. reflexivity.
  - split; [intros s' r [= <- _]; reflexivity|]. split.
    + split; [discriminate|]. intros (attrs' & [= <-] & Hd). congruence.
    + intros attrs' [= <-]. rewrite Hdrv. discriminate.
  - split; [intros s' r [= <- _]; reflexivity|]. split.
    + split; [discriminate|]. intros (attrs' & [= <-] & Hd). congruence.
    + intros attrs' [= <-]. rewrite Hdrv. discriminate.
Qed.

Lemma not_known_eqb name :
  name ∉ known_outputs →
  String.eqb name "checks" = false ∧ String.eqb name "packages" = false
  ∧ String.eqb name "apps" = false ∧ String.eqb name "defaultPackage" = false
  ∧ String.eqb name "devShell" = false ∧ String.eqb name "defaultApp" = false
  ∧ String.eqb name "legacyPackages" = false ∧ String.eqb name "overlay" = false
  ∧ String.eqb name "overlays" = false ∧ String.eqb name "nixosModule" = false
  ∧ String.eqb name "nixosModules" = false
  ∧ String.eqb name "nixosConfigurations" = false
  ∧ String.eqb name "hydraJobs" = false.
Proof.
  unfold known_outputs. intros Hnot.
  repeat split; apply String.eqb_neq; intros ->; apply Hnot; repeat constructor.
Qed.

(** X3. An output whose name the callback has no branch for is not an
    error: once its value has evaluated, the callback logs one warning that
    names it and passes, whatever the value is. Its evaluation error, if
    any, is thrown all the same, since the value is forced before the name
    is looked at. *)
Theorem unknown_output_warns (name : string) (v : Value) (pos : Pos) (s : CheckState) :
  name ∉ known_outputs →
  let s1 := logged (StartActivity ("checking flake output '" +:+ name +:+ "'")) s in
  (forces v →
   checkFlakeOutput name v pos s
   = (logged (Warn ("unknown flake output '" +:+ name +:+ "'")) s1, Ok tt))
  ∧ (∀ e, v = VThunkFails e →
          checkFlakeOutput name v pos s
          = (s1, Throw (addPrefix (output_context name) e))).
Proof.
  intros Hnot s1.
  destruct (not_known_eqb name Hnot)
    as (E1 & E2 & E3 & E4 & E5 & E6 & E7 & E8 & E9 & E10 & E11 & E12 & E13).
  unfold checkFlakeOutput, bind at 1, emit. simpl. fold s1.
  unfold try_addPrefix, bind. rewrite forceValue_spec.
  rewrite E1, E2, E3, E4, E5, E6, E7, E8, E9, E10, E11, E12, E13. simpl.
  split.
  - intros Hforces. destruct v; try reflexivity. exfalso. eapply Hforces. reflexivity.
  - intros e ->. reflexivity.
Qed.

(** X4. [enumerateOutputs] before its loop: a flake value without an
    [outputs] attribute fails the assertion; a flake value or an [outputs]
    value that evaluates to something other than an attribute set is a type
    error; in all three cases the callback is not called. With an empty
    [outputs] the callback is not called either, and [run] passes without
    building anything. *)
Theorem enumerateOutputs_edges (callback : string → Value → Pos → M unit)
    (s : CheckState) :
  (∀ attrs,
     Bindings_get "outputs" attrs = None →
     enumerateOutputs (VAttrs attrs) callback s = (s, Crash))
  ∧ (∀ vFlake,
       forces vFlake → (∀ attrs, vFlake ≠ VAttrs attrs) →
       enumerateOutputs vFlake callback s
       = (s, Throw (mkError EmptyString
                      ("value is " +:+ showType vFlake +:+ " while a set was expected"))))
  ∧ (∀ attrs aOutputs,
       Bindings_get "outputs" attrs = Some aOutputs →
       forces (attr_value aOutputs) → (∀ outs, attr_value aOutputs ≠ VAttrs outs) →
       enumerateOutputs (VAttrs attrs) callback s
       = (s, Throw (mkError EmptyString
                      ("value is " +:+ showType (attr_value aOutputs)
                       +:+ " while a set was expected"))))
  ∧ (∀ attrs aOutputs,
       Bindings_get "outputs" attrs = Some aOutputs →
       attr_value aOutputs = VAttrs [] →
       enumerateOutputs (VAttrs attrs) callback s = (s, Ok tt))
  ∧ (∀ build attrs aOutputs,
       Bindings_get "outputs" attrs = Some aOutputs →
       attr_value aOutputs = VAttrs [] →
       run build (VAttrs attrs) s = (evaluating build s, Ok tt)).
Proof.
  split; [|split; [|split; [|split]]].
  - intros attrs Hget. unfold enumerateOutputs, bind. simpl. rewrite Hget. reflexivity.
  - intros vFlake Hforces Hattrs. unfold enumerateOutputs, bind.
    destruct vFlake; try reflexivity.
    + exfalso. eapply Hforces. reflexivity.
    + exfalso. eapply Hattrs. reflexivity.
  - intros attrs aOutputs Hget Hforces Hattrs. unfold enumerateOutputs, bind. simpl.
    rewrite Hget. destruct (attr_value aOutputs); try reflexivity.
    + exfalso. eapply Hforces. reflexivity.
    + exfalso. eapply Hattrs. reflexivity.
  - intros attrs aOutputs Hget Hval. unfold enumerateOutputs, bind. simpl.
    rewrite Hget, Hval. reflexivity.
  - intros build attrs aOutputs Hget Hval. rewrite run_unfold.
    rewrite (enumerateOutputs_attrs _ _ _ _ Hget Hval). simpl.
    rewrite andb_false_r. reflexivity.
Qed.


Lemma for_each_Ok_Forall {A} (P : A → Prop) (f : A → M unit) (l : list A) s s' :
  (∀ a s1 s2, f a s1 = (s2, Ok tt) → P a) →
  for_each f l s = (s', Ok tt) → Forall P l.
Proof.
  intros Hf. revert s. induction l as [|a l IH]; intros s; simpl; [constructor|].
  unfold bind. destruct (f a s) as [s1 [[]|e|]] eqn:Ha; try discriminate.
  intros Hrest. constructor; [eapply Hf, Ha|eapply IH, Hrest].
Qed.

Lemma checkSystemName_Ok system pos s s' :
  checkSystemName system pos s = (s', Ok tt) → contains_char "-" system.
Proof.
  unfold checkSystemName. intros Hrun. apply string_find_is_Some.
  destruct (string_find "-" system) as [i|]; [eauto|discriminate].
Qed.

Lemma checkDerivation_not_a_derivation attrPath v pos s :
  getDerivation v = Ok None →
  checkDerivation attrPath v pos s
  = (s, Throw (addPrefix (derivation_context attrPath pos)
                 (mkError EmptyString
                    ("flake attribute '" +:+ attrPath +:+ "' is not a derivation")))).
Proof. intros Hget. unfold checkDerivation, try_addPrefix, bind, call. rewrite Hget. reflexivity. Qed.

(** The bodies of the loops of the [packages] branch. *)
Lemma checkFlakeOutput_packages attrs pos s :
  checkFlakeOutput "packages" (VAttrs attrs) pos s
  = try_addPrefix (output_context "packages")
      (for_each (fun attr =>
         checkSystemName (attr_name attr) (attr_pos attr) ;;;
         forceAttrs (attr_value attr) (attr_pos attr) ;;;
         for_each (fun attr2 =>
           let* _ := checkDerivation (fmt3 "packages" (attr_name attr) (attr_name attr2))
                       (attr_value attr2) (attr_pos attr2) in
           ret tt) (attrs_of (attr_value attr))) attrs)
      (logged (StartActivity "checking flake output 'packages'") s).
Proof. reflexivity. Qed.

Lemma checkFlakeOutput_checks attrs pos s :
  checkFlakeOutput "checks" (VAttrs attrs) pos s
  = try_addPrefix (output_context "checks")
      (for_each (fun attr =>
         checkSystemName (attr_name attr) (attr_pos attr) ;;;
         forceAttrs (attr_value attr) (attr_pos attr) ;;;
         for_each (checks_entry "checks" attr) (attrs_of (attr_value attr))) attrs)
      (logged (StartActivity "checking flake output 'checks'") s).
Proof. reflexivity. Qed.

Lemma packages_entry_stateless name attr attr2 s1 s2 r1 :
  (let* _ := checkDerivation (fmt3 name (attr_name attr) (attr_name attr2))
               (attr_value attr2) (attr_pos attr2) in
   ret tt) s1 = (s2, r1) → s2 = s1.
Proof.
  unfold bind, ret.
  destruct (checkDerivation _ _ _ s1) as [s3 r3] eqn:Hd.
  apply checkDerivation_stateless in Hd as ->.
  destruct r3; intros [= <- _]; reflexivity.
Qed.

Lemma packages_entry_Ok name attr attr2 s :
  (let* _ := checkDerivation (fmt3 name (attr_name attr) (attr_name attr2))
               (attr_value attr2) (attr_pos attr2) in
   ret tt) s = (s, Ok tt) ↔ is_Some (drvPath_of (attr_value attr2)).
Proof.
  unfold bind, ret.
  destruct (checkDerivation _ _ _ s) as [s3 r3] eqn:Hd. split.
  - destruct r3 as [p|e|]; try discriminate. intros _.
    apply checkDerivation_inv in Hd as [_ Hp]. exists p. auto.
  - intros [p Hp]. rewrite (checkDerivation_Ok _ _ _ p s Hp) in Hd.
    injection Hd as <- <-. reflexivity.
Qed.

Lemma packages_system_stateless name attr s1 s2 r1 :
  (checkSystemName (attr_name attr) (attr_pos attr) ;;;
   forceAttrs (attr_value attr) (attr_pos attr) ;;;
   for_each (fun attr2 =>
     let* _ := checkDerivation (fmt3 name (attr_name attr) (attr_name attr2))
                 (attr_value attr2) (attr_pos attr2) in
     ret tt) (attrs_of (attr_value attr))) s1 = (s2, r1) → s2 = s1.
Proof.
  unfold bind at 1.
  destruct (checkSystemName _ _ s1) as [s3 r3] eqn:Hsys.
  apply checkSystemName_stateless in Hsys as ->.
  destruct r3 as [[]|e|]; try (intros [= <- _]; reflexivity).
  unfold bind at 1. rewrite forceAttrs_spec.
  destruct (attr_value attr); try (intros [= <- _]; reflexivity).
  apply for_each_stateless. intros a s3 s4 r4. apply packages_entry_stateless.
Qed.

Lemma packages_system_Ok name attr s :
  (checkSystemName (attr_name attr) (attr_pos attr) ;;;
   forceAttrs (attr_value attr) (attr_pos attr) ;;;
   for_each (fun attr2 =>
     let* _ := checkDerivation (fmt3 name (attr_name attr) (attr_name attr2))
                 (attr_value attr2) (attr_pos attr2) in
     ret tt) (attrs_of (attr_value attr))) s = (s, Ok tt)
  ↔ contains_char "-" (attr_name attr)
    ∧ ∃ attrs2, attr_value attr = VAttrs attrs2
                ∧ Forall (fun attr2 => is_Some (drvPath_of (attr_value attr2))) attrs2.
Proof.
  unfold bind at 1. split.
  - destruct (checkSystemName _ _ s) as [s3 [[]|e|]] eqn:Hsys; try discriminate.
    pose proof (checkSystemName_stateless _ _ _ _ _ Hsys) as ->.
    apply checkSystemName_Ok in Hsys. unfold bind at 1. rewrite forceAttrs_spec.
    destruct (attr_value attr) as [e|n|str c|attrs2|arg m ell body|]; try discriminate.
    simpl. intros Hloop. split; [exact Hsys|]. exists attrs2. split; [reflexivity|].
    apply for_each_stateless_Ok in Hloop.
    + eapply Forall_impl; [exact Hloop|]. intros a Ha. apply packages_entry_Ok in Ha. exact Ha.
    + intros a s3 s4 r4. apply packages_entry_stateless.
  - intros (Hsys & attrs2 & Hval & Hall).
    rewrite (proj2 (checkSystemName_spec _ (attr_pos attr) s) Hsys).
    unfold bind at 1. rewrite forceAttrs_spec, Hval. simpl.
    apply for_each_stateless_Ok.
    + intros a s3 s4 r4. apply packages_entry_stateless.
    + eapply Forall_impl; [exact Hall|]. intros a Ha. apply packages_entry_Ok, Ha.
Qed.

Lemma checks_entry_Ok name attr attr2 s s' :
  checks_entry name attr attr2 s = (s', Ok tt) → is_Some (drvPath_of (attr_value attr2)).
Proof.
  unfold checks_entry, bind.
  destruct (checkDerivation _ _ _ s) as [s3 [p|e|]] eqn:Hd; try discriminate.
  intros _. apply checkDerivation_inv in Hd as [_ Hp]. exists p. auto.
Qed.

(** X5. The [packages] branch and the [checks] branch pass on the same
    outputs: those whose keys all have a hyphen, whose values are attribute
    sets and whose second-level values are all derivation-shaped. In
    [packages] the first value that is not a derivation, after entries that
    pass, is the error that names its attribute path, in the context of the
    derivation and of the output. *)
Theorem packages_and_checks_accept (attrs : list Attr) (pos : Pos) (s : CheckState) :
  ((∃ s', checkFlakeOutput "packages" (VAttrs attrs) pos s = (s', Ok tt))
   ↔ derivations_by_system attrs)
  ∧ ((∃ s', checkFlakeOutput "checks" (VAttrs attrs) pos s = (s', Ok tt))
     ↔ derivations_by_system attrs)
  ∧ (∀ pre sys sysPos pre2 n v p post2 post,
       attrs = pre ++ mkAttr sys (VAttrs (pre2 ++ mkAttr n v p :: post2)) sysPos :: post →
       derivations_by_system pre → contains_char "-" sys →
       Forall (fun attr2 => is_Some (drvPath_of (attr_value attr2))) pre2 →
       getDerivation v = Ok None →
       checkFlakeOutput "packages" (VAttrs attrs) pos s
       = (logged (StartActivity "checking flake output 'packages'") s,
          Throw (addPrefix (output_context "packages")
                   (addPrefix (derivation_context (fmt3 "packages" sys n) p)
                      (mkError EmptyString
                         ("flake attribute '" +:+ fmt3 "packages" sys n
                          +:+ "' is not a derivation")))))).
Proof.
  split; [|split].
  - rewrite checkFlakeOutput_packages. split.
    + intros [s' Hrun]. apply try_addPrefix_Ok in Hrun.
      pose proof (for_each_stateless _ _ _ _ _ (packages_system_stateless "packages") Hrun)
        as ->.
      apply for_each_stateless_Ok in Hrun; [|apply packages_system_stateless].
      eapply Forall_impl; [exact Hrun|]. intros a Ha. apply packages_system_Ok in Ha. exact Ha.
    + intros Hall. eexists. apply try_addPrefix_Ok.
      apply for_each_stateless_Ok; [apply packages_system_stateless|].
      eapply Forall_impl; [exact Hall|]. intros a Ha. apply packages_system_Ok, Ha.
  - split.
    + rewrite checkFlakeOutput_checks. intros [s' Hrun]. apply try_addPrefix_Ok in Hrun.
      eapply for_each_Ok_Forall; [|exact Hrun]. clear Hrun.
      intros attr s1 s2. unfold bind at 1.
      destruct (checkSystemName _ _ s1) as [s3 [[]|e|]] eqn:Hsys; try discriminate.
      apply checkSystemName_Ok in Hsys. unfold bind at 1.
      destruct (forceAttrs _ _ s3) as [s4 r4] eqn:Hforce. rewrite forceAttrs_spec in Hforce.
      destruct (attr_value attr) as [e|n|str c|attrs2|arg m ell body|];
        injection Hforce as <- <-; try discriminate.
      simpl. intros Hloop. split; [exact Hsys|]. exists attrs2. split; [reflexivity|].
      eapply for_each_Ok_Forall; [|exact Hloop].
      intros a s5 s6. apply checks_entry_Ok.
    + intros Hall. eexists. rewrite checkFlakeOutput_checks. apply try_addPrefix_Ok.
      apply checks_outer_loop, Hall.
  - intros pre sys sysPos pre2 n v p post2 post -> Hpre Hsys Hpre2 Hnot.
    rewrite checkFlakeOutput_packages. apply try_addPrefix_Throw.
    apply for_each_stateless_first; [apply packages_system_stateless| | |discriminate].
    + eapply Forall_impl; [exact Hpre|]. intros a Ha. apply packages_system_Ok, Ha.
    + simpl. unfold bind at 1.
      rewrite (proj2 (checkSystemName_spec sys sysPos _) Hsys).
      unfold bind at 1. rewrite forceAttrs_spec. simpl.
      apply for_each_stateless_first;
        [intros a s3 s4 r4; apply (packages_entry_stateless "packages"
                                     (mkAttr sys (VAttrs (pre2 ++ mkAttr n v p :: post2)) sysPos))
        | | |discriminate].
      * eapply Forall_impl; [exact Hpre2|]. intros a Ha.
        apply (packages_entry_Ok "packages"
                 (mkAttr sys (VAttrs (pre2 ++ mkAttr n v p :: post2)) sysPos)), Ha.
      * unfold bind. simpl. rewrite (checkDerivation_not_a_derivation _ v p _ Hnot).
        reflexivity.
Qed.


Lemma checkFlakeOutput_defaultPackage name attrs pos s :
  name ∈ ["defaultPackage"; "devShell"] →
  checkFlakeOutput name (VAttrs attrs) pos s
  = try_addPrefix (output_context name)
      (for_each (fun attr =>
         checkSystemName (attr_name attr) (attr_pos attr) ;;;
         let* _ := checkDerivation (fmt2 name (attr_name attr))
                     (attr_value attr) (attr_pos attr) in
         ret tt) attrs)
      (logged (StartActivity ("checking flake output '" +:+ name +:+ "'")) s).
Proof.
  intros Hin. rewrite !elem_of_cons, elem_of_nil in Hin.
  destruct Hin as [->|[->|[]]]; reflexivity.
Qed.

Lemma defaultPackage_entry_stateless name attr s1 s2 r1 :
  (checkSystemName (attr_name attr) (attr_pos attr) ;;;
   let* _ := checkDerivation (fmt2 name (attr_name attr))
               (attr_value attr) (attr_pos attr) in
   ret tt) s1 = (s2, r1) → s2 = s1.
Proof.
  unfold bind at 1.
  destruct (checkSystemName _ _ s1) as [s3 r3] eqn:Hsys.
  apply checkSystemName_stateless in Hsys as ->.
  destruct r3 as [[]|e|]; try (intros [= <- _]; reflexivity).
  unfold bind, ret. destruct (checkDerivation _ _ _ s1) as [s3 r3] eqn:Hd.
  apply checkDerivation_stateless in Hd as ->.
  destruct r3; intros [= <- _]; reflexivity.
Qed.

Lemma defaultPackage_entry_Ok name attr s :
  (checkSystemName (attr_name attr) (attr_pos attr) ;;;
   let* _ := checkDerivation (fmt2 name (attr_name attr))
               (attr_value attr) (attr_pos attr) in
   ret tt) s = (s, Ok tt)
  ↔ contains_char "-" (attr_name attr) ∧ is_Some (drvPath_of (attr_value attr)).
Proof.
  unfold bind at 1. split.
  - destruct (checkSystemName _ _ s) as [s3 [[]|e|]] eqn:Hsys; try discriminate.
    pose proof (checkSystemName_stateless _ _ _ _ _ Hsys) as ->.
    apply checkSystemName_Ok in Hsys. unfold bind, ret.
    destruct (checkDerivation _ _ _ s) as [s3 [p|e|]] eqn:Hd; try discriminate.
    intros _. apply checkDerivation_inv in Hd as [_ Hp]. split; [exact Hsys|]. exists p. auto.
  - intros (Hsys & p & Hp).
    rewrite (proj2 (checkSystemName_spec _ (attr_pos attr) s) Hsys).
    unfold bind, ret. rewrite (checkDerivation_Ok _ _ _ p s Hp). reflexivity.
Qed.

(** X6. The branch of [defaultPackage] and [devShell] never changes
    [drvPaths] and passes exactly when every key has a hyphen and every
    value is derivation-shaped. The first value that is not a derivation,
    after entries that pass, is the error that names [<output>.<system>]. *)
Theorem defaultPackage_accepts (name : string) (attrs : list Attr) (pos : Pos)
    (s : CheckState) :
  name ∈ ["defaultPackage"; "devShell"] →
  let s1 := logged (StartActivity ("checking flake output '" +:+ name +:+ "'")) s in
  (∀ s' r, checkFlakeOutput name (VAttrs attrs) pos s = (s', r) → s' = s1)
  ∧ (checkFlakeOutput name (VAttrs attrs) pos s = (s1, Ok tt)
     ↔ Forall (fun attr => contains_char "-" (attr_name attr)
                           ∧ is_Some (drvPath_of (attr_value attr))) attrs)
  ∧ (∀ pre sys v p post,
       attrs = pre ++ mkAttr sys v p :: post →
       Forall (fun attr => contains_char "-" (attr_name attr)
                           ∧ is_Some (drvPath_of (attr_value attr))) pre →
       contains_char "-" sys → getDerivation v = Ok None →
       checkFlakeOutput name (VAttrs attrs) pos s
       = (s1, Throw (addPrefix (output_context name)
                       (addPrefix (derivation_context (fmt2 name sys) p)
                          (mkError EmptyString
                             ("flake attribute '" +:+ fmt2 name sys
                              +:+ "' is not a derivation")))))).
Proof.
  intros Hin s1. rewrite (checkFlakeOutput_defaultPackage name attrs pos s Hin). fold s1.
  split; [|split].
  - intros s' r. unfold try_addPrefix.
    destruct (for_each _ attrs s1) as [s2 r2] eqn:Hloop.
    apply for_each_stateless in Hloop as ->;
      [|intros a s3 s4 r4; apply defaultPackage_entry_stateless].
    destruct r2; intros [= <- _]; reflexivity.
  - rewrite try_addPrefix_Ok.
    rewrite for_each_stateless_Ok;
      [|intros a s3 s4 r4; apply defaultPackage_entry_stateless].
    apply Forall_iff. intros a. apply defaultPackage_entry_Ok.
  - intros pre sys v p post -> Hpre Hsys Hnot. apply try_addPrefix_Throw.
    apply for_each_stateless_first;
      [intros a s3 s4 r4; apply defaultPackage_entry_stateless| | |discriminate].
    + eapply Forall_impl; [exact Hpre|]. intros a Ha. apply defaultPackage_entry_Ok, Ha.
    + unfold bind at 1. simpl.
      rewrite (proj2 (checkSystemName_spec sys p s1) Hsys).
      unfold bind. rewrite (checkDerivation_not_a_derivation _ v p s1 Hnot). reflexivity.
Qed.

(** X7. The [legacyPackages] branch looks at the keys only: two outputs
    with the same keys at the same positions give the same outcome, whatever
    their values are, values whose evaluation fails included. *)
Theorem legacyPackages_ignores_values (attrs attrs' : list Attr) (pos : Pos)
    (s : CheckState) :
  same_keys attrs attrs' →
  checkFlakeOutput "legacyPackages" (VAttrs attrs) pos s
  = checkFlakeOutput "legacyPackages" (VAttrs attrs') pos s.
Proof.
  intros Hsame.
  change (checkFlakeOutput "legacyPackages" (VAttrs attrs) pos s)
    with (try_addPrefix (output_context "legacyPackages")
            (for_each (fun attr => checkSystemName (attr_name attr) (attr_pos attr)) attrs)
            (logged (StartActivity "checking flake output 'legacyPackages'") s)).
  change (checkFlakeOutput "legacyPackages" (VAttrs attrs') pos s)
    with (try_addPrefix (output_context "legacyPackages")
            (for_each (fun attr => checkSystemName (attr_name attr) (attr_pos attr)) attrs')
            (logged (StartActivity "checking flake output 'legacyPackages'") s)).
  unfold try_addPrefix.
  assert (∀ s0, for_each (fun attr => checkSystemName (attr_name attr) (attr_pos attr))
                  attrs s0
                = for_each (fun attr => checkSystemName (attr_name attr) (attr_pos attr))
                    attrs' s0) as Heq.
  { induction Hsame as [|a a' l l' [Hname Hpos] _ IH]; intros s0; [reflexivity|].
    simpl. unfold bind. rewrite Hname, Hpos.
    destruct (checkSystemName (attr_name a') (attr_pos a') s0) as [s1 [[]|e|]];
      auto. }
  rewrite Heq. reflexivity.
Qed.

(** X8. [run] calls [buildPaths] at most once, and only with [build], after
    an evaluation that passed, on a non-empty [drvPaths]; what [run] returns
    is then what [buildPaths] returns. An evaluation that throws is what
    [run] throws, an evaluation that passes with nothing collected makes
    [run] pass, and in both cases nothing is built. *)
Theorem run_builds_at_most_once (build : bool) (vFlake : Value) (s : CheckState) :
  (∀ s' r,
     run build vFlake s = (s', r) →
     ∃ evs, trace s' = trace s ++ evs
            ∧ (build_calls evs = [] ∨ build_calls evs = [drvPaths s'])
            ∧ (build_calls evs ≠ [] →
               build = true ∧ drvPaths s' ≠ [] ∧ r = buildPaths (drvPaths s')))
  ∧ (∀ s1 e,
       enumerateOutputs vFlake checkFlakeOutput (evaluating build s) = (s1, Throw e) →
       run build vFlake s = (s1, Throw e))
  ∧ (∀ s1,
       enumerateOutputs vFlake checkFlakeOutput (evaluating build s) = (s1, Ok tt) →
       drvPaths s1 = [] →
       run build vFlake s = (s1, Ok tt)).
Proof.
  split; [|split].
  - intros s' r. rewrite run_unfold.
    destruct (enumerateOutputs vFlake checkFlakeOutput (evaluating build s))
      as [s1 r1] eqn:Heval.
    apply evaluation_logs_only in Heval as [_ (evs & Htrace & Hlog)].
    pose proof (build_calls_log _ Hlog) as Hnone.
    assert (build_calls (SetReadOnlyMode (negb build) :: evs) = []) as Hquiet.
    { exact Hnone. }
    destruct r1 as [[]|e|].
    2,3: intros [= <- _]; exists (SetReadOnlyMode (negb build) :: evs);
         split; [exact Htrace|]; split; [left; exact Hquiet|];
         intros Hcalls; contradiction.
    destruct (build && negb (vector_empty (drvPaths s1))) eqn:Hbuild; intros [= <- <-].
    + apply andb_true_iff in Hbuild as [-> Hne].
      exists (SetReadOnlyMode false :: evs
              ++ [StartActivity "running flake checks"; BuildPaths (drvPaths s1)]).
      simpl. rewrite Htrace. split; [rewrite <- !app_assoc; reflexivity|].
      assert (build_calls (SetReadOnlyMode false :: evs
                           ++ [StartActivity "running flake checks";
                               BuildPaths (drvPaths s1)]) = [drvPaths s1]) as Hcalls.
      { change (build_calls (evs ++ [StartActivity "running flake checks";
                                     BuildPaths (drvPaths s1)]) = [drvPaths s1]).
        rewrite build_calls_app, Hnone. reflexivity. }
      split; [right; exact Hcalls|]. intros _. split; [reflexivity|]. split; [|reflexivity].
      destruct (drvPaths s1); [discriminate|discriminate].
    + exists (SetReadOnlyMode (negb build) :: evs).
      split; [exact Htrace|]. split; [left; exact Hquiet|]. intros Hcalls. contradiction.
  - intros s1 e Heval. rewrite run_unfold, Heval. reflexivity.
  - intros s1 Heval Hempty. rewrite run_unfold, Heval, Hempty. simpl.
    rewrite andb_false_r. reflexivity.
Qed.


Lemma check_each_unfold check name attrs pos s :
  check_each check name (VAttrs attrs) pos s
  = for_each (fun attr =>
      check (fmt2 name (attr_name attr)) (attr_value attr) (attr_pos attr)) attrs s.
Proof. reflexivity. Qed.

(** X9. The [overlays] branch passes exactly when every attribute has the
    shape [final: prev: ...], and the [nixosModules] branch exactly when
    every attribute is a function of an open attribute set pattern or an
    attribute set whose members evaluate; neither changes [drvPaths]. An
    overlay that is a function of another argument, after overlays that
    pass, is the error about [final] in the context of
    [overlays.<name>]. *)
Theorem overlays_and_modules_accept (attrs : list Attr) (pos : Pos) (s : CheckState) :
  (checkFlakeOutput "overlays" (VAttrs attrs) pos s
   = (logged (StartActivity "checking flake output 'overlays'") s, Ok tt)
   ↔ Forall (fun attr => overlay_shaped (attr_value attr)) attrs)
  ∧ (checkFlakeOutput "nixosModules" (VAttrs attrs) pos s
     = (logged (StartActivity "checking flake output 'nixosModules'") s, Ok tt)
     ↔ Forall (fun attr => module_shaped (attr_value attr)) attrs)
  ∧ (∀ name s' r,
       name ∈ ["overlays"; "nixosModules"] →
       checkFlakeOutput name (VAttrs attrs) pos s = (s', r) →
       s' = logged (StartActivity ("checking flake output '" +:+ name +:+ "'")) s)
  ∧ (∀ pre n arg m ell body p post,
       attrs = pre ++ mkAttr n (VLambda arg m ell body) p :: post →
       Forall (fun attr => overlay_shaped (attr_value attr)) pre →
       m = true ∨ arg ≠ "final" →
       checkFlakeOutput "overlays" (VAttrs attrs) pos s
       = (logged (StartActivity "checking flake output 'overlays'") s,
          Throw (addPrefix (output_context "overlays")
                   (addPrefix (overlay_context (fmt2 "overlays" n) p)
                      (mkError EmptyString
                         "overlay does not take an argument named 'final'"))))).
Proof.
  assert (checkFlakeOutput "overlays" (VAttrs attrs) pos s
                = try_addPrefix (output_context "overlays")
                    (check_each checkOverlay "overlays" (VAttrs attrs) pos)
                    (logged (StartActivity "checking flake output 'overlays'") s))
    as Hoverlays by reflexivity.
  assert (checkFlakeOutput "nixosModules" (VAttrs attrs) pos s
                = try_addPrefix (output_context "nixosModules")
                    (check_each checkModule "nixosModules" (VAttrs attrs) pos)
                    (logged (StartActivity "checking flake output 'nixosModules'") s))
    as Hmodules by reflexivity.
  split; [|split; [|split]].
  - rewrite Hoverlays, try_addPrefix_Ok, check_each_unfold.
    rewrite for_each_stateless_Ok; [|intros a s1 s2 r1; apply checkOverlay_stateless].
    apply Forall_iff. intros a. apply checkOverlay_Ok.
  - rewrite Hmodules, try_addPrefix_Ok, check_each_unfold.
    rewrite for_each_stateless_Ok; [|intros a s1 s2 r1; apply checkModule_stateless].
    apply Forall_iff. intros a. apply checkModule_Ok.
  - intros name s' r Hin. rewrite !elem_of_cons, elem_of_nil in Hin.
    destruct Hin as [->|[->|[]]].
    + rewrite Hoverlays. unfold try_addPrefix. rewrite check_each_unfold.
      destruct (for_each _ attrs _) as [s2 r2] eqn:Hloop.
      apply for_each_stateless in Hloop as ->;
        [|intros a s3 s4 r4; apply checkOverlay_stateless].
      destruct r2; intros [= <- _]; reflexivity.
    + rewrite Hmodules. unfold try_addPrefix. rewrite check_each_unfold.
      destruct (for_each _ attrs _) as [s2 r2] eqn:Hloop.
      apply for_each_stateless in Hloop as ->;
        [|intros a s3 s4 r4; apply checkModule_stateless].
      destruct r2; intros [= <- _]; reflexivity.
  - intros pre n arg m ell body p post Hattrs Hpre Hbad.
    rewrite Hoverlays, Hattrs. apply try_addPrefix_Throw. rewrite check_each_unfold.
    apply for_each_stateless_first;
      [intros a s1 s2 r1; apply checkOverlay_stateless| | |discriminate].
    + eapply Forall_impl; [exact Hpre|]. intros a Ha. apply checkOverlay_Ok, Ha.
    + simpl. unfold checkOverlay, try_addPrefix, bind. rewrite forceValue_spec.
      destruct m; simpl; [reflexivity|].
      destruct Hbad as [Hm|Harg]; [discriminate|].
      apply String.eqb_neq in Harg. rewrite Harg. reflexivity.
Qed.

(** X10. Below [hydraJobs] every attribute has to be an attribute set: an
    attribute that evaluates to anything else, after attributes that pass,
    is the type error of [forceAttrs] at the position of that attribute, in
    the context of the jobset that holds it. *)
Theorem hydraJobs_attribute_not_a_set (attrPath : string) (pos : Pos) (s : CheckState)
    (pre post : list Attr) (n : string) (v : Value) (p : Pos) :
  isDerivation (VAttrs (pre ++ mkAttr n v p :: post)) = Ok false →
  for_each (checkHydraJobs_attr attrPath) pre s = (s, Ok tt) →
  forces v → (∀ attrs, v ≠ VAttrs attrs) →
  checkHydraJobs attrPath (VAttrs (pre ++ mkAttr n v p :: post)) pos s
  = (s, Throw (addPrefix (jobset_context attrPath pos)
                 (mkError EmptyString (not_a_set v p)))).
Proof.
  intros Hset Hpre Hforces Hattrs.
  rewrite (checkHydraJobs_attrs attrPath _ pos s Hset).
  apply try_addPrefix_Throw.
  eapply for_each_throw_at; [exact Hpre| |discriminate].
  unfold checkHydraJobs_attr, bind. simpl. rewrite forceAttrs_spec.
  destruct v; try reflexivity.
  - exfalso. eapply Hforces. reflexivity.
  - exfalso. eapply Hattrs. reflexivity.
Qed.

Lemma checkApp_loop_exact (ctx : list string) s :
  context_parses ctx →
  for_each (fun i =>
    let '(drvPathS, outputName) := decodeContext i in
    let* drvPath := call (parseStorePath drvPathS) in
    if negb (String.eqb outputName EmptyString) && StorePath_isDerivation drvPath
    then drvPaths_emplace_back drvPath
    else ret tt) ctx s
  = (collected (context_drvPaths ctx) s, Ok tt).
Proof.
  intros Hall. revert s. induction Hall as [|i ctx [p Hp] _ IH]; intros s.
  - simpl. rewrite collected_nil. reflexivity.
  - simpl. unfold bind at 1. unfold context_drvPaths. simpl.
    destruct (decodeContext i) as [drvPathS outputName] eqn:Hdec. simpl in *.
    rewrite Hp. unfold bind at 1, call.
    destruct (negb (String.eqb outputName EmptyString) && StorePath_isDerivation p).
    + unfold drvPaths_emplace_back. fold (collected [p] s). rewrite IH.
      f_equal. symmetry. apply (collected_app [p]).
    + unfold ret. apply IH.
Qed.

(** X11. On an app definition that [App] accepts and whose context entries
    all parse as store paths, [checkApp] passes and appends to [drvPaths]
    the entries that name an output of a derivation, in the order of the
    context and with repetitions; an app definition that [App] rejects is
    that error in the context of the app, with [drvPaths] as it was. *)
Theorem checkApp_collects (attrPath : string) (v : Value) (pos : Pos) (s : CheckState) :
  (∀ app,
     App_of v = Ok app → context_parses (context app) →
     checkApp attrPath v pos s = (collected (context_drvPaths (context app)) s, Ok tt))
  ∧ (∀ e,
       App_of v = Throw e →
       checkApp attrPath v pos s
       = (s, Throw (addPrefix
                      ("while checking the app definition '" +:+ ANSI_BOLD +:+ attrPath
                       +:+ ANSI_NORMAL +:+ "' at " +:+ showPos pos +:+ ":" +:+ nl) e))).
Proof.
  split.
  - intros app Happ Hctx. pose proof (checkApp_loop_exact _ s Hctx) as Hloop.
    unfold checkApp, try_addPrefix, bind at 1, call at 1. rewrite Happ.
    rewrite Hloop. reflexivity.
  - intros e Happ. unfold checkApp, try_addPrefix, bind at 1, call. rewrite Happ.
    reflexivity.
Qed.

End CheckerMore.

(* ===================================================================== *)
(** * The callback as a whole: what it collects, logs and accepts *)
(* ===================================================================== *)

Section CallbackClaims.
Context `{EvalState} `{Store} `{Settings}.

Lemma checkFlakeOutput_unfold name v pos s :
  checkFlakeOutput name v pos s
  = try_addPrefix (output_context name) (checkFlakeOutput_try name v pos)
      (logged (output_activity name) s).
Proof. reflexivity. Qed.

#[local] Instance collects_only_preorder Q : PreOrder (collects_only Q).
Proof.
  split.
  - intros s. exists []. simpl. rewrite app_nil_r. auto.
  - intros s1 s2 s3 (ps1 & H12 & Hq1) (ps2 & H23 & Hq2). exists (ps1 ++ ps2).
    rewrite H23, H12, map_app, app_assoc. split; [reflexivity|].
    apply Forall_app; auto.
Qed.

Lemma collects_only_logged Q ev s : is_log ev → collects_only Q s (logged ev s).
Proof. intros _. exists []. simpl. rewrite app_nil_r. auto. Qed.

Lemma collects_only_mono (Q Q' : StorePath → Prop) {A} (m : M A) :
  (∀ p, Q p → Q' p) →
  preserves (collects_only Q) m → preserves (collects_only Q') m.
Proof.
  intros Hsub Hm s s' r Hrun. destruct (Hm s s' r Hrun) as (ps & Hps & Hq).
  exists ps. split; [exact Hps|]. eapply Forall_impl; [exact Hq|]. exact Hsub.
Qed.

Lemma checkApp_collects_only attrPath v pos :
  preserves (collects_only (app_reference v)) (checkApp attrPath v pos).
Proof.
  intros s s' r. unfold checkApp, try_addPrefix, bind at 1, call.
  destruct (App_of v) as [app|e|] eqn:Happ; try (intros [= <- _]; reflexivity).
  intros Hrun.
  destruct (for_each _ (context app) s) as [s1 r1] eqn:Hloop.
  apply checkApp_loop_inv in Hloop as (ps & -> & Hps).
  assert (s' = collected ps s) as -> by (destruct r1; congruence).
  exists ps. split; [reflexivity|].
  eapply Forall_impl; [exact Hps|]. intros p (i & Hi). exists app, i. tauto.
Qed.

Lemma checks_entry_collects_only name attr attr2 :
  preserves
    (collects_only (fun p => attr_name attr = thisSystem
                             ∧ drvPath_of (attr_value attr2) = Some p))
    (checks_entry name attr attr2).
Proof.
  intros s s' r. unfold checks_entry, bind.
  destruct (checkDerivation _ (attr_value attr2) (attr_pos attr2) s) as [s1 [p|e|]] eqn:Hd;
    apply checkDerivation_inv in Hd as [-> Hp]; try (intros [= <- _]; reflexivity).
  destruct (String.eqb_spec (attr_name attr) thisSystem) as [Hsys|Hsys].
  - intros [= <- _]. exists [p]. split; [reflexivity|].
    constructor; [|constructor]. split; [exact Hsys|]. apply Hp. reflexivity.
  - intros [= <- _]. reflexivity.
Qed.

Lemma check_checks_collects_only name v pos :
  preserves (collects_only (from_checks v)) (check_checks name v pos).
Proof.
  unfold check_checks. set (R := collects_only (from_checks v)).
  apply (preserves_bind R); [apply preserves_forceAttrs; apply _|]. intros _.
  apply (preserves_for_each R), Forall_forall. intros attr Hattr.
  apply (preserves_bind R); [apply preserves_checkSystemName; apply _|]. intros _.
  apply (preserves_bind R); [apply preserves_forceAttrs; apply _|]. intros _.
  apply (preserves_for_each R), Forall_forall. intros attr2 Hattr2.
  eapply collects_only_mono; [|apply checks_entry_collects_only].
  intros p [Hsys Hp]. exists attr, attr2. auto.
Qed.

Lemma check_apps_collects_only name v pos :
  preserves (collects_only (from_apps v)) (check_apps name v pos).
Proof.
  unfold check_apps. set (R := collects_only (from_apps v)).
  apply (preserves_bind R); [apply preserves_forceAttrs; apply _|]. intros _.
  apply (preserves_for_each R), Forall_forall. intros attr Hattr.
  apply (preserves_bind R); [apply preserves_checkSystemName; apply _|]. intros _.
  apply (preserves_bind R); [apply preserves_forceAttrs; apply _|]. intros _.
  apply (preserves_for_each R), Forall_forall. intros attr2 Hattr2.
  eapply collects_only_mono; [|apply checkApp_collects_only].
  intros p Hp. exists attr, attr2. auto.
Qed.

Lemma check_defaultApp_collects_only name v pos :
  preserves (collects_only (from_defaultApp v)) (check_defaultApp name v pos).
Proof.
  unfold check_defaultApp. set (R := collects_only (from_defaultApp v)).
  apply (preserves_bind R); [apply preserves_forceAttrs; apply _|]. intros _.
  apply (preserves_for_each R), Forall_forall. intros attr Hattr.
  apply (preserves_bind R); [apply preserves_checkSystemName; apply _|]. intros _.
  eapply collects_only_mono; [|apply checkApp_collects_only].
  intros p Hp. exists attr. auto.
Qed.

(** What the callback adds to [drvPaths], for every output name and every
    value, whether it passes or throws. *)
Lemma checkFlakeOutput_collects_only name v pos :
  preserves (collects_only (collectable name v)) (checkFlakeOutput name v pos).
Proof.
  destruct (decide (name ∈ collecting)) as [Hin|Hnot].
  - unfold collecting in Hin. rewrite !elem_of_cons, elem_of_nil in Hin.
    intros s s' r. rewrite checkFlakeOutput_unfold. intros Hrun.
    assert (collects_only (collectable name v) (logged (output_activity name) s) s')
      as Hgrow.
    { revert Hrun. apply (preserves_try (collects_only (collectable name v))).
      unfold checkFlakeOutput_try.
      apply (preserves_bind (collects_only (collectable name v)));
        [apply preserves_forceValue; apply _|]. intros _.
      destruct Hin as [->|[->|[->|[]]]].
      + apply (collects_only_mono (from_checks v)); [intros p Hp; left; auto|].
        apply (check_checks_collects_only "checks" v pos).
      + apply (collects_only_mono (from_apps v)); [intros p Hp; right; left; auto|].
        apply (check_apps_collects_only "apps" v pos).
      + apply (collects_only_mono (from_defaultApp v)); [intros p Hp; right; right; auto|].
        apply (check_defaultApp_collects_only "defaultApp" v pos). }
    destruct Hgrow as (ps & Hps & Hq). exists ps. split; [exact Hps|exact Hq].
  - apply (preserves_checkFlakeOutput (collects_only (collectable name v))).
    + intros ev s. apply collects_only_logged.
    + intros Hin. contradiction.
Qed.

Lemma enumerateOutputs_collects_only vFlake :
  preserves
    (collects_only (fun p => ∃ attr, attr ∈ flake_outputs vFlake
                                     ∧ collectable (attr_name attr) (attr_value attr) p))
    (enumerateOutputs vFlake checkFlakeOutput).
Proof.
  set (R := collects_only _). unfold enumerateOutputs.
  apply (preserves_bind R); [apply preserves_forceAttrs0; apply _|]. intros _.
  destruct (Bindings_get "outputs" (attrs_of vFlake)) as [aOutputs|] eqn:Hget;
    [|apply (preserves_call R)].
  apply (preserves_bind R); [apply preserves_forceAttrs0; apply _|]. intros _.
  apply (preserves_for_each R), Forall_forall. intros attr Hattr.
  eapply collects_only_mono; [|apply checkFlakeOutput_collects_only].
  intros p Hp. exists attr. split; [|exact Hp].
  unfold flake_outputs. rewrite Hget. exact Hattr.
Qed.

(** C10. The branches for [packages], [defaultPackage] and [devShell], and
    every branch other than [checks], [apps] and [defaultApp], leave
    [drvPaths] as it is, whether they pass or throw, also for derivations
    under the current system. What is appended comes from an app
    definition, as the context entries that name an output of a derivation,
    or from a [checks] entry under the current system, as the path that
    [checkDerivation] returned: this holds of [checkApp] and of the body of
    the [checks] loop, of the callback for every output name and every
    value, and of [run], at whose end every element of [drvPaths] is such a
    path of an output named [checks], [apps] or [defaultApp]. *)
Theorem only_checks_and_apps_collect (v : Value) (pos : Pos) (s : CheckState) :
  (∀ name s' r,
     name ∈ ["packages"; "defaultPackage"; "devShell"] →
     checkFlakeOutput name v pos s = (s', r) → drvPaths s' = drvPaths s)
  ∧ (∀ name s' r,
       name ∉ collecting →
       checkFlakeOutput name v pos s = (s', r) → drvPaths s' = drvPaths s)
  ∧ (∀ attrPath s' r,
       checkApp attrPath v pos s = (s', r) →
       ∃ ps, s' = collected ps s ∧
             Forall (fun p => ∃ app i, App_of v = Ok app ∧ i ∈ context app ∧
                                       parseStorePath (decodeContext i).1 = Ok p ∧
                                       (decodeContext i).2 ≠ EmptyString ∧
                                       StorePath_isDerivation p = true) ps)
  ∧ (∀ name attr attr2 s' r,
       checks_entry name attr attr2 s = (s', r) →
       s' = s
       ∨ (attr_name attr = thisSystem ∧
          ∃ p, drvPath_of (attr_value attr2) = Some p ∧ s' = collected [p] s))
  ∧ (∀ name s' r,
       checkFlakeOutput name v pos s = (s', r) →
       ∃ ps, drvPaths s' = drvPaths s ++ map (fun p => mkSPWO p []) ps
             ∧ Forall (collectable name v) ps)
  ∧ (∀ build vFlake s0 s' r,
       run build vFlake s0 = (s', r) →
       ∃ ps, drvPaths s' = map (fun p => mkSPWO p []) ps
             ∧ Forall (fun p => ∃ attr, attr ∈ flake_outputs vFlake
                                        ∧ collectable (attr_name attr) (attr_value attr) p)
                      ps).
Proof.
  assert (∀ name s' r,
            name ∉ collecting →
            checkFlakeOutput name v pos s = (s', r) → drvPaths s' = drvPaths s) as Hother.
  { intros name s' r Hnot Hrun.
    refine (preserves_checkFlakeOutput same_drvPaths same_drvPaths_logged name v pos _
              s s' r Hrun).
    intros Hin. contradiction. }
  split; [|split; [exact Hother|split; [|split; [|split]]]].
  - intros name s' r Hin. apply Hother. unfold collecting.
    rewrite !elem_of_cons, elem_of_nil in Hin |- *.
    destruct Hin as [->|[->|[->|[]]]]; intros [Heq|[Heq|[Heq|[]]]]; discriminate.
  - intros attrPath s' r. unfold checkApp, try_addPrefix, bind at 1, call.
    destruct (App_of v) as [app|e|] eqn:Happ;
      try (intros [= <- _]; exists []; rewrite collected_nil; auto).
    intros Hrun.
    destruct (for_each _ (context app) s) as [s1 r1] eqn:Hloop.
    apply checkApp_loop_inv in Hloop as (ps & -> & Hps).
    assert (s' = collected ps s) as -> by (destruct r1; congruence).
    exists ps. split; [reflexivity|].
    eapply Forall_impl; [exact Hps|]. intros p (i & Hi). exists app, i. tauto.
  - intros name attr attr2 s' r. unfold checks_entry, bind.
    destruct (checkDerivation _ (attr_value attr2) (attr_pos attr2) s) as [s1 [p|e|]] eqn:Hd;
      apply checkDerivation_inv in Hd as [-> Hp]; try (intros [= <- _]; left; reflexivity).
    destruct (String.eqb_spec (attr_name attr) thisSystem) as [Hsys|Hsys].
    + intros [= <- _]. right. split; [exact Hsys|]. exists p. split; [auto|reflexivity].
    + intros [= <- _]. left. reflexivity.
  - intros name s' r Hrun.
    exact (checkFlakeOutput_collects_only name v pos s s' r Hrun).
  - intros build vFlake s0 s' r. rewrite run_unfold.
    destruct (enumerateOutputs vFlake checkFlakeOutput (evaluating build s0)) as [s1 r1]
      eqn:Hloop.
    apply enumerateOutputs_collects_only in Hloop as (ps & Hps & Hq).
    simpl in Hps. intros Hrun. exists ps. split; [|exact Hq].
    destruct r1 as [[]|e|]; [|injection Hrun as <- _; exact Hps..].
    destruct (build && negb (vector_empty (drvPaths s1)));
      injection Hrun as <- _; exact Hps.
Qed.

Lemma for_each_passes {A} (f : A → M unit) (l : list A) :
  Forall (fun a => ∀ s, ∃ s', f a s = (s', Ok tt)) l →
  ∀ s, ∃ s', for_each f l s = (s', Ok tt).
Proof.
  induction 1 as [|a l Ha _ IH]; intros s; simpl.
  - exists s. reflexivity.
  - unfold bind. destruct (Ha s) as [s1 ->]. apply IH.
Qed.

Lemma checkApp_passes attrPath v pos s :
  app_shaped v → ∃ s', checkApp attrPath v pos s = (s', Ok tt).
Proof.
  intros (app & Happ & Hparses). exists (collected (context_drvPaths (context app)) s).
  unfold checkApp, try_addPrefix, bind at 1, call at 1. rewrite Happ.
  rewrite (checkApp_loop_exact (context app) s Hparses). reflexivity.
Qed.

Lemma checks_entry_passes name attr attr2 s :
  is_Some (drvPath_of (attr_value attr2)) →
  ∃ s', checks_entry name attr attr2 s = (s', Ok tt).
Proof. intros [p Hp]. rewrite (checks_entry_spec name attr attr2 p s Hp). eauto. Qed.

Lemma seq_Ok (m k : M unit) s s1 :
  m s = (s1, Ok tt) → (m ;;; k) s = k s1.
Proof. intros Hm. unfold bind. rewrite Hm. reflexivity. Qed.

(** With a key that has a hyphen and a value that is well formed for the
    output, the body of the loop of each system-keyed branch passes. *)
Lemma system_keyed_body_passes name :
  name ∈ system_keyed →
  ∃ body : Attr → M unit,
    (∀ attrs pos s,
       checkFlakeOutput name (VAttrs attrs) pos s
       = try_addPrefix (output_context name) (for_each body attrs)
           (logged (output_activity name) s))
    ∧ (∀ attr s,
         contains_char "-" (attr_name attr) →
         well_formed_for name (attr_value attr) →
         ∃ s', body attr s = (s', Ok tt)).
Proof.
  unfold system_keyed. intros Hin.
  rewrite !elem_of_cons, elem_of_nil in Hin.
  destruct Hin as [->|[->|[->|[->|[->|[->|[->|[]]]]]]]].
  - eexists (fun attr => _). split; [intros attrs pos s; reflexivity|].
    intros attr s Hkey (attrs2 & Hv & Hall). simpl.
    rewrite (seq_Ok _ _ s s (proj2 (checkSystemName_spec _ _ s) Hkey)).
    rewrite Hv. simpl.
    apply for_each_passes. eapply Forall_impl; [exact Hall|]. intros attr2 [p Hp] s1.
    exists s1. unfold bind. rewrite (checkDerivation_Ok _ _ _ p s1 Hp). reflexivity.
  - eexists (fun attr => _). split; [intros attrs pos s; reflexivity|].
    intros attr s Hkey (attrs2 & Hv & Hall). simpl.
    rewrite (seq_Ok _ _ s s (proj2 (checkSystemName_spec _ _ s) Hkey)).
    rewrite Hv. simpl.
    apply for_each_passes. eapply Forall_impl; [exact Hall|]. intros attr2 Happ s1.
    apply checkApp_passes, Happ.
  - eexists (fun attr => _). split; [intros attrs pos s; reflexivity|].
    intros attr s Hkey (attrs2 & Hv & Hall). simpl.
    rewrite (seq_Ok _ _ s s (proj2 (checkSystemName_spec _ _ s) Hkey)).
    rewrite Hv. simpl.
    apply for_each_passes. eapply Forall_impl; [exact Hall|]. intros attr2 Hdrv s1.
    apply checks_entry_passes, Hdrv.
  - eexists (fun attr => _). split; [intros attrs pos s; reflexivity|].
    intros attr s Hkey [p Hp]. simpl.
    rewrite (seq_Ok _ _ s s (proj2 (checkSystemName_spec _ _ s) Hkey)).
    exists s. unfold bind. rewrite (checkDerivation_Ok _ _ _ p s Hp). reflexivity.
  - eexists (fun attr => _). split; [intros attrs pos s; reflexivity|].
    intros attr s Hkey [p Hp]. simpl.
    rewrite (seq_Ok _ _ s s (proj2 (checkSystemName_spec _ _ s) Hkey)).
    exists s. unfold bind. rewrite (checkDerivation_Ok _ _ _ p s Hp). reflexivity.
  - eexists (fun attr => _). split; [intros attrs pos s; reflexivity|].
    intros attr s Hkey Happ. simpl.
    rewrite (seq_Ok _ _ s s (proj2 (checkSystemName_spec _ _ s) Hkey)).
    apply checkApp_passes, Happ.
  - eexists (fun attr => _). split; [intros attrs pos s; reflexivity|].
    intros attr s Hkey _. simpl. exists s.
    apply (proj2 (checkSystemName_spec _ _ s) Hkey).
Qed.

(** C3. In each of [packages], [apps], [checks], [defaultPackage],
    [devShell], [defaultApp] and [legacyPackages], a first-level key without
    a hyphen is a fatal error that names the key and its position, raised as
    soon as the keys before it have passed; a key with a hyphen passes
    [checkSystemName]. For [legacyPackages], where nothing else is checked,
    the output passes exactly when every key has a hyphen. In each of the
    seven branches an output that passes has a hyphen in every key, and an
    output whose values are well formed for the branch passes exactly when
    every key has a hyphen: with such values a key with a hyphen is never
    refused, and the first key without one is the error of the check, the
    invalid system type at the position of that key. *)
Theorem system_name_check (name : string) :
  name ∈ system_keyed →
  (∀ system pos s,
     (¬ contains_char "-" system →
      checkSystemName system pos s
      = (s, Throw (mkError EmptyString ("'" +:+ system +:+ "' is not a valid system type, at "
                               +:+ showPos pos))))
     ∧ (contains_char "-" system → checkSystemName system pos s = (s, Ok tt)))
  ∧ (∀ pre system v p post pos s s',
       checkFlakeOutput name (VAttrs pre) pos s = (s', Ok tt) →
       ¬ contains_char "-" system →
       checkFlakeOutput name (VAttrs (pre ++ mkAttr system v p :: post)) pos s
       = (s', Throw (addPrefix
                       ("while checking flake output '" +:+ ANSI_BOLD +:+ name
                        +:+ ANSI_NORMAL +:+ "':" +:+ nl)
                       (mkError EmptyString ("'" +:+ system +:+ "' is not a valid system type, at "
                                    +:+ showPos p)))))
  ∧ (∀ attrs pos s,
       (∃ s', checkFlakeOutput "legacyPackages" (VAttrs attrs) pos s = (s', Ok tt))
       ↔ Forall (fun attr => contains_char "-" (attr_name attr)) attrs)
  ∧ (∀ attrs pos s s',
       checkFlakeOutput name (VAttrs attrs) pos s = (s', Ok tt) →
       Forall (fun attr => contains_char "-" (attr_name attr)) attrs)
  ∧ (∀ attrs pos s,
       Forall (fun attr => well_formed_for name (attr_value attr)) attrs →
       Forall (fun attr => contains_char "-" (attr_name attr)) attrs →
       ∃ s', checkFlakeOutput name (VAttrs attrs) pos s = (s', Ok tt))
  ∧ (∀ pre system v p post pos s,
       Forall (fun attr => well_formed_for name (attr_value attr)) pre →
       Forall (fun attr => contains_char "-" (attr_name attr)) pre →
       ¬ contains_char "-" system →
       ∃ s', checkFlakeOutput name (VAttrs (pre ++ mkAttr system v p :: post)) pos s
             = (s', Throw (addPrefix (output_context name) (not_a_system system p)))).
Proof.
  intros Hin.
  assert (∀ name', name' ∈ system_keyed → ∀ attrs pos s s',
            checkFlakeOutput name' (VAttrs attrs) pos s = (s', Ok tt) →
            Forall (fun attr => contains_char "-" (attr_name attr)) attrs) as Honly.
  { intros name' Hin' attrs pos s s' Hrun.
    destruct (system_keyed_loop name' Hin') as [rest Hloop].
    rewrite Hloop in Hrun. apply try_addPrefix_Ok in Hrun.
    eapply for_each_Ok_Forall; [|exact Hrun].
    intros a s1 s2. unfold bind.
    destruct (checkSystemName (attr_name a) (attr_pos a) s1) as [s3 [[]|e|]] eqn:Hkey;
      [|discriminate..].
    intros _. eapply checkSystemName_Ok, Hkey. }
  assert (∀ name', name' ∈ system_keyed → ∀ attrs pos s,
            Forall (fun attr => well_formed_for name' (attr_value attr)) attrs →
            Forall (fun attr => contains_char "-" (attr_name attr)) attrs →
            ∃ s', checkFlakeOutput name' (VAttrs attrs) pos s = (s', Ok tt)) as Hpasses.
  { intros name' Hin' attrs pos s Hwf Hkeys.
    destruct (system_keyed_body_passes name' Hin') as (body & Hloop & Hbody).
    destruct (for_each_passes body attrs) with (s := logged (output_activity name') s)
      as [s' Hrun].
    { apply Forall_forall. intros attr Hattr s1.
      apply Hbody; [exact (proj1 (Forall_forall _ _) Hkeys attr Hattr)|].
      exact (proj1 (Forall_forall _ _) Hwf attr Hattr). }
    exists s'. rewrite Hloop. apply try_addPrefix_Ok. exact Hrun. }
  assert (∀ pre system v p post pos s s',
            checkFlakeOutput name (VAttrs pre) pos s = (s', Ok tt) →
            ¬ contains_char "-" system →
            checkFlakeOutput name (VAttrs (pre ++ mkAttr system v p :: post)) pos s
            = (s', Throw (addPrefix (output_context name) (not_a_system system p))))
    as Hfirst.
  { destruct (system_keyed_loop name Hin) as [rest Hloop].
    intros pre system v p post pos s s' Hpre Hno.
    rewrite Hloop in Hpre |- *. apply try_addPrefix_Ok in Hpre.
    apply try_addPrefix_Throw.
    eapply for_each_throw_at; [exact Hpre| |discriminate].
    unfold bind. simpl.
    rewrite (proj1 (checkSystemName_spec system p s') Hno). reflexivity. }
  split; [|split; [|split; [|split; [|split]]]].
  - intros system pos s. apply checkSystemName_spec.
  - exact Hfirst.
  - intros attrs pos s. split.
    + intros [s' Hrun]. eapply (Honly "legacyPackages"); [|exact Hrun].
      unfold system_keyed. repeat constructor.
    + intros Hall. apply (Hpasses "legacyPackages"); [| |exact Hall].
      * unfold system_keyed. repeat constructor.
      * apply Forall_forall. intros attr _. exact I.
  - exact (Honly name Hin).
  - exact (Hpasses name Hin).
  - intros pre system v p post pos s Hwf Hkeys Hno.
    destruct (Hpasses name Hin pre pos s Hwf Hkeys) as [s' Hpre].
    exists s'. apply Hfirst; assumption.
Qed.

#[local] Instance emits_only_preorder P : PreOrder (emits_only P).
Proof.
  split.
  - intros s. exists []. rewrite app_nil_r. auto.
  - intros s1 s2 s3 (e1 & H12 & Hp1) (e2 & H23 & Hp2). exists (e1 ++ e2).
    rewrite H23, H12, app_assoc. split; [reflexivity|]. apply Forall_app; auto.
Qed.

Lemma emits_only_emit P ev : P ev → preserves (emits_only P) (emit ev).
Proof.
  intros Hev s s' r [= <- _]. exists [ev]. split; [reflexivity|].
  constructor; [exact Hev|constructor].
Qed.

Lemma emits_only_collected P p s : emits_only P s (collected [p] s).
Proof. exists []. simpl. rewrite app_nil_r. auto. Qed.

Lemma checkNixOSConfiguration_emits attrPath v pos :
  preserves (emits_only inner_event) (checkNixOSConfiguration attrPath v pos).
Proof.
  unfold checkNixOSConfiguration. set (R := emits_only inner_event).
  apply (preserves_try R).
  apply (preserves_bind R).
  { apply emits_only_emit. split; [exact I|reflexivity]. }
  intros _. apply (preserves_bind R); [apply (preserves_call R)|]. intros vToplevel.
  apply (preserves_bind R); [apply preserves_forceAttrs; apply _|]. intros _.
  apply (preserves_bind R); [apply (preserves_call R)|]. intros [|].
  - apply (preserves_ret R).
  - apply (preserves_throw R).
Qed.

(** What the [try] block of the callback adds to the trace. *)
Lemma checkFlakeOutput_try_emits name v pos :
  preserves (emits_only inner_event) (checkFlakeOutput_try name v pos).
Proof.
  set (R := emits_only inner_event).
  assert (∀ p s, R s (collected [p] s)) as R_collect
    by (intros p s; apply emits_only_collected).
  unfold checkFlakeOutput_try.
  apply (preserves_bind R); [apply preserves_forceValue; apply _|]. intros _.
  destruct (String.eqb name "checks").
  { apply preserves_check_checks; [apply _|exact R_collect]. }
  destruct (String.eqb name "packages").
  { apply preserves_check_packages. apply _. }
  destruct (String.eqb name "apps").
  { apply preserves_check_apps; [apply _|exact R_collect]. }
  destruct (String.eqb name "defaultPackage" || String.eqb name "devShell").
  { apply preserves_check_defaultPackage. apply _. }
  destruct (String.eqb name "defaultApp").
  { apply preserves_check_defaultApp; [apply _|exact R_collect]. }
  destruct (String.eqb name "legacyPackages").
  { apply preserves_check_legacyPackages. apply _. }
  destruct (String.eqb name "overlay").
  { apply preserves_checkOverlay. apply _. }
  destruct (String.eqb name "overlays").
  { apply preserves_check_each; [apply _|]. intros. apply preserves_checkOverlay. apply _. }
  destruct (String.eqb name "nixosModule").
  { apply preserves_checkModule. apply _. }
  destruct (String.eqb name "nixosModules").
  { apply preserves_check_each; [apply _|]. intros. apply preserves_checkModule. apply _. }
  destruct (String.eqb name "nixosConfigurations").
  { apply preserves_check_each; [apply _|]. intros. apply checkNixOSConfiguration_emits. }
  destruct (String.eqb name "hydraJobs").
  { apply preserves_checkHydraJobs. apply _. }
  apply emits_only_emit. split; [exact I|reflexivity].
Qed.

Lemma filter_inner_events evs :
  Forall inner_event evs → List.filter is_output_activity evs = [].
Proof.
  induction 1 as [|ev evs [_ Hev] _ IH]; simpl; [reflexivity|].
  rewrite Hev. exact IH.
Qed.

Lemma filter_output_activity name evs :
  List.filter is_output_activity (output_activity name :: evs)
  = output_activity name :: List.filter is_output_activity evs.
Proof. reflexivity. Qed.

Lemma inner_events_log evs : Forall inner_event evs → Forall is_log evs.
Proof. intros Hevs. eapply Forall_impl; [exact Hevs|]. intros ev [Hlog _]. exact Hlog. Qed.

(** The trace of the callback: the activity of the output, then events
    that are not the activity of an output. *)
Lemma checkFlakeOutput_trace name v pos s s' r :
  checkFlakeOutput name v pos s = (s', r) →
  ∃ evs, trace s' = trace s ++ output_activity name :: evs ∧ Forall inner_event evs.
Proof.
  rewrite checkFlakeOutput_unfold. intros Hrun.
  apply (preserves_try (emits_only inner_event)) in Hrun as (evs & Htrace & Hevs);
    [|apply checkFlakeOutput_try_emits].
  exists evs. split; [|exact Hevs].
  rewrite Htrace. simpl. rewrite <- app_assoc. reflexivity.
Qed.

(** The trace of a loop of the callback over outputs that all pass: one
    activity for each output, in order. *)
Lemma outputs_loop_trace (l : list Attr) s s' :
  for_each (fun a => checkFlakeOutput (attr_name a) (attr_value a) (attr_pos a)) l s
  = (s', Ok tt) →
  ∃ evs, trace s' = trace s ++ evs
         ∧ Forall is_log evs
         ∧ List.filter is_output_activity evs
           = map (fun a => output_activity (attr_name a)) l.
Proof.
  revert s. induction l as [|a l IH]; intros s; simpl.
  - intros [= <-]. exists []. rewrite app_nil_r. auto.
  - unfold bind at 1.
    destruct (checkFlakeOutput (attr_name a) (attr_value a) (attr_pos a) s) as [s1 [[]|e|]]
      eqn:Ha; [|discriminate..].
    intros Hrest. apply IH in Hrest as (evs & Htrace & Hlog & Hfilter).
    apply checkFlakeOutput_trace in Ha as (evs1 & Htrace1 & Hinner).
    exists ((output_activity (attr_name a) :: evs1) ++ evs).
    rewrite Htrace, Htrace1, <- app_assoc. split; [reflexivity|]. split.
    + apply Forall_app. split; [|exact Hlog].
      constructor; [exact I|]. apply inner_events_log, Hinner.
    + rewrite List.filter_app, filter_output_activity.
      rewrite (filter_inner_events evs1 Hinner), Hfilter. reflexivity.
Qed.

(** C2, as the code has it. The first output whose check throws ends the
    run: the error leaves [run] as it left the callback, in the state in
    which it left the callback. It is the error thrown inside the [try]
    block of the callback with the context of the output in front. The
    trace of the evaluation holds the activity of each output before the
    failing one and the activity of the failing one, in order, and no
    other: no output after it is looked at, whatever it is. Nothing is
    built. *)
Theorem first_error_ends_the_check (build : bool) (flakeAttrs : list Attr)
    (aOutputs : Attr) (pre post : list Attr) (attr : Attr)
    (s s1 s2 : CheckState) (e : Error) :
  Bindings_get "outputs" flakeAttrs = Some aOutputs →
  attr_value aOutputs = VAttrs (pre ++ attr :: post) →
  for_each (fun a => checkFlakeOutput (attr_name a) (attr_value a) (attr_pos a)) pre
    (evaluating build s) = (s1, Ok tt) →
  checkFlakeOutput (attr_name attr) (attr_value attr) (attr_pos attr) s1 = (s2, Throw e) →
  run build (VAttrs flakeAttrs) s = (s2, Throw e)
  ∧ (∃ e0, checkFlakeOutput_try (attr_name attr) (attr_value attr) (attr_pos attr)
             (logged (output_activity (attr_name attr)) s1) = (s2, Throw e0)
           ∧ e = addPrefix (output_context (attr_name attr)) e0)
  ∧ (∃ evs, trace s2 = trace (evaluating build s) ++ evs
            ∧ List.filter is_output_activity evs
              = map (fun a => output_activity (attr_name a)) (pre ++ [attr])
            ∧ build_calls evs = []).
Proof.
  intros Hget Hval Hpre Hthrow. split; [|split].
  - rewrite run_unfold.
    rewrite (enumerateOutputs_attrs _ _ _ _ Hget Hval).
    rewrite (for_each_throw_at _ pre attr post _ s1 s2 (Throw e) Hpre Hthrow);
      [reflexivity|].
    discriminate.
  - rewrite checkFlakeOutput_unfold in Hthrow. unfold try_addPrefix in Hthrow.
    destruct (checkFlakeOutput_try (attr_name attr) (attr_value attr) (attr_pos attr)
                (logged (output_activity (attr_name attr)) s1)) as [s3 [[]|e0|]];
      [discriminate| |discriminate].
    injection Hthrow as <- <-. exists e0. split; reflexivity.
  - apply outputs_loop_trace in Hpre as (evs1 & Htrace1 & Hlog1 & Hfilter1).
    apply checkFlakeOutput_trace in Hthrow as (evs2 & Htrace2 & Hinner).
    exists (evs1 ++ output_activity (attr_name attr) :: evs2).
    split; [|split].
    + rewrite Htrace2, Htrace1, <- app_assoc. reflexivity.
    + rewrite List.filter_app, filter_output_activity, Hfilter1.
      rewrite (filter_inner_events evs2 Hinner), map_app. reflexivity.
    + apply build_calls_log, Forall_app. split; [exact Hlog1|].
      constructor; [exact I|]. apply inner_events_log, Hinner.
Qed.

End CallbackClaims.

(* ===================================================================== *)
(** * More about the lock-graph walkers *)
(* ===================================================================== *)

Section WalkersMore.
Context `{Store} `{Settings} `{Fetchers}.

Lemma string_app_assoc (a b c : string) : (a +:+ b) +:+ c = a +:+ (b +:+ c).
Proof.
  induction a as [|x a IH]; [reflexivity|].
  change (String x ((a +:+ b) +:+ c) = String x (a +:+ (b +:+ c))). f_equal. exact IH.
Qed.

Lemma indented_longer prefix more l : indented (prefix +:+ more) l → indented prefix l.
Proof. intros [rest Hl]. exists (more +:+ rest). rewrite Hl. apply string_app_assoc. Qed.

(** The loop of the printer appends to the lines it is given, whatever they
    are, as soon as the recursive calls do. *)
Lemma recurse_inputs_frame g rec prefix size i l out out' r :
  (∀ c p o o' r', rec c p o = Some (o', r') →
     ∃ new, o' = o ++ new ∧ (∀ o2, rec c p o2 = Some (o2 ++ new, r'))
            ∧ Forall (indented p) new) →
  recurse_inputs g rec prefix size i l out = Some (out', r) →
  ∃ new, out' = out ++ new
         ∧ (∀ out2, recurse_inputs g rec prefix size i l out2 = Some (out2 ++ new, r))
         ∧ Forall (indented prefix) new.
Proof.
  intros Hrec. revert i out. induction l as [|input l IH]; intros i out; simpl.
  - intros [= <- <-]. exists []. rewrite app_nil_r. split; [reflexivity|].
    split; [intros out2; rewrite app_nil_r; reflexivity|constructor].
  - destruct (as_LockedNode g input.2) as [lk|].
    2: { intros [= <- <-]. exists []. rewrite app_nil_r. split; [reflexivity|].
         split; [intros out2; rewrite app_nil_r; reflexivity|constructor]. }
    set (line := mkLine (prefix +:+ (if Nat.eqb (i + 1) size then treeLast else treeConn))
                   input.1 (lockedRef lk)).
    set (p := prefix +:+ (if Nat.eqb (i + 1) size then treeNull else treeLine)).
    destruct (rec input.2 p (out ++ [line])) as [[out2 r2]|] eqn:Hchild; [|discriminate].
    destruct (Hrec _ _ _ _ _ Hchild) as (below & -> & Hframe & Hind).
    assert (Forall (indented prefix) (line :: below)) as Hlines.
    { constructor.
      - eexists. reflexivity.
      - eapply Forall_impl; [exact Hind|]. intros x. apply indented_longer. }
    destruct r2 as [[]|e|].
    + intros Hrest. destruct (IH _ _ Hrest) as (rest & -> & Hframe' & Hind').
      exists (line :: below ++ rest). split; [rewrite <- !app_assoc; reflexivity|]. split.
      * intros o2. rewrite Hframe. rewrite Hframe'.
        rewrite <- !app_assoc. reflexivity.
      * rewrite app_comm_cons. apply Forall_app.
        split; [exact Hlines|exact Hind'].
    + intros [= <- <-]. exists (line :: below).
      split; [rewrite <- !app_assoc; reflexivity|]. split; [|exact Hlines].
      intros o2. rewrite Hframe. rewrite <- !app_assoc. reflexivity.
    + intros [= <- <-]. exists (line :: below).
      split; [rewrite <- !app_assoc; reflexivity|]. split; [|exact Hlines].
      intros o2. rewrite Hframe. rewrite <- !app_assoc. reflexivity.
Qed.

Lemma recurse_frame fuel g u prefix out out' r :
  recurse fuel g u prefix out = Some (out', r) →
  ∃ new, out' = out ++ new
         ∧ (∀ out2, recurse fuel g u prefix out2 = Some (out2 ++ new, r))
         ∧ Forall (indented prefix) new.
Proof.
  revert u prefix out out' r. induction fuel as [|f IH]; intros u prefix out out' r; simpl;
    [discriminate|].
  destruct (g !! u) as [n|].
  - apply recurse_inputs_frame. intros c p o o' r'. apply IH.
  - intros [= <- <-]. exists []. rewrite app_nil_r. split; [reflexivity|].
    split; [intros out2; rewrite app_nil_r; reflexivity|constructor].
Qed.

(** X12. The tree printer only appends: the lines already printed stay as
    they are, the lines it adds do not depend on them, and each added line
    is indented by the prefix the printer was called with. This holds of
    runs that stop on a null pointer as well. *)
Theorem printer_appends_indented (fuel : nat) (g : LockGraph) (u : NodeId)
    (prefix : string) (out out' : list Line) (r : Result unit) :
  recurse fuel g u prefix out = Some (out', r) →
  ∃ new, out' = out ++ new
         ∧ recurse fuel g u prefix [] = Some (new, r)
         ∧ Forall (indented prefix) new.
Proof.
  intros Hrun. destruct (recurse_frame _ _ _ _ _ _ _ Hrun) as (new & Hout & Hframe & Hind).
  exists new. split; [exact Hout|]. split; [apply (Hframe [])|exact Hind].
Qed.


(** The lines of the loop of the printer, input by input. *)
Lemma recurse_inputs_blocks g rec prefix size i l out out' :
  (∀ c p o o' r', rec c p o = Some (o', r') →
     ∃ new, o' = o ++ new ∧ (∀ o2, rec c p o2 = Some (o2 ++ new, r'))
            ∧ Forall (indented p) new) →
  recurse_inputs g rec prefix size i l out = Some (out', Ok tt) →
  ∃ blocks,
    out' = out ++ concat blocks
    ∧ List.length blocks = List.length l
    ∧ ∀ k input,
        l !! k = Some input →
        ∃ lockedInput below,
          as_LockedNode g input.2 = Some lockedInput
          ∧ blocks !! k
            = Some (mkLine (prefix +:+ (if Nat.eqb (i + k + 1) size then treeLast else treeConn))
                      input.1 (lockedRef lockedInput) :: below)
          ∧ rec input.2 (prefix +:+ (if Nat.eqb (i + k + 1) size then treeNull else treeLine)) []
            = Some (below, Ok tt).
Proof.
  intros Hrec. revert i out. induction l as [|input l IH]; intros i out Hrun.
  - injection Hrun as <-. exists []. simpl. rewrite app_nil_r.
    split; [reflexivity|]. split; [reflexivity|]. intros k input Hk. discriminate.
  - apply recurse_inputs_cons_Ok in Hrun as (lk & out2 & Hlk & Hchild & Hrest).
    destruct (Hrec _ _ _ _ _ Hchild) as (below & -> & Hframe & _).
    destruct (IH _ _ Hrest) as (blocks & -> & Hlen & Hblocks).
    exists ((mkLine (prefix +:+ (if Nat.eqb (i + 1) size then treeLast else treeConn))
               input.1 (lockedRef lk) :: below) :: blocks).
    split; [simpl; rewrite <- !app_assoc; reflexivity|].
    split; [simpl; congruence|].
    intros [|k] input' Hk.
    + injection Hk as <-. exists lk, below. rewrite Nat.add_0_r.
      split; [exact Hlk|]. split; [reflexivity|]. apply (Hframe []).
    + simpl in Hk. destruct (Hblocks k input' Hk) as (lk' & below' & Hlk' & Hblock & Hbelow).
      exists lk', below'. replace (i + S k + 1) with (S i + k + 1) by lia.
      split; [exact Hlk'|]. split; [exact Hblock|exact Hbelow].
Qed.

(** X13. What the tree printer prints for a node is, input by input in the
    order of [inputs], one line for the input followed by what the printer
    prints for the node it points to. The line shows the name and the locked
    reference of the input; it is drawn with [treeLast] for the last input
    and with [treeConn] for the others, and the lines below it are printed
    with [treeNull] or [treeLine] added to the prefix accordingly. *)
Theorem printer_draws_inputs (fuel : nat) (g : LockGraph) (u : NodeId) (n : Node)
    (prefix : string) (out : list Line) :
  g !! u = Some n →
  recurse (S fuel) g u prefix [] = Some (out, Ok tt) →
  ∃ blocks,
    out = concat blocks
    ∧ List.length blocks = List.length (inputs n)
    ∧ ∀ k input,
        inputs n !! k = Some input →
        let last := Nat.eqb (k + 1) (List.length (inputs n)) in
        ∃ lockedInput below,
          as_LockedNode g input.2 = Some lockedInput
          ∧ blocks !! k
            = Some (mkLine (prefix +:+ (if last then treeLast else treeConn))
                      input.1 (lockedRef lockedInput) :: below)
          ∧ recurse fuel g input.2 (prefix +:+ (if last then treeNull else treeLine)) []
            = Some (below, Ok tt).
Proof.
  intros Hu. simpl. rewrite Hu. intros Hrun.
  eapply recurse_inputs_blocks in Hrun as (blocks & Hout & Hlen & Hblocks).
  - exists blocks. split; [exact Hout|]. split; [exact Hlen|].
    intros k input Hk. exact (Hblocks k input Hk).
  - intros c p o o' r'. apply recurse_frame.
Qed.

Lemma recurse_inputs_Ok_locked g rec prefix size i l out out' :
  recurse_inputs g rec prefix size i l out = Some (out', Ok tt) →
  ∀ input, input ∈ l → is_Some (as_LockedNode g input.2).
Proof.
  revert i out. induction l as [|input l IH]; intros i out Hrun input' Hin.
  - inversion Hin.
  - apply recurse_inputs_cons_Ok in Hrun as (lk & out2 & Hlk & _ & Hrest).
    apply elem_of_cons in Hin as [->|Hin]; [eauto|].
    eapply IH; eauto.
Qed.

Lemma traverse_inputs_Ok_locked dryRun g rec json l acc st st' ms :
  traverse_inputs dryRun g rec json l acc st = Some (st', Ok ms) →
  ∀ input, input ∈ l → is_Some (as_LockedNode g input.2).
Proof.
  revert acc st. induction l as [|input l IH]; intros acc st Hrun input' Hin.
  - inversion Hin.
  - apply traverse_inputs_cons_Ok in Hrun as (lk & st1 & st3 & members & Hlk & _ & _ & Hrest).
    apply elem_of_cons in Hin as [->|Hin]; [eauto|].
    eapply IH; eauto.
Qed.

Lemma recurse_Ok_edge_locked fuel g u v prefix out out' :
  recurse fuel g u prefix out = Some (out', Ok tt) → edge g u v →
  is_Some (as_LockedNode g v).
Proof.
  destruct fuel as [|f]; simpl; [discriminate|].
  intros Hrun (n & name & Hu & Hin). rewrite Hu in Hrun.
  exact (recurse_inputs_Ok_locked _ _ _ _ _ _ _ _ Hrun (name, v) Hin).
Qed.

Lemma traverse_Ok_edge_locked fuel dryRun g u v json st st' ms :
  traverse fuel dryRun g u json st = Some (st', Ok ms) → edge g u v →
  is_Some (as_LockedNode g v).
Proof.
  destruct fuel as [|f]; simpl; [discriminate|].
  intros Hrun (n & name & Hu & Hin). rewrite Hu in Hrun.
  destruct (traverse_inputs _ _ _ _ _ _ _) as [[st1 [ms1|e|]]|] eqn:Hloop; try discriminate.
  exact (traverse_inputs_Ok_locked _ _ _ _ _ _ _ _ _ Hloop (name, v) Hin).
Qed.

(** X14. Neither walker gets past an input that is not a [LockedNode]:
    when the printer or the archive traversal returns normally, every node
    in reach of the root through at least one input is a [LockedNode]. When
    the first input of the root is not one, both stop at once, before
    anything is printed, fetched or collected. *)
Theorem walkers_need_locked_inputs (fuel : nat) (dryRun json : bool) (g : LockGraph)
    (root : NodeId) (prefix : string) (out : list Line) (st : ArchiveState) :
  (∀ out' v,
     recurse fuel g root prefix out = Some (out', Ok tt) →
     tc (edge g) root v → is_Some (as_LockedNode g v))
  ∧ (∀ st' ms v,
       traverse fuel dryRun g root json st = Some (st', Ok ms) →
       tc (edge g) root v → is_Some (as_LockedNode g v))
  ∧ (∀ n input rest,
       g !! root = Some n → inputs n = input :: rest →
       as_LockedNode g input.2 = None →
       recurse (S fuel) g root prefix out = Some (out, Crash)
       ∧ traverse (S fuel) dryRun g root json st = Some (st, Crash)).
Proof.
  split; [|split].
  - intros out' v Hrun Hreach.
    assert (∃ f p o o', recurse f g root p o = Some (o', Ok tt)) as Hroot by eauto.
    clear Hrun. induction Hreach as [u v Huv|u c v Huc _ IH].
    + destruct Hroot as (f & p & o & o' & Hrun). eapply recurse_Ok_edge_locked; eauto.
    + apply IH. destruct Hroot as ([|f] & p & o & o' & Hrun); [discriminate|].
      destruct (recurse_Ok_step g f u c p o o' Hrun Huc) as (p' & o1 & o2 & Hchild). eauto.
  - intros st' ms v Hrun Hreach.
    assert (∃ f j s s' ms', traverse f dryRun g root j s = Some (s', Ok ms')) as Hroot
      by (exists fuel, json, st, st', ms; exact Hrun).
    clear Hrun. induction Hreach as [u v Huv|u c v Huc _ IH].
    + destruct Hroot as (f & j & s & s' & ms' & Hrun). eapply traverse_Ok_edge_locked; eauto.
    + apply IH. destruct Hroot as ([|f] & j & s & s' & ms' & Hrun); [discriminate|].
      destruct (traverse_Ok_step dryRun g f u c j s s' ms' Hrun Huc)
        as (j' & s1 & s2 & ms2 & Hchild).
      exists f, j', s1, s2, ms2. exact Hchild.
  - intros n input rest Hroot Hinputs Hnull. simpl. rewrite Hroot, Hinputs. simpl.
    rewrite Hnull. split; reflexivity.
Qed.


(** Whatever the traversal adds to [sources] is the store path of a node
    below the one it starts from. *)
Lemma traverse_inputs_sources_only dryRun g rec json l acc st st' ms :
  (∀ c j s s' ms', rec c j s = Some (s', Ok ms') →
     ∀ p, p ∈ sources s' →
          p ∈ sources s
          ∨ ∃ v lv, tc (edge g) c v ∧ as_LockedNode g v = Some lv
                    ∧ p = computeStorePath lv) →
  traverse_inputs dryRun g rec json l acc st = Some (st', Ok ms) →
  ∀ p, p ∈ sources st' →
       p ∈ sources st
       ∨ ∃ input v lv, input ∈ l ∧ rtc (edge g) input.2 v ∧ as_LockedNode g v = Some lv
                       ∧ p = computeStorePath lv.
Proof.
  intros Hrec. revert acc st. induction l as [|input l IH]; intros acc st Hrun p Hp.
  - injection Hrun as <- _. left. exact Hp.
  - apply traverse_inputs_cons_Ok in Hrun
      as (lk & st1 & st3 & members & Hlk & Hsrc & Hchild & Hrest).
    destruct (IH _ _ Hrest p Hp) as [Hp3|(input' & v & lv & Hin & Hreach & Hlv & ->)].
    + destruct (Hrec _ _ _ _ _ Hchild p Hp3) as [Hp1|(v & lv & Hreach & Hlv & ->)].
      * simpl in Hp1. apply elem_of_union in Hp1 as [Hp1|Hp1].
        -- apply elem_of_singleton in Hp1 as ->. right.
           exists input, input.2, lk. repeat split; [constructor|reflexivity|exact Hlk].
        -- left. rewrite <- Hsrc. exact Hp1.
      * right. exists input, v, lv. repeat split; [constructor|apply tc_rtc, Hreach|exact Hlv].
    + right. exists input', v, lv. repeat split; [constructor; exact Hin|exact Hreach|exact Hlv].
Qed.

Lemma traverse_sources_only fuel dryRun g u json st st' ms :
  traverse fuel dryRun g u json st = Some (st', Ok ms) →
  ∀ p, p ∈ sources st' →
       p ∈ sources st
       ∨ ∃ v lv, tc (edge g) u v ∧ as_LockedNode g v = Some lv ∧ p = computeStorePath lv.
Proof.
  revert u json st st' ms. induction fuel as [|f IH]; intros u json st st' ms; simpl;
    [discriminate|].
  destruct (g !! u) as [n|] eqn:Hu; [|discriminate].
  destruct (traverse_inputs _ _ _ _ _ _ _) as [[st1 [kids|e|]]|] eqn:Hloop; try discriminate.
  intros [= <- _] p Hp.
  eapply traverse_inputs_sources_only in Hloop
    as [Hold|([name c] & v & lv & Hin & Hreach & Hlv & ->)];
    [left; exact Hold| |intros c j s s' ms'; apply IH|exact Hp].
  right. exists v, lv. split; [|split; [exact Hlv|reflexivity]].
  eapply tc_rtc_r; [apply tc_once; exists n, name; split; [exact Hu|exact Hin]|exact Hreach].
Qed.

(** X15. After [archive_run], [sources] holds the store path of the flake
    itself and the store path of every locked node in reach of the root
    through at least one input, and nothing else. *)
Theorem archive_sources_exact (fuel : nat) (json dryRun : bool) (dstUri : string)
    (flakeStorePath : StorePath) (g : LockGraph) (root : NodeId)
    (st : ArchiveState) (doc : option JSON) (p : StorePath) :
  archive_run fuel json dryRun dstUri flakeStorePath g root = Some (st, Ok doc) →
  p ∈ sources st
  ↔ p = flakeStorePath
    ∨ ∃ v lockedInput, tc (edge g) root v ∧ as_LockedNode g v = Some lockedInput
                       ∧ p = computeStorePath lockedInput.
Proof.
  intros Hrun. apply archive_run_Ok in Hrun as (st1 & ms & Htrav & Hsrc & _).
  rewrite Hsrc. split.
  - intros Hp. destruct (traverse_sources_only _ _ _ _ _ _ _ _ Htrav p Hp) as [Hold|Hnew].
    + left. simpl in Hold. apply elem_of_singleton in Hold. exact Hold.
    + right. exact Hnew.
  - apply traverse_sources in Htrav as [Hsub Hbelow].
    intros [->|(v & lv & Hreach & Hlv & ->)].
    + apply Hsub. simpl. apply elem_of_singleton. reflexivity.
    + eapply Hbelow; eauto.
Qed.

(** With [--dry-run] the traversal has no effect. *)
Lemma traverse_inputs_dry g rec json l acc st st' r :
  (∀ c j s s' r', rec c j s = Some (s', r') → effects s' = effects s) →
  traverse_inputs true g rec json l acc st = Some (st', r) → effects st' = effects st.
Proof.
  intros Hrec. revert acc st. induction l as [|input l IH]; intros acc st; simpl.
  - intros [= <- _]. reflexivity.
  - destruct (as_LockedNode g input.2) as [lk|]; [|intros [= <- _]; reflexivity].
    match goal with
    | |- context [rec ?c ?j ?s] => destruct (rec c j s) as [[st3 r3]|] eqn:E
    end; [|discriminate].
    apply Hrec in E. simpl in E.
    destruct r3 as [members|e|].
    + intros Hrest. apply IH in Hrest. congruence.
    + intros [= <- _]. exact E.
    + intros [= <- _]. exact E.
Qed.

Lemma traverse_dry fuel g u json st st' r :
  traverse fuel true g u json st = Some (st', r) → effects st' = effects st.
Proof.
  revert u json st st' r. induction fuel as [|f IH]; intros u json st st' r; simpl;
    [discriminate|].
  destruct (g !! u) as [n|]; [|intros [= <- _]; reflexivity].
  destruct (traverse_inputs _ _ _ _ _ _ _) as [[st1 r1]|] eqn:Hloop; [|discriminate].
  apply traverse_inputs_dry in Hloop; [|intros c j s s' r'; apply IH].
  destruct r1; intros [= <- _]; exact Hloop.
Qed.

(** Without [--dry-run] the traversal fetches what the printer shows. *)
Lemma fetch_as_printed_inputs g rec rec' json prefix size i l out out' acc st st' ms :
  (∀ c p o o' j s s' ms',
     rec c p o = Some (o', Ok tt) → rec' c j s = Some (s', Ok ms') →
     ∃ new, printed_refs o' = printed_refs o ++ new
            ∧ effects s' = effects s ++ map FetchTree new) →
  recurse_inputs g rec prefix size i l out = Some (out', Ok tt) →
  traverse_inputs false g rec' json l acc st = Some (st', Ok ms) →
  ∃ new, printed_refs out' = printed_refs out ++ new
         ∧ effects st' = effects st ++ map FetchTree new.
Proof.
  intros Hrec. revert i out acc st.
  induction l as [|input l IH]; intros i out acc st Hprint Harchive.
  - injection Hprint as <-. injection Harchive as <- _. exists [].
    simpl. rewrite !app_nil_r. auto.
  - apply recurse_inputs_cons_Ok in Hprint as (lk & out2 & Hlk & Hchild & Hrest).
    simpl in Harchive. rewrite Hlk in Harchive.
    destruct (fetchTree (lockedRef lk)) as [[]|e|]; try discriminate.
    match type of Harchive with
    | context [rec' ?c ?j ?s] => destruct (rec' c j s) as [[st3 [members|e|]]|] eqn:E
    end; try discriminate.
    destruct (Hrec _ _ _ _ _ _ _ _ Hchild E) as (below & Hout2 & Hst3).
    destruct (IH _ _ _ _ Hrest Harchive) as (rest & Hout' & Hst').
    exists (lockedRef lk :: below ++ rest). split.
    + rewrite Hout', Hout2. unfold printed_refs. rewrite map_app. simpl.
      rewrite <- !app_assoc. reflexivity.
    + rewrite Hst', Hst3. simpl. rewrite map_app, <- !app_assoc. reflexivity.
Qed.

Lemma fetch_as_printed fuel g u prefix out out' json st st' ms :
  recurse fuel g u prefix out = Some (out', Ok tt) →
  traverse fuel false g u json st = Some (st', Ok ms) →
  ∃ new, printed_refs out' = printed_refs out ++ new
         ∧ effects st' = effects st ++ map FetchTree new.
Proof.
  revert u prefix out out' json st st' ms.
  induction fuel as [|f IH]; intros u prefix out out' json st st' ms; simpl; [discriminate|].
  destruct (g !! u) as [n|]; [|discriminate].
  intros Hprint Harchive.
  destruct (traverse_inputs _ _ _ _ _ _ _) as [[st1 [kids|e|]]|] eqn:Hloop; try discriminate.
  injection Harchive as <- _.
  eapply fetch_as_printed_inputs; [|exact Hprint|exact Hloop].
  intros c p o o' j s s' ms'. apply IH.
Qed.

(** X16. With [--dry-run], [archive_run] fetches nothing and copies
    nothing, whatever the destination is. Without it, [archive_run] fetches
    the locked references that the tree printer shows, in the order in
    which it shows them, so that a node shared by two inputs is fetched
    twice; it then copies [sources] once, to the destination, when a
    destination is given, and copies nothing when none is. *)
Theorem archive_effects (fuel : nat) (json dryRun : bool) (dstUri : string)
    (flakeStorePath : StorePath) (g : LockGraph) (root : NodeId)
    (st : ArchiveState) (doc : option JSON) :
  archive_run fuel json dryRun dstUri flakeStorePath g root = Some (st, Ok doc) →
  (dryRun = true → effects st = [])
  ∧ (dryRun = false →
     ∀ out, list_inputs_run fuel g root = Some (out, Ok tt) →
            effects st
            = map FetchTree (printed_refs out)
              ++ (if String.eqb dstUri EmptyString then []
                  else [CopyPaths dstUri (sources st)])).
Proof.
  unfold archive_run.
  destruct (traverse fuel dryRun g root json _) as [[st1 [ms|e|]]|] eqn:Htrav;
    try discriminate.
  intros Hrun. split.
  - intros ->. apply traverse_dry in Htrav. simpl in *.
    injection Hrun as <- _. exact Htrav.
  - intros -> out Hprint. unfold list_inputs_run in Hprint.
    destruct (fetch_as_printed _ _ _ _ _ _ _ _ _ _ Hprint Htrav) as (new & Hout & Heff).
    simpl in Hout, Heff. subst new. simpl in Hrun.
    destruct (String.eqb dstUri EmptyString); simpl in Hrun; injection Hrun as <- _.
    + rewrite app_nil_r. exact Heff.
    + simpl. rewrite Heff. reflexivity.
Qed.

End WalkersMore.

(* ===================================================================== *)
(** * [CmdFlakeShow]: what [visit] prints and which errors it lets through *)
(* ===================================================================== *)

Section ShowFacts.
Context `{Settings} `{Colours}.

Lemma visit_unfold (showLegacy : bool) (visitor : AttrCursor) (attrPath : list string)
    (headerPrefix nextPrefix : string) (st : ShowState) :
  visit showLegacy visitor attrPath headerPrefix nextPrefix st
  = visit_body (visit showLegacy) showLegacy visitor attrPath headerPrefix nextPrefix st.
Proof. destruct visitor as [[attrs|x] d n t]; reflexivity. Qed.

Lemma AttrCursor_children_ind (P : AttrCursor → Prop) :
  (∀ c, Forall P (children_of c) → P c) → ∀ c, P c.
Proof.
  intros Hstep. fix IH 1. intros [[l|x] d n t]; apply Hstep; simpl.
  - induction l as [|[a [c|x]] l IHl]; simpl.
    + constructor.
    + constructor; [apply IH | exact IHl].
    + exact IHl.
  - constructor.
Qed.

Lemma visit_catch_fst (attrPath : list string) (tried : ShowState * Outcome unit) :
  fst (visit_catch attrPath tried) = fst tried.
Proof.
  destruct tried as [st' [u|[e|e]]]; simpl; [reflexivity| |reflexivity].
  destruct (negb (below_legacyPackages attrPath)); reflexivity.
Qed.

Lemma starts_with_refl (a : string) : starts_with a a.
Proof.
  exists EmptyString. induction a as [|x a IH]; [reflexivity|].
  change (String x a = String x (a +:+ EmptyString)). f_equal. exact IH.
Qed.

Lemma starts_with_app (a b : string) : starts_with a (a +:+ b).
Proof. exists b. reflexivity. Qed.

Lemma starts_with_trans (a b l : string) : starts_with a b → starts_with b l → starts_with a l.
Proof.
  intros [r1 ->] [r2 ->]. exists (r1 +:+ r2). apply string_app_assoc.
Qed.

Lemma show_grows_refl k hp np st : show_grows k hp np st st.
Proof.
  exists [], []. rewrite !app_nil_r. repeat split; [constructor | simpl; lia].
Qed.

Lemma show_grows_line hp np st l :
  starts_with hp l ∨ starts_with (ANSI_GREEN +:+ np) l →
  show_grows 1 hp np st (show_line l st).
Proof.
  intros Hl. exists [l], []. simpl. rewrite app_nil_r.
  repeat split; [constructor; [exact Hl | constructor] | lia].
Qed.

Lemma show_grows_trans k1 k2 hp np st1 st2 st3 :
  show_grows k1 hp np st1 st2 → show_grows k2 hp np st2 st3 →
  show_grows (k1 + k2) hp np st1 st3.
Proof.
  intros (n1 & a1 & Ho1 & Ha1 & Hf1 & Hl1) (n2 & a2 & Ho2 & Ha2 & Hf2 & Hl2).
  exists (n1 ++ n2), (a1 ++ a2). rewrite Ho2, Ho1, Ha2, Ha1, <- !app_assoc.
  repeat split; [apply Forall_app; split; assumption|].
  rewrite !length_app. lia.
Qed.

Lemma show_grows_weaken k k' hp np st st' :
  (k ≤ k')%nat → show_grows k hp np st st' → show_grows k' hp np st st'.
Proof.
  intros Hk (n & a & Ho & Ha & Hf & Hl). exists n, a. repeat split; try assumption. lia.
Qed.

Lemma show_grows_child k hp np last attr more st st' :
  show_grows k (child_header np last attr) (np +:+ more) st st' →
  show_grows k hp np st st'.
Proof.
  intros (n & a & Ho & Ha & Hf & Hl). exists n, a. repeat split; try assumption.
  eapply Forall_impl; [exact Hf|]. intros l [Hl'|Hl']; right.
  - eapply starts_with_trans; [|exact Hl'].
    exists ((if last then treeLast else treeConn) +:+ ANSI_NORMAL +:+ ANSI_BOLD +:+ attr
            +:+ ANSI_NORMAL).
    unfold child_header. symmetry. apply string_app_assoc.
  - eapply starts_with_trans; [|exact Hl'].
    exists more. symmetry. apply string_app_assoc.
Qed.

Lemma show_grows_activity hp np a st st' :
  show_grows 1 hp np (show_activity a st) st' → show_grows 0 hp np st st'.
Proof.
  intros (n & acts & Ho & Ha & Hf & Hl). exists n, (a :: acts). simpl in *.
  split; [exact Ho|]. split; [rewrite Ha, <- app_assoc; reflexivity|].
  split; [exact Hf | lia].
Qed.

Lemma showDerivation_grows n attrPath hp np st :
  show_grows 1 hp np st (fst (showDerivation n attrPath hp st)).
Proof.
  destruct n as [name|x]; simpl; [|apply show_grows_refl].
  apply show_grows_line. left. apply starts_with_app.
Qed.

Lemma visit_attrs_grows (showLegacy : bool) (attrPath : list string) (hp np : string)
    (size : nat) (l : list (string * Outcome AttrCursor)) :
  Forall (λ c, ∀ attrPath hp np st,
            show_grows 0 hp np st (fst (visit showLegacy c attrPath hp np st)))
         (omap (λ entry, match snd entry with Done c' => Some c' | Raise _ => None end) l) →
  ∀ i st, show_grows 0 hp np st
            (fst (visit_attrs (visit showLegacy) attrPath np size i l st)).
Proof.
  induction l as [|[attr [c|x]] l IH]; intros Hall i st; simpl.
  - apply show_grows_refl.
  - simpl in Hall. apply Forall_cons in Hall as [Hc Hall].
    pose proof (Hc (attrPath ++ [attr]) (child_header np (Nat.eqb (i + 1) size) attr)
                  (np +:+ (if Nat.eqb (i + 1) size then treeNull else treeLine)) st) as Hg.
    apply (show_grows_child 0 hp) in Hg.
    destruct (visit showLegacy c _ _ _ st) as [st3 [u|x]]; simpl in Hg.
    + apply (show_grows_trans 0 0 hp np st st3); [exact Hg | apply IH; exact Hall].
    + exact Hg.
  - apply show_grows_refl.
Qed.

Lemma visit_grows (showLegacy : bool) (visitor : AttrCursor) :
  ∀ attrPath hp np st,
    show_grows 0 hp np st (fst (visit showLegacy visitor attrPath hp np st)).
Proof.
  induction visitor as [[a d n t] IH] using AttrCursor_children_ind.
  intros attrPath hp np st. rewrite visit_unfold. unfold visit_body.
  rewrite visit_catch_fst. apply show_grows_activity with
    (a := "evaluating '" +:+ concatStringsSep "." attrPath +:+ "'").
  set (st0 := show_activity _ st).
  assert (∀ st1, show_grows 1 hp np st1
            (fst (visit_recurse (visit showLegacy) a attrPath hp np st1))) as Hrec.
  { intros st1. unfold visit_recurse. destruct a as [attrs|x]; simpl.
    - apply (show_grows_trans 1 0 hp np st1 (show_line hp st1)).
      + apply show_grows_line. left. apply starts_with_refl.
      + apply visit_attrs_grows. exact IH.
    - apply show_grows_line. left. apply starts_with_refl. }
  unfold visit_tried.
  destruct (recurses attrPath); [apply Hrec|].
  destruct (expects_derivation attrPath).
  { destruct d as [[|]|x]; simpl;
      [apply showDerivation_grows | apply show_grows_refl | apply show_grows_refl]. }
  destruct (below_hydraJobs attrPath).
  { destruct d as [[|]|x]; simpl;
      [apply showDerivation_grows | apply Hrec | apply show_grows_refl]. }
  destruct (below_legacyPackages attrPath).
  { destruct (Nat.eqb (List.length attrPath) 1); [apply Hrec|].
    destruct showLegacy; simpl.
    - destruct d as [[|]|x]; simpl; [apply showDerivation_grows | | apply show_grows_refl].
      destruct (Nat.leb (List.length attrPath) 2); [apply Hrec | apply show_grows_refl].
    - apply show_grows_line. left. apply starts_with_app. }
  destruct (expects_app attrPath).
  { destruct t as [[[type|x]|]|x]; simpl; try apply show_grows_refl.
    destruct (negb (String.eqb type "app")); simpl; [apply show_grows_refl|].
    apply show_grows_line. left. apply starts_with_app. }
  simpl. apply show_grows_line. left. apply starts_with_app.
Qed.

(** X17 ([visit], flake.cc 708-820): whatever the cursor and the path, a
    visit only appends to the output and to the activities; every line it
    writes starts with the header prefix it was given or with the green
    next prefix, and it writes at most one line for each activity it
    starts. It does so also when it ends with an exception. *)
Theorem visit_lines_indented (showLegacy : bool) (visitor : AttrCursor)
    (attrPath : list string) (headerPrefix nextPrefix : string) (st : ShowState) :
  ∃ new acts,
    show_stdout (fst (visit showLegacy visitor attrPath headerPrefix nextPrefix st))
    = show_stdout st ++ new
    ∧ show_activities (fst (visit showLegacy visitor attrPath headerPrefix nextPrefix st))
      = show_activities st ++ acts
    ∧ Forall (λ l, starts_with headerPrefix l
                   ∨ starts_with (ANSI_GREEN +:+ nextPrefix) l) new
    ∧ (List.length new ≤ List.length acts)%nat.
Proof. exact (visit_grows showLegacy visitor attrPath headerPrefix nextPrefix st). Qed.

Lemma at0_head (attrPath : list string) (name : string) :
  at0 attrPath name = true → ∃ rest, attrPath = name :: rest.
Proof.
  destruct attrPath as [|a rest]; simpl; [discriminate|].
  intros ->%String.eqb_eq. exists rest. reflexivity.
Qed.

(** X18 ([visit], flake.cc 712-819): no evaluation error leaves a visit
    below [legacyPackages], whatever the cursor does. Everywhere else, and
    for every other error, a cursor whose operations fail makes the visit
    fail with the same exception at each path where [visit] uses the
    cursor. *)
Theorem visit_eval_errors (showLegacy : bool) (attrPath : list string)
    (headerPrefix nextPrefix : string) (st : ShowState) :
  (at0 attrPath "legacyPackages" = true →
   ∀ visitor e,
     snd (visit showLegacy visitor attrPath headerPrefix nextPrefix st) ≠ Raise (EvalError e))
  ∧ (looks_at showLegacy attrPath = true →
     ∀ x, at0 attrPath "legacyPackages" = false ∨ (∃ e, x = OtherError e) →
          snd (visit showLegacy (failing x) attrPath headerPrefix nextPrefix st) = Raise x).
Proof.
  split.
  - intros Hlegacy visitor e. rewrite visit_unfold. unfold visit_body.
    assert (below_legacyPackages attrPath = true) as Hbelow.
    { apply at0_head in Hlegacy as [rest ->]. reflexivity. }
    destruct (visit_tried _ _ _ _ _ _ _) as [st' [u|[e'|e']]]; simpl;
      [discriminate| |discriminate].
    rewrite Hbelow. simpl. discriminate.
  - intros Hlooks x Hx. rewrite visit_unfold. unfold visit_body.
    assert (snd (visit_tried (visit showLegacy) showLegacy (failing x) attrPath headerPrefix
                   nextPrefix
                   (show_activity ("evaluating '" +:+ concatStringsSep "." attrPath +:+ "'")
                      st)) = Raise x) as Htried.
    { unfold looks_at in Hlooks. unfold visit_tried, failing, visit_recurse.
      destruct (recurses attrPath); [reflexivity|].
      destruct (expects_derivation attrPath); [reflexivity|].
      destruct (below_hydraJobs attrPath); [reflexivity|].
      destruct (below_legacyPackages attrPath).
      - destruct (Nat.eqb (List.length attrPath) 1); [reflexivity|].
        destruct showLegacy; [reflexivity | discriminate].
      - rewrite Hlooks. reflexivity. }
    destruct (visit_tried _ _ _ _ _ _ _) as [st' r]. simpl in Htried. subst r.
    destruct x as [e|e]; simpl; [|reflexivity].
    destruct Hx as [Hnot | [e' He']]; [|discriminate].
    unfold below_legacyPackages. rewrite Hnot, andb_false_r. reflexivity.
Qed.

(** X19 ([visit], flake.cc 784-796): two or more levels below
    [legacyPackages], without [--legacy] a visit writes the one line that
    says the contents are omitted and uses no operation of the cursor. With
    [--legacy], three or more levels below, it never asks for the
    attributes of the cursor, and writes nothing for what is not a
    derivation. *)
Theorem legacyPackages_depth (attrPath : list string)
    (headerPrefix nextPrefix : string) (st : ShowState) :
  at0 attrPath "legacyPackages" = true →
  (2 ≤ List.length attrPath)%nat →
  (∀ visitor,
     visit false visitor attrPath headerPrefix nextPrefix st
     = (show_line (headerPrefix +:+ ": " +:+ ANSI_YELLOW +:+ "omitted" +:+ ANSI_NORMAL
                   +:+ " (use '--legacy' to show)")
          (show_activity ("evaluating '" +:+ concatStringsSep "." attrPath +:+ "'") st),
        Done tt))
  ∧ ((3 ≤ List.length attrPath)%nat →
     ∀ attrs attrs' d n t t',
       visit true (mkCursor attrs d n t) attrPath headerPrefix nextPrefix st
       = visit true (mkCursor attrs' d n t') attrPath headerPrefix nextPrefix st
       ∧ (d = Done false →
          visit true (mkCursor attrs d n t) attrPath headerPrefix nextPrefix st
          = (show_activity ("evaluating '" +:+ concatStringsSep "." attrPath +:+ "'") st,
             Done tt))).
Proof.
  intros Hlegacy Hsize. apply at0_head in Hlegacy as [rest ->].
  destruct rest as [|system rest]; [simpl in Hsize; lia|].
  assert (recurses ("legacyPackages" :: system :: rest) = false) as Hrec.
  { unfold recurses. simpl. rewrite andb_false_r. reflexivity. }
  assert (expects_derivation ("legacyPackages" :: system :: rest) = false) as Hdrv.
  { unfold expects_derivation. simpl. rewrite !andb_false_r. reflexivity. }
  split.
  - intros visitor. rewrite visit_unfold. unfold visit_body, visit_tried.
    destruct visitor as [a d n t]. rewrite Hrec, Hdrv. reflexivity.
  - intros Hdeep attrs attrs' d n t t'.
    destruct rest as [|name rest]; [simpl in Hdeep; lia|].
    rewrite !visit_unfold. unfold visit_body, visit_tried. rewrite Hrec, Hdrv.
    split; [destruct d as [[|]|x]; reflexivity|]. intros ->. reflexivity.
Qed.

(** X20 ([visit], flake.cc 750-815): for a top-level output whose name is
    not one of the ten that [visit] knows how to go into, a visit writes
    one line and uses no operation of the cursor: "Nixpkgs overlay" for
    [overlay], "unknown" for every other name. *)
Theorem visit_other_output (showLegacy : bool) (visitor : AttrCursor) (name : string)
    (headerPrefix nextPrefix : string) (st : ShowState) :
  name ∉ shown_outputs →
  visit showLegacy visitor [name] headerPrefix nextPrefix st
  = (show_line (headerPrefix +:+ ": "
                +:+ (if String.eqb name "overlay" then "Nixpkgs overlay"
                     else ANSI_YELLOW +:+ "unknown" +:+ ANSI_NORMAL))
       (show_activity ("evaluating '" +:+ name +:+ "'") st),
     Done tt).
Proof.
  intros Hname.
  assert (∀ x, x ∈ shown_outputs → String.eqb name x = false) as Hne.
  { intros x Hx. apply String.eqb_neq. intros ->. contradiction. }
  rewrite visit_unfold. destruct visitor as [a d n t].
  unfold visit_body, visit_tried, recurses, expects_derivation, below_hydraJobs,
    below_legacyPackages, expects_app, other_label, at0.
  simpl List.length. simpl Nat.eqb. simpl Nat.ltb.
  rewrite !Hne by (apply list_elem_of_In; simpl; tauto).
  reflexivity.
Qed.

End ShowFacts.

(* ===================================================================== *)
(** * The statements at work on the sample collaborators *)
(* ===================================================================== *)

Import Sample.

(** The hypotheses of C4 hold of the overlays [self: prev: ...] and
    [final: 0]. *)
Lemma checkOverlay_shape_witness :
  let s := s0 in
  checkOverlay "overlay" (VLambda "self" false false (ExprLambda "prev" false false ExprOther))
    here s
  = (s, Throw (mkError ("while checking the overlay '" +:+ ANSI_BOLD +:+ "overlay"
                        +:+ ANSI_NORMAL +:+ "' at flake.nix:" +:+ nl)
                 "overlay does not take an argument named 'final'"))
  ∧ checkOverlay "overlay" (VLambda "final" false false ExprOther) here s
  = (s, Throw (mkError ("while checking the overlay '" +:+ ANSI_BOLD +:+ "overlay"
                        +:+ ANSI_NORMAL +:+ "' at flake.nix:" +:+ nl)
                 "overlay does not take an argument named 'prev'")).
Proof.
  intros s.
  pose proof (checkOverlay_shape "overlay" here s) as (Hfinal & Hprev & _).
  split.
  - rewrite (Hfinal "self" false false (ExprLambda "prev" false false ExprOther)).
    + reflexivity.
    + right. discriminate.
  - rewrite (Hprev false ExprOther).
    + reflexivity.
    + intros e b. discriminate.
Defined.


(** The hypotheses of C5 hold of the derivation [hello] at the top level and
    under the job name [job]. *)
Lemma checkHydraJobs_shape_witness :
  checkHydraJobs "hydraJobs" hello here s0
  = (s0, Throw (addPrefix
                  ("while checking the Hydra jobset '" +:+ ANSI_BOLD +:+ "hydraJobs"
                   +:+ ANSI_NORMAL +:+ "' at " +:+ showPos here +:+ ":" +:+ nl)
                  (mkError EmptyString "jobset should not be a derivation at top-level")))
  ∧ checkFlakeOutput "hydraJobs" (VAttrs [mkAttr "job" hello here]) here s0
    = (logged (StartActivity "checking flake output 'hydraJobs'") s0, Ok tt).
Proof.
  pose proof (checkHydraJobs_shape "hydraJobs" here s0) as (Htop & Hnested & _).
  split.
  - apply Htop. reflexivity.
  - apply Hnested; reflexivity.
Defined.

(** The hypotheses of C1 hold of [two_systems]: of the two entries, the one
    under [x86_64-linux] is collected. *)
Lemma checks_collect_this_system_witness :
  checks_entry "checks" (mkAttr "x86_64-linux" (VInt 0) here) (mkAttr "hello" hello here) s0
  = (collected ["/nix/store/hello.drv"] s0, Ok tt)
  ∧ checks_entry "checks" (mkAttr "aarch64-linux" (VInt 0) here) (mkAttr "hello" hello here) s0
    = (s0, Ok tt)
  ∧ checkFlakeOutput "checks" (VAttrs two_systems) here s0
    = (collected ["/nix/store/hello.drv"]
         (logged (StartActivity "checking flake output 'checks'") s0), Ok tt).
Proof.
  destruct (checks_collect_this_system "checks" s0) as [Hentry Hall].
  split; [|split].
  - apply (Hentry (mkAttr "x86_64-linux" (VInt 0) here) (mkAttr "hello" hello here));
      reflexivity.
  - apply (Hentry (mkAttr "aarch64-linux" (VInt 0) here) (mkAttr "hello" hello here)
             "/nix/store/hello.drv"); [reflexivity|].
    simpl. discriminate.
  - rewrite (Hall two_systems here); [reflexivity|].
    assert (Forall (fun attr2 => is_Some (drvPath_of (attr_value attr2)))
              [mkAttr "hello" hello here]) as Hhello.
    { constructor; [|constructor]. exists "/nix/store/hello.drv". reflexivity. }
    unfold two_systems. constructor; [|constructor; [|constructor]].
    + split.
      * apply string_find_is_Some. exists 6. reflexivity.
      * exists [mkAttr "hello" hello here]. split; [reflexivity|exact Hhello].
    + split.
      * apply string_find_is_Some. exists 7. reflexivity.
      * exists [mkAttr "hello" hello here]. split; [reflexivity|exact Hhello].
Defined.

(** C2 fails as stated: in [flake_bad_overlay] the check of [overlay]
    throws, and [packages], which comes after it, is never looked at; in
    [flake_two_bad], whichever of the two outputs comes first, its check
    throws and the other output is never looked at. *)
Lemma siblings_after_error_counterexample :
  (∃ s' e,
     run true flake_bad_overlay s0 = (s', Throw e)
     ∧ In (StartActivity "checking flake output 'overlay'") (trace s')
     ∧ ¬ In (StartActivity "checking flake output 'packages'") (trace s'))
  ∧ (∃ s' e,
       run true (flake_two_bad true) s0 = (s', Throw e)
       ∧ In (StartActivity "checking flake output 'overlay'") (trace s')
       ∧ ¬ In (StartActivity "checking flake output 'nixosModule'") (trace s'))
  ∧ (∃ s' e,
       run true (flake_two_bad false) s0 = (s', Throw e)
       ∧ In (StartActivity "checking flake output 'nixosModule'") (trace s')
       ∧ ¬ In (StartActivity "checking flake output 'overlay'") (trace s')).
Proof.
  split; [|split].
  all: eexists; eexists; split; [reflexivity|]; simpl; split;
    [right; right; left; reflexivity
    |intros [Hin|[Hin|[Hin|[]]]]; discriminate].
Qed.

(** The hypotheses of C9 hold of [flake_one_check]: with [build], the one
    collected derivation is built; without, nothing is. *)
Lemma build_flag_witness :
  run true flake_one_check s0
  = (mkCheckState false [mkSPWO "/nix/store/hello.drv" []]
       [SetReadOnlyMode false; StartActivity "evaluating flake";
        StartActivity "checking flake output 'checks'";
        StartActivity "running flake checks";
        BuildPaths [mkSPWO "/nix/store/hello.drv" []]], Ok tt)
  ∧ readOnlyMode (run false flake_one_check s0).1 = true.
Proof.
  destruct (build_flag flake_one_check s0) as [Hmode Hbuild]. split.
  - rewrite (proj1 (Hbuild
               (mkCheckState false [mkSPWO "/nix/store/hello.drv" []]
                  [SetReadOnlyMode false; StartActivity "evaluating flake";
                   StartActivity "checking flake output 'checks'"])
               eq_refl ltac:(discriminate))).
    reflexivity.
  - apply (Hmode false _ (run false flake_one_check s0).2).
    destruct (run false flake_one_check s0). reflexivity.
Defined.

(** Case analysis on an edge of a graph that is written out. *)
Ltac edge_cases Hedge :=
  let n := fresh "n" in
  let name := fresh "name" in
  let Hn := fresh "Hn" in
  let Hin := fresh "Hin" in
  destruct Hedge as (n & name & Hn & Hin);
  try unfold diamond in Hn; try unfold three_nodes in Hn; try unfold looping in Hn;
  repeat (apply lookup_insert_Some in Hn as [[<- <-]|[_ Hn]]);
  try (apply lookup_singleton_Some in Hn as [<- <-]);
  try (rewrite lookup_empty in Hn; discriminate);
  simpl in Hin;
  repeat (apply elem_of_cons in Hin as [[= -> ->]|Hin]);
  try (inversion Hin; fail).

Lemma diamond_edges_down u v : edge diamond u v → (u < v ≤ 3)%nat.
Proof. intros Hedge. edge_cases Hedge; lia. Qed.

Lemma diamond_acyclic : acyclic_from diamond 0.
Proof.
  apply (acyclic_by_rank diamond (fun u => 4 - u) 0).
  intros u v Hedge. apply diamond_edges_down in Hedge. lia.
Qed.

Lemma diamond_locked : inputs_locked diamond.
Proof. intros u v Hedge. edge_cases Hedge; eexists; reflexivity. Qed.

Lemma three_nodes_acyclic : acyclic_from three_nodes 0.
Proof.
  apply (acyclic_by_rank three_nodes (fun u => 3 - u) 0).
  intros u v Hedge. edge_cases Hedge; simpl; lia.
Qed.

Lemma three_nodes_locked : inputs_locked three_nodes.
Proof. intros u v Hedge. edge_cases Hedge; eexists; reflexivity. Qed.

Lemma looping_locked : inputs_locked looping.
Proof. intros u v Hedge. edge_cases Hedge; eexists; reflexivity. Qed.

Lemma looping_reaches_cycle : reaches_cycle looping 0.
Proof.
  exists 1. split.
  - apply rtc_once. exists (mkNode [("a", 1)] None), "a". split; [reflexivity|constructor].
  - apply tc_once. exists (mkNode [("self", 1)] (Some (mkLockedNode "x" "x"))), "self".
    split; [reflexivity|constructor].
Qed.

Lemma always_fetches : fetches_succeed false.
Proof. right. intros r. reflexivity. Qed.

(** The hypotheses of C6 hold of [diamond]: the inputs [a] and [b] share
    the node [c], whose store path is collected once. *)
Lemma shared_input_collected_once_witness :
  ∃ st doc,
    archive_run 5 true false EmptyString "/nix/store/self" diamond 0 = Some (st, Ok doc)
    ∧ "/nix/store/z" ∈ sources st
    ∧ List.length (filter (fun p => p = "/nix/store/z") (elements (sources st))) = 1.
Proof.
  destruct (shared_input_collected_once 5 true false EmptyString "/nix/store/self" diamond 0)
    as [Honce Hreturns].
  destruct Hreturns as (st & doc & Hrun).
  - exact diamond_acyclic.
  - exact diamond_locked.
  - exact always_fetches.
  - apply elem_of_dom. eexists. reflexivity.
  - vm_compute. lia.
  - exists st, doc. split; [exact Hrun|].
    apply (Honce 1 2 3 (mkLockedNode "z" "z") st doc Hrun).
    + apply rtc_once. eexists _, "a". split; [reflexivity|repeat constructor].
    + apply rtc_once. eexists _, "b". split; [reflexivity|repeat constructor].
    + discriminate.
    + eexists _, "c". split; [reflexivity|repeat constructor].
    + eexists _, "c". split; [reflexivity|repeat constructor].
    + reflexivity.
Defined.

(** The hypotheses of C7 hold of [three_nodes]: both outputs name [a]
    before [b]. *)
Lemma same_visit_order_witness :
  ∃ out doc,
    printed_names out = document_names doc
    ∧ inputs_preorder 4 three_nodes 0 = Some (printed_names out)
    ∧ ∃ l1 l2 l3, printed_names out = l1 ++ "a" :: l2 ++ "b" :: l3
                  ∧ document_names doc = l1 ++ "a" :: l2 ++ "b" :: l3.
Proof.
  destruct (same_visit_order 4 false EmptyString "/nix/store/self" three_nodes 0)
    as [Horder Hreturns].
  destruct Hreturns as (out & st & doc & Hprint & Harchive).
  - exact three_nodes_acyclic.
  - exact three_nodes_locked.
  - exact always_fetches.
  - apply elem_of_dom. eexists. reflexivity.
  - vm_compute. lia.
  - exists out, doc.
    destruct (Horder out st doc Hprint Harchive) as (Hsame & Hpre & Hbefore).
    split; [exact Hsame|]. split; [exact Hpre|].
    apply (Hbefore (mkNode [("a", 1); ("b", 2)] None) [] "a" 1 [] "b" 2 []); reflexivity.
Defined.

(** The hypotheses of C8 hold of [diamond], on which both recursions
    return, and of [looping], on which they reach every bound. *)
Lemma lock_walkers_termination_witness :
  (∃ out', recurse 5 diamond 0 EmptyString [] = Some (out', Ok tt))
  ∧ (∃ st' ms, traverse 5 false diamond 0 true (mkArchiveState ∅ []) = Some (st', Ok ms))
  ∧ (∀ fuel, recurse fuel looping 0 EmptyString [] = None
             ∧ traverse fuel false looping 0 true (mkArchiveState ∅ []) = None).
Proof.
  destruct (lock_walkers_termination diamond 0 false true EmptyString [] (mkArchiveState ∅ []))
    as (_ & Hreturns & _ & _).
  destruct (lock_walkers_termination looping 0 false true EmptyString [] (mkArchiveState ∅ []))
    as (_ & _ & _ & Hdiverges).
  assert ((size diamond < 5)%nat) as Hsize by (vm_compute; lia).
  assert (0 ∈ dom diamond) as Hroot by (apply elem_of_dom; eexists; reflexivity).
  destruct (Hreturns diamond_acyclic diamond_locked always_fetches Hroot 5 Hsize)
    as [Hprint Harchive].
  split; [exact Hprint|]. split; [exact Harchive|].
  exact (Hdiverges looping_reaches_cycle looping_locked always_fetches).
Defined.

(** The hypotheses of C3 hold of [packages = { x86_64-linux = { }; foo = 0; }],
    where [foo] is the error, and of [apps.x86_64-linux.hello], an app
    definition under a key with a hyphen, which passes. *)
Lemma system_name_check_witness :
  checkFlakeOutput "packages"
    (VAttrs ([mkAttr "x86_64-linux" (VAttrs []) here] ++ mkAttr "foo" (VInt 0) here :: []))
    here s0
  = (logged (StartActivity "checking flake output 'packages'") s0,
     Throw (addPrefix
              ("while checking flake output '" +:+ ANSI_BOLD +:+ "packages" +:+ ANSI_NORMAL
               +:+ "':" +:+ nl)
              (mkError EmptyString ("'" +:+ "foo" +:+ "' is not a valid system type, at "
                           +:+ showPos here))))
  ∧ ∃ s', checkFlakeOutput "apps"
            (VAttrs [mkAttr "x86_64-linux" (VAttrs [mkAttr "hello" SampleMore.hello_app here])
                       here]) here s0
          = (s', Ok tt).
Proof.
  split.
  - assert ("packages" ∈ system_keyed) as Hin.
    { unfold system_keyed. constructor. }
    apply (proj1 (proj2 (system_name_check "packages" Hin))).
    + reflexivity.
    + simpl. intros [Hf|[Ho|[Ho'|[]]]]; discriminate.
  - assert ("apps" ∈ system_keyed) as Hin.
    { unfold system_keyed. repeat constructor. }
    apply (proj1 (proj2 (proj2 (proj2 (proj2 (system_name_check "apps" Hin)))))).
    + constructor; [|constructor].
      exists [mkAttr "hello" SampleMore.hello_app here]. split; [reflexivity|].
      constructor; [|constructor].
      exists (mkApp ["!out!/nix/store/hello.drv"; "/nix/store/source"]
                "/nix/store/hello/bin/hello").
      split; [reflexivity|].
      constructor; [eexists; reflexivity|].
      constructor; [eexists; reflexivity|constructor].
    + constructor; [|constructor]. apply string_find_is_Some. exists 6. reflexivity.
Defined.

(** The hypotheses of C10 hold of [packages.x86_64-linux.hello = hello]: the
    derivation passes and [drvPaths] stays empty; after the run on
    [flake_one_check] every element of [drvPaths] comes from an output that
    collects. *)
Lemma only_checks_and_apps_collect_witness :
  checkFlakeOutput "packages"
    (VAttrs [mkAttr "x86_64-linux" (VAttrs [mkAttr "hello" hello here]) here]) here s0
  = (logged (StartActivity "checking flake output 'packages'") s0, Ok tt)
  ∧ drvPaths (logged (StartActivity "checking flake output 'packages'") s0) = drvPaths s0
  ∧ ∃ ps, drvPaths (run true flake_one_check s0).1 = map (fun p => mkSPWO p []) ps
          ∧ Forall (fun p => ∃ attr, attr ∈ flake_outputs flake_one_check
                                     ∧ collectable (attr_name attr) (attr_value attr) p) ps.
Proof.
  split; [reflexivity|]. split.
  - apply (proj1 (only_checks_and_apps_collect
                    (VAttrs [mkAttr "x86_64-linux" (VAttrs [mkAttr "hello" hello here]) here])
                    here s0) "packages" _ (Ok tt)).
    + constructor.
    + reflexivity.
  - apply (proj2 (proj2 (proj2 (proj2 (proj2
             (only_checks_and_apps_collect VOther here s0)))))
             true flake_one_check s0 _ (run true flake_one_check s0).2).
    destruct (run true flake_one_check s0). reflexivity.
Defined.

(** The hypotheses of the amended C2 hold of [flake_bad_overlay]: the error
    of [overlay] ends the run, and [packages], which comes after it, has no
    activity in the trace. *)
Lemma first_error_ends_the_check_witness :
  run true flake_bad_overlay s0
  = (logged (StartActivity "checking flake output 'overlay'") (evaluating true s0),
     Throw (mkError
              ("while checking flake output '" +:+ ANSI_BOLD +:+ "overlay" +:+ ANSI_NORMAL
               +:+ "':" +:+ nl
               +:+ "while checking the overlay '" +:+ ANSI_BOLD +:+ "overlay"
               +:+ ANSI_NORMAL +:+ "' at flake.nix:" +:+ nl)
              "overlay does not take an argument named 'final'"))
  ∧ ∃ evs,
      trace (logged (StartActivity "checking flake output 'overlay'") (evaluating true s0))
      = trace (evaluating true s0) ++ evs
      ∧ List.filter is_output_activity evs = [output_activity "overlay"]
      ∧ build_calls evs = [].
Proof.
  assert (checkFlakeOutput "overlay" (VInt 0) here (evaluating true s0)
          = (logged (StartActivity "checking flake output 'overlay'") (evaluating true s0),
             Throw (mkError
                      ("while checking flake output '" +:+ ANSI_BOLD +:+ "overlay"
                       +:+ ANSI_NORMAL +:+ "':" +:+ nl
                       +:+ "while checking the overlay '" +:+ ANSI_BOLD +:+ "overlay"
                       +:+ ANSI_NORMAL +:+ "' at flake.nix:" +:+ nl)
                      "overlay does not take an argument named 'final'"))) as Hthrow
    by reflexivity.
  destruct (first_error_ends_the_check true
              [mkAttr "outputs"
                 (VAttrs [mkAttr "overlay" (VInt 0) here; mkAttr "packages" (VAttrs []) here])
                 here]
              (mkAttr "outputs"
                 (VAttrs [mkAttr "overlay" (VInt 0) here; mkAttr "packages" (VAttrs []) here])
                 here)
              [] [mkAttr "packages" (VAttrs []) here] (mkAttr "overlay" (VInt 0) here)
              s0 (evaluating true s0) _ _ eq_refl eq_refl eq_refl Hthrow)
    as (Hrun & _ & Htrace).
  split; [exact Hrun|exact Htrace].
Defined.

(* ===================================================================== *)
(** * The further statements at work on the sample collaborators *)
(* ===================================================================== *)

Import SampleMore.

(** A name is not in a list that is written out. *)
Ltac not_in_list :=
  let Hin := fresh "Hin" in
  intros Hin; apply list_elem_of_In in Hin; simpl in Hin; intuition discriminate.

(** X1 at work: a function of a plain argument is not a module, the empty
    attribute set is one. *)
Lemma checkModule_accepts_witness :
  checkModule "nixosModule" (VLambda "x" false false ExprOther) here s0
  = (s0, Throw (addPrefix (module_context "nixosModule" here)
                  (mkError EmptyString
                     "module must match an open attribute set ('{ config, ... }')")))
  ∧ checkModule "nixosModule" (VAttrs []) here s0 = (s0, Ok tt)
  ∧ checkModule "nixosModule"
      (VAttrs ([] ++ mkAttr "enable" (VThunkFails (mkError EmptyString "undefined variable"))
                       here :: [])) here s0
    = (s0, Throw (addPrefix (module_context "nixosModule" here)
                    (addPrefix (option_context "enable" here)
                       (mkError EmptyString "undefined variable")))).
Proof.
  split; [|split].
  - apply (proj1 (proj2 (proj2 (checkModule_accepts "nixosModule"
                                  (VLambda "x" false false ExprOther) here s0)))
             "x" false false ExprOther); reflexivity.
  - apply (proj1 (proj2 (checkModule_accepts "nixosModule" (VAttrs []) here s0))).
    right. exists []. split; [reflexivity|constructor].
  - apply (proj2 (proj2 (proj2 (proj2 (checkModule_accepts "nixosModule" _ here s0))))
             [] "enable" (mkError EmptyString "undefined variable") here []);
      [reflexivity|constructor].
Defined.

(** X2 at work: a derivation passes as [config.system.build.toplevel], the
    empty attribute set does not. *)
Lemma checkNixOSConfiguration_accepts_witness :
  checkNixOSConfiguration "nixosConfigurations.host" hello here s0
  = (logged (StartActivity "checking NixOS configuration 'nixosConfigurations.host'") s0,
     Ok tt)
  ∧ checkNixOSConfiguration "nixosConfigurations.host" (VAttrs []) here s0
    = (logged (StartActivity "checking NixOS configuration 'nixosConfigurations.host'") s0,
       Throw (addPrefix (configuration_context "nixosConfigurations.host" here)
                (mkError EmptyString
                   "attribute 'config.system.build.toplevel' is not a derivation"))).
Proof.
  split.
  - apply (proj1 (proj2 (checkNixOSConfiguration_accepts "nixosConfigurations.host" hello
                           here s0))).
    eexists. split; reflexivity.
  - apply (proj2 (proj2 (checkNixOSConfiguration_accepts "nixosConfigurations.host"
                           (VAttrs []) here s0)) []); reflexivity.
Defined.

(** X3 at work: the output [lib] is warned about and passes. *)
Lemma unknown_output_warns_witness :
  checkFlakeOutput "lib" (VInt 0) here s0
  = (logged (Warn "unknown flake output 'lib'")
       (logged (StartActivity "checking flake output 'lib'") s0), Ok tt)
  ∧ checkFlakeOutput "lib" (VThunkFails (mkError EmptyString "undefined variable")) here s0
    = (logged (StartActivity "checking flake output 'lib'") s0,
       Throw (addPrefix (output_context "lib") (mkError EmptyString "undefined variable"))).
Proof.
  assert ("lib" ∉ known_outputs) as Hname by not_in_list.
  split.
  - apply (proj1 (unknown_output_warns "lib" (VInt 0) here s0 Hname)).
    intros e. discriminate.
  - apply (proj2 (unknown_output_warns "lib" _ here s0 Hname)). reflexivity.
Defined.

(** X4 at work: a flake value without [outputs], an [outputs] that is a
    number, and an empty [outputs]. *)
Lemma enumerateOutputs_edges_witness :
  enumerateOutputs (VAttrs []) checkFlakeOutput s0 = (s0, Crash)
  ∧ enumerateOutputs (VAttrs [mkAttr "outputs" (VInt 0) here]) checkFlakeOutput s0
    = (s0, Throw (mkError EmptyString "value is an integer while a set was expected"))
  ∧ run true (VAttrs [mkAttr "outputs" (VAttrs []) here]) s0 = (evaluating true s0, Ok tt).
Proof.
  destruct (enumerateOutputs_edges checkFlakeOutput s0) as (Hnone & _ & Htype & _ & Hrun).
  split; [|split].
  - apply Hnone. reflexivity.
  - apply (Htype _ (mkAttr "outputs" (VInt 0) here)).
    + reflexivity.
    + intros e. discriminate.
    + intros outs. discriminate.
  - apply (Hrun true _ (mkAttr "outputs" (VAttrs []) here)); reflexivity.
Defined.

Lemma two_systems_derivations : derivations_by_system two_systems.
Proof.
  assert (Forall (fun attr2 => is_Some (drvPath_of (attr_value attr2)))
            [mkAttr "hello" hello here]) as Hhello.
  { constructor; [|constructor]. exists "/nix/store/hello.drv". reflexivity. }
  unfold two_systems. constructor; [|constructor; [|constructor]].
  - split.
    + apply string_find_is_Some. exists 6. reflexivity.
    + exists [mkAttr "hello" hello here]. split; [reflexivity|exact Hhello].
  - split.
    + apply string_find_is_Some. exists 7. reflexivity.
    + exists [mkAttr "hello" hello here]. split; [reflexivity|exact Hhello].
Qed.

(** X5 at work: [two_systems] passes as [packages] and as [checks];
    [packages.x86_64-linux.hello = 0] is the error about a derivation. *)
Lemma packages_and_checks_accept_witness :
  (∃ s', checkFlakeOutput "packages" (VAttrs two_systems) here s0 = (s', Ok tt))
  ∧ (∃ s', checkFlakeOutput "checks" (VAttrs two_systems) here s0 = (s', Ok tt))
  ∧ checkFlakeOutput "packages"
      (VAttrs ([] ++ mkAttr "x86_64-linux" (VAttrs ([] ++ mkAttr "hello" (VInt 0) here :: []))
                       here :: [])) here s0
    = (logged (StartActivity "checking flake output 'packages'") s0,
       Throw (addPrefix (output_context "packages")
                (addPrefix (derivation_context "packages.x86_64-linux.hello" here)
                   (mkError EmptyString
                      "flake attribute 'packages.x86_64-linux.hello' is not a derivation")))).
Proof.
  split; [|split].
  - apply (proj1 (packages_and_checks_accept two_systems here s0)).
    exact two_systems_derivations.
  - apply (proj1 (proj2 (packages_and_checks_accept two_systems here s0))).
    exact two_systems_derivations.
  - apply (proj2 (proj2 (packages_and_checks_accept _ here s0))
             [] "x86_64-linux" here [] "hello" (VInt 0) here [] []).
    + reflexivity.
    + constructor.
    + apply string_find_is_Some. exists 6. reflexivity.
    + constructor.
    + reflexivity.
Defined.

(** X6 at work: [defaultPackage.x86_64-linux = hello] passes,
    [defaultPackage.x86_64-linux = 0] is the error about a derivation. *)
Lemma defaultPackage_accepts_witness :
  checkFlakeOutput "defaultPackage" (VAttrs [mkAttr "x86_64-linux" hello here]) here s0
  = (logged (StartActivity "checking flake output 'defaultPackage'") s0, Ok tt)
  ∧ checkFlakeOutput "defaultPackage"
      (VAttrs ([] ++ mkAttr "x86_64-linux" (VInt 0) here :: [])) here s0
    = (logged (StartActivity "checking flake output 'defaultPackage'") s0,
       Throw (addPrefix (output_context "defaultPackage")
                (addPrefix (derivation_context "defaultPackage.x86_64-linux" here)
                   (mkError EmptyString
                      "flake attribute 'defaultPackage.x86_64-linux' is not a derivation")))).
Proof.
  assert ("defaultPackage" ∈ ["defaultPackage"; "devShell"]) as Hname by constructor.
  split.
  - apply (proj1 (proj2 (defaultPackage_accepts "defaultPackage" _ here s0 Hname))).
    constructor; [|constructor]. split.
    + apply string_find_is_Some. exists 6. reflexivity.
    + exists "/nix/store/hello.drv". reflexivity.
  - apply (proj2 (proj2 (defaultPackage_accepts "defaultPackage" _ here s0 Hname))
             [] "x86_64-linux" (VInt 0) here []).
    + reflexivity.
    + constructor.
    + apply string_find_is_Some. exists 6. reflexivity.
    + reflexivity.
Defined.

(** X7 at work: under [legacyPackages] a value whose evaluation fails
    passes like a number does. *)
Lemma legacyPackages_ignores_values_witness :
  checkFlakeOutput "legacyPackages"
    (VAttrs [mkAttr "x86_64-linux" (VThunkFails (mkError EmptyString "undefined variable"))
               here]) here s0
  = checkFlakeOutput "legacyPackages" (VAttrs [mkAttr "x86_64-linux" (VInt 0) here]) here s0.
Proof.
  apply legacyPackages_ignores_values.
  constructor; [split; reflexivity | constructor].
Defined.

(** X8 at work: with nothing to check nothing is built; with one check
    under the current system [buildPaths] is called once, on it. *)
Lemma run_builds_at_most_once_witness :
  run true (VAttrs [mkAttr "outputs" (VAttrs []) here]) s0 = (evaluating true s0, Ok tt)
  ∧ ∃ evs, trace (run true flake_one_check s0).1 = trace s0 ++ evs
           ∧ build_calls evs = [[mkSPWO "/nix/store/hello.drv" []]].
Proof.
  split.
  - apply (proj2 (proj2 (run_builds_at_most_once true
                           (VAttrs [mkAttr "outputs" (VAttrs []) here]) s0)));
      reflexivity.
  - destruct (proj1 (run_builds_at_most_once true flake_one_check s0)
                (run true flake_one_check s0).1 (run true flake_one_check s0).2)
      as (evs & Htrace & _).
    + destruct (run true flake_one_check s0). reflexivity.
    + exists evs. split; [exact Htrace|].
      vm_compute in Htrace. rewrite <- Htrace. reflexivity.
Defined.

(** X9 at work: the overlay [final: prev: ...] passes under [overlays], the
    overlay [self: prev: ...] does not. *)
Lemma overlays_and_modules_accept_witness :
  checkFlakeOutput "overlays"
    (VAttrs [mkAttr "default"
               (VLambda "final" false false (ExprLambda "prev" false false ExprOther)) here])
    here s0
  = (logged (StartActivity "checking flake output 'overlays'") s0, Ok tt)
  ∧ checkFlakeOutput "overlays"
      (VAttrs ([] ++ mkAttr "default"
                       (VLambda "self" false false (ExprLambda "prev" false false ExprOther))
                       here :: [])) here s0
    = (logged (StartActivity "checking flake output 'overlays'") s0,
       Throw (addPrefix (output_context "overlays")
                (addPrefix (overlay_context "overlays.default" here)
                   (mkError EmptyString
                      "overlay does not take an argument named 'final'")))).
Proof.
  split.
  - apply (proj1 (overlays_and_modules_accept _ here s0)).
    constructor; [|constructor]. exists false, false, ExprOther. reflexivity.
  - apply (proj2 (proj2 (proj2 (overlays_and_modules_accept _ here s0)))
             [] "default" "self" false false (ExprLambda "prev" false false ExprOther)
             here []).
    + reflexivity.
    + constructor.
    + right. discriminate.
Defined.

(** X10 at work: [hydraJobs.job = 0] is a type error. *)
Lemma hydraJobs_attribute_not_a_set_witness :
  checkHydraJobs "hydraJobs" (VAttrs ([] ++ mkAttr "job" (VInt 0) here :: [])) here s0
  = (s0, Throw (addPrefix (jobset_context "hydraJobs" here)
                  (mkError EmptyString
                     "value is an integer while a set was expected, at flake.nix"))).
Proof.
  assert (forces (VInt 0)) as Hforces by (intros e; discriminate).
  assert (∀ attrs, VInt 0 ≠ VAttrs attrs) as Hnot by (intros attrs; discriminate).
  exact (hydraJobs_attribute_not_a_set "hydraJobs" here s0 [] [] "job" (VInt 0) here
           eq_refl eq_refl Hforces Hnot).
Defined.

(** X11 at work: of the two context entries of [hello_app], the one that
    names an output of a derivation is collected. *)
Lemma checkApp_collects_witness :
  checkApp "apps.x86_64-linux.hello" hello_app here s0
  = (collected ["/nix/store/hello.drv"] s0, Ok tt)
  ∧ checkApp "apps.x86_64-linux.hello" (VInt 0) here s0
    = (s0, Throw (addPrefix
                    ("while checking the app definition '" +:+ ANSI_BOLD
                     +:+ "apps.x86_64-linux.hello" +:+ ANSI_NORMAL +:+ "' at "
                     +:+ showPos here +:+ ":" +:+ nl)
                    (mkError EmptyString "app is not an attribute set"))).
Proof.
  split.
  - assert (context_parses ["!out!/nix/store/hello.drv"; "/nix/store/source"]) as Hparses.
    { constructor; [eexists; reflexivity|].
      constructor; [eexists; reflexivity|constructor]. }
    exact (proj1 (checkApp_collects "apps.x86_64-linux.hello" hello_app here s0)
             (mkApp ["!out!/nix/store/hello.drv"; "/nix/store/source"]
                "/nix/store/hello/bin/hello") eq_refl Hparses).
  - apply (proj2 (checkApp_collects "apps.x86_64-linux.hello" (VInt 0) here s0)).
    reflexivity.
Defined.

(** X12 at work: on [diamond], after one line printed earlier, the printer
    adds four lines, all indented by the prefix it was given. *)
Lemma printer_appends_indented_witness :
  ∃ new,
    recurse 5 diamond 0 ">> " [mkLine EmptyString "earlier" "w"]
    = Some ([mkLine EmptyString "earlier" "w"] ++ new, Ok tt)
    ∧ Forall (indented ">> ") new
    ∧ List.length new = 4.
Proof.
  assert (∃ out', recurse 5 diamond 0 ">> " [mkLine EmptyString "earlier" "w"]
                  = Some (out', Ok tt)) as [out' Hrun]
    by (vm_compute; eexists; reflexivity).
  destruct (printer_appends_indented 5 diamond 0 ">> " [mkLine EmptyString "earlier" "w"]
              out' (Ok tt) Hrun) as (new & Hout & Hnew & Hindented).
  exists new. subst out'. split; [exact Hrun|]. split; [exact Hindented|].
  vm_compute in Hnew. injection Hnew as <-. reflexivity.
Defined.

(** X13 at work: on [three_nodes] the second block of the output starts
    with the line of the input [b], the last one. *)
Lemma printer_draws_inputs_witness :
  ∃ blocks below,
    recurse 3 three_nodes 0 EmptyString [] = Some (concat blocks, Ok tt)
    ∧ List.length blocks = 2
    ∧ blocks !! 1 = Some (mkLine (EmptyString +:+ treeLast) "b" "y" :: below).
Proof.
  assert (∃ out, recurse 3 three_nodes 0 EmptyString [] = Some (out, Ok tt)) as [out Hrun]
    by (vm_compute; eexists; reflexivity).
  destruct (printer_draws_inputs 2 three_nodes 0 (mkNode [("a", 1); ("b", 2)] None)
              EmptyString out eq_refl Hrun) as (blocks & Hout & Hlen & Hblocks).
  destruct (Hblocks 1 ("b", 2) eq_refl) as (lockedInput & below & Hlocked & Hblock & _).
  exists blocks, below. subst out. split; [exact Hrun|]. split; [exact Hlen|].
  vm_compute in Hlocked. injection Hlocked as <-. exact Hblock.
Defined.

(** X14 at work: on [unlocked_input] both walkers stop at the first input;
    on [diamond], where the printer returns, the shared node is locked. *)
Lemma walkers_need_locked_inputs_witness :
  recurse 2 unlocked_input 0 EmptyString [] = Some ([], Crash)
  ∧ traverse 2 false unlocked_input 0 true (mkArchiveState ∅ [])
    = Some (mkArchiveState ∅ [], Crash)
  ∧ is_Some (as_LockedNode diamond 3).
Proof.
  assert (recurse 2 unlocked_input 0 EmptyString [] = Some ([], Crash)
          ∧ traverse 2 false unlocked_input 0 true (mkArchiveState ∅ [])
            = Some (mkArchiveState ∅ [], Crash)) as [Hprint Harchive].
  { apply (proj2 (proj2 (walkers_need_locked_inputs 1 false true unlocked_input 0
                           EmptyString [] (mkArchiveState ∅ [])))
             (mkNode [("a", 1)] None) ("a", 1) []); reflexivity. }
  split; [exact Hprint|]. split; [exact Harchive|].
  assert (∃ out', recurse 5 diamond 0 EmptyString [] = Some (out', Ok tt)) as [out' Hrun]
    by (vm_compute; eexists; reflexivity).
  apply (proj1 (walkers_need_locked_inputs 5 false true diamond 0 EmptyString []
                  (mkArchiveState ∅ [])) out' 3 Hrun).
  apply tc_l with 1.
  - eexists _, "a". split; [reflexivity|repeat constructor].
  - apply tc_once. eexists _, "c". split; [reflexivity|repeat constructor].
Defined.

(** X15 at work: after the archive of [diamond], [sources] holds the path
    of the flake and the path of the shared node. *)
Lemma archive_sources_exact_witness :
  ∃ st doc,
    archive_run 5 true false EmptyString "/nix/store/self" diamond 0 = Some (st, Ok doc)
    ∧ "/nix/store/self" ∈ sources st
    ∧ "/nix/store/z" ∈ sources st.
Proof.
  assert (∃ st doc, archive_run 5 true false EmptyString "/nix/store/self" diamond 0
                    = Some (st, Ok doc)) as (st & doc & Hrun)
    by (vm_compute; eexists _, _; reflexivity).
  exists st, doc. split; [exact Hrun|]. split.
  - apply (proj2 (archive_sources_exact 5 true false EmptyString "/nix/store/self" diamond 0
                    st doc "/nix/store/self" Hrun)).
    left. reflexivity.
  - apply (proj2 (archive_sources_exact 5 true false EmptyString "/nix/store/self" diamond 0
                    st doc "/nix/store/z" Hrun)).
    right. exists 3, (mkLockedNode "z" "z"). split; [|split; reflexivity].
    apply tc_l with 1.
    + eexists _, "a". split; [reflexivity|repeat constructor].
    + apply tc_once. eexists _, "c". split; [reflexivity|repeat constructor].
Defined.

(** X16 at work: the archive of [diamond] to a destination fetches the
    shared node twice and copies once. *)
Lemma archive_effects_witness :
  ∃ st doc,
    archive_run 5 true false "file:///tmp/cache" "/nix/store/self" diamond 0
    = Some (st, Ok doc)
    ∧ effects st = [FetchTree "x"; FetchTree "z"; FetchTree "y"; FetchTree "z";
                    CopyPaths "file:///tmp/cache" (sources st)].
Proof.
  assert (∃ st doc, archive_run 5 true false "file:///tmp/cache" "/nix/store/self" diamond 0
                    = Some (st, Ok doc)) as (st & doc & Hrun)
    by (vm_compute; eexists _, _; reflexivity).
  assert (∃ out, list_inputs_run 5 diamond 0 = Some (out, Ok tt)
                 ∧ printed_refs out = ["x"; "z"; "y"; "z"]) as (out & Hprint & Hrefs)
    by (vm_compute; eexists; split; reflexivity).
  exists st, doc. split; [exact Hrun|].
  rewrite (proj2 (archive_effects 5 true false "file:///tmp/cache" "/nix/store/self" diamond 0
                    st doc Hrun) eq_refl out Hprint), Hrefs.
  reflexivity.
Defined.

(** X18 at work: a cursor whose operations fail with an evaluation error
    ends the visit of a package with that error, and is passed over below
    [legacyPackages]. *)
Lemma visit_eval_errors_witness :
  snd (visit true (failing (EvalError (mkError EmptyString "undefined variable")))
         ["legacyPackages"; "x86_64-linux"] "header" "next" (mkShowState [] []))
  ≠ Raise (EvalError (mkError EmptyString "undefined variable"))
  ∧ snd (visit true (failing (EvalError (mkError EmptyString "undefined variable")))
           ["packages"; "x86_64-linux"; "hello"] "header" "next" (mkShowState [] []))
    = Raise (EvalError (mkError EmptyString "undefined variable")).
Proof.
  split.
  - apply (proj1 (visit_eval_errors true ["legacyPackages"; "x86_64-linux"] "header" "next"
                    (mkShowState [] []))).
    reflexivity.
  - apply (proj2 (visit_eval_errors true ["packages"; "x86_64-linux"; "hello"] "header"
                    "next" (mkShowState [] []))).
    + reflexivity.
    + left. reflexivity.
Defined.

(** X19 at work: without [--legacy], a derivation below [legacyPackages] is
    shown as omitted. *)
Lemma legacyPackages_depth_witness :
  visit false (drv_cursor "hello-2.10") ["legacyPackages"; "x86_64-linux"; "hello"]
    "header" "next" (mkShowState [] [])
  = (mkShowState
       ["header: " +:+ ANSI_YELLOW +:+ "omitted" +:+ ANSI_NORMAL +:+ " (use '--legacy' to show)"]
       ["evaluating 'legacyPackages.x86_64-linux.hello'"], Done tt).
Proof.
  assert ((2 ≤ List.length ["legacyPackages"; "x86_64-linux"; "hello"])%nat) as Hsize
    by (simpl; lia).
  exact (proj1 (legacyPackages_depth ["legacyPackages"; "x86_64-linux"; "hello"] "header"
                  "next" (mkShowState [] []) eq_refl Hsize) (drv_cursor "hello-2.10")).
Defined.

(** X20 at work: the output [overlays], which the checker knows, is shown
    as unknown. *)
Lemma visit_other_output_witness :
  "overlays" ∈ known_outputs
  ∧ visit false (failing (EvalError (mkError EmptyString "undefined variable"))) ["overlays"]
      "header" "next" (mkShowState [] [])
    = (mkShowState ["header: " +:+ ANSI_YELLOW +:+ "unknown" +:+ ANSI_NORMAL]
         ["evaluating 'overlays'"], Done tt).
Proof.
  split.
  - apply list_elem_of_In. simpl. tauto.
  - assert ("overlays" ∉ shown_outputs) as Hname by not_in_list.
    exact (visit_other_output false _ "overlays" "header" "next" (mkShowState [] []) Hname).
Defined.
